(** * Hex view of angr-management: grid geometry, cursor and selection,
      highlight regions and patch management

    A shallow embedding of [angrmanagement/ui/views/hex_view.py].  Python
    integers are unbounded, so addresses, sizes and byte values are [Z];
    [&], [|], [~], [<<] and [>>] are [Z.land], [Z.lor], [Z.lnot], [Z.shiftl]
    and [Z.shiftr], which agree with Python on negative numbers as well. *)

From stdpp Require Import gmap strings list fin_maps sorting.
From Stdlib Require Import ZArith Lia.

Local Open Scope Z_scope.

(** ** Address geometry ([HexGraphicsObject.row_col_to_addr] and friends) *)

Module Geometry.

Definition RowCol : Type := Z * Z.

(** [self.start_addr & ~15]: the address shown in column 0 of row 0. *)
Definition row_base (start_addr : Z) : Z := Z.land start_addr (Z.lnot 15).

(** [row_to_addr]: [(self.start_addr & ~15) + row * 16]. *)
Definition row_to_addr (start_addr row : Z) : Z :=
  row_base start_addr + row * 16.

(** [row_col_to_addr]: [(self.start_addr & ~15) + row*16 + col]. *)
Definition row_col_to_addr (start_addr row col : Z) : Z :=
  row_base start_addr + row * 16 + col.

(** [addr_to_row_col]: subtract the row base, then [>> 4] and [& 15]. *)
Definition addr_to_row_col (start_addr addr : Z) : RowCol :=
  let addr := addr - Z.land start_addr (Z.lnot 15) in
  let row := Z.shiftr addr 4 in
  let col := Z.land addr 15 in
  (row, col).

(** Python's [a / 16] on an integer [a >= 0], times 16: the float division
    gives the quotient rounded to the nearest double, that is to 53
    significant bits with ties going to the even neighbour; dividing by 16
    only changes the exponent, so this is [a] rounded in that way. *)
Definition nearest_double (a : Z) : Z :=
  let k := Z.log2 a - 52 in
  if k <=? 0 then a
  else
    let q := Z.shiftr a k in
    let r := a - Z.shiftl q k in
    let half := Z.shiftl 1 (k - 1) in
    let q := if (r >? half) || ((r =? half) && Z.odd q) then q + 1 else q in
    Z.shiftl q k.

(** [int(a / 16)] for [a >= 0]; [None] is the [OverflowError] of a quotient
    that is too large for a float. *)
Definition int_div16 (a : Z) : option Z :=
  let f := nearest_double a in
  if f <? 2 ^ 1028 then Some (f / 16) else None.

(** [self.num_rows] as [_update_layout] computes it:
    [int((self.num_bytes + (self.start_addr & 0xf) + 0xf) / 16)] for a
    region of at least one byte, and 0 otherwise. *)
Definition num_rows (start_addr num_bytes : Z) : option Z :=
  if num_bytes >? 0
  then int_div16 (num_bytes + Z.land start_addr 0xf + 0xf)
  else Some 0.

End Geometry.

(** [point_to_column(p, columns)] (a static method): the index of the first
    column [i] with [columns[i] <= x < columns[i + 1]], or [None].  The
    coordinates are floats; [le] and [lt] are their comparisons [<=] and
    [<].  [range(len(columns) - 1)] is empty for fewer than two offsets. *)
Section PointToColumn.

Context {T : Type} (le lt : T -> T -> bool).

Fixpoint point_to_column_from (i : Z) (x : T) (columns : list T)
    : option Z :=
  match columns with
  | c0 :: (c1 :: _) as rest =>
      if le c0 x && lt x c1 then Some i
      else point_to_column_from (i + 1) x rest
  | _ => None
  end.

Definition point_to_column (x : T) (columns : list T) : option Z :=
  point_to_column_from 0 x columns.

End PointToColumn.

(** ** Highlight regions ([HexHighlightRegion]) *)

Inductive QColor : Type :=
  | Qt_yellow
  | Qt_green
  | hex_view_string_color
  | hex_view_data_color
  | hex_view_instruction_color.

Module Region.

(** The attributes set by [HexHighlightRegion.__init__]; [active] starts
    out [False] and is only written by
    [HexGraphicsObject.update_active_highlight_regions]. *)
Record t : Type := mk {
  color : QColor;
  addr : Z;
  size : Z;
  active : bool
}.

Definition init (c : QColor) (a sz : Z) : t := mk c a sz false.

Definition set_active (b : bool) (r : t) : t :=
  mk (color r) (addr r) (size r) b.

End Region.

(** [HexByteValue = Union[int, str]]: what a data provider returns. *)
Inductive HexByteValue : Type :=
  | IntValue (v : Z)
  | StrValue (s : string).

(** ** The hex grid object ([HexGraphicsObject])

    The attributes that the cursor, the selection and the editing methods
    read or write.  The two callbacks are stored in the object, as in the
    source; they act on a world [World] owned by whoever installed them (for
    [HexView] the patch manager of the project) and do not call back into
    the object.  Three things belong to Qt
    and are represented by plain data: [has_focus] is the answer of
    [hasFocus()], [cursor_changed_emitted] counts the calls of
    [cursor_changed.emit()] (the slots connected to the signal are not part
    of this object), and [update()], which only schedules a repaint, leaves
    the state alone. *)

Section HexGraphicsObject.

Context {World : Type}.

Record HexGraphicsObject : Type := mkHex {
  start_addr : Z;
  num_bytes : Z;
  end_addr : Z;
  read_func : option (Z -> World -> HexByteValue);
  write_func : option (Z -> Z -> World -> bool * World);
  data : list Z;
  cursor : Z;
  cursor_nibble : option Z;
  selection_start : option Z;
  ascii_column_active : bool;
  cursor_blink_state : bool;
  highlighted_regions : list Region.t;
  _processing_cursor_update : bool;
  has_focus : bool;
  cursor_changed_emitted : nat
}.

(** [HexGraphicsObject.__init__], before any data is assigned. *)
Definition init (focus : bool) : HexGraphicsObject :=
  {| start_addr := 0; num_bytes := 0; end_addr := 0;
     read_func := None; write_func := None; data := [];
     cursor := 0; cursor_nibble := None; selection_start := None;
     ascii_column_active := false; cursor_blink_state := true;
     highlighted_regions := []; _processing_cursor_update := false;
     has_focus := focus; cursor_changed_emitted := 0 |}.

(** Attribute assignments, one per attribute that some method writes. *)
Definition set_start_addr (v : Z) (s : HexGraphicsObject) :=
  mkHex v (num_bytes s) (end_addr s) (read_func s) (write_func s) (data s)
    (cursor s) (cursor_nibble s) (selection_start s) (ascii_column_active s)
    (cursor_blink_state s) (highlighted_regions s)
    (_processing_cursor_update s) (has_focus s) (cursor_changed_emitted s).
Definition set_num_bytes (v : Z) (s : HexGraphicsObject) :=
  mkHex (start_addr s) v (end_addr s) (read_func s) (write_func s) (data s)
    (cursor s) (cursor_nibble s) (selection_start s) (ascii_column_active s)
    (cursor_blink_state s) (highlighted_regions s)
    (_processing_cursor_update s) (has_focus s) (cursor_changed_emitted s).
Definition set_end_addr (v : Z) (s : HexGraphicsObject) :=
  mkHex (start_addr s) (num_bytes s) v (read_func s) (write_func s) (data s)
    (cursor s) (cursor_nibble s) (selection_start s) (ascii_column_active s)
    (cursor_blink_state s) (highlighted_regions s)
    (_processing_cursor_update s) (has_focus s) (cursor_changed_emitted s).
Definition set_read_func v (s : HexGraphicsObject) :=
  mkHex (start_addr s) (num_bytes s) (end_addr s) v (write_func s) (data s)
    (cursor s) (cursor_nibble s) (selection_start s) (ascii_column_active s)
    (cursor_blink_state s) (highlighted_regions s)
    (_processing_cursor_update s) (has_focus s) (cursor_changed_emitted s).
Definition set_write_func v (s : HexGraphicsObject) :=
  mkHex (start_addr s) (num_bytes s) (end_addr s) (read_func s) v (data s)
    (cursor s) (cursor_nibble s) (selection_start s) (ascii_column_active s)
    (cursor_blink_state s) (highlighted_regions s)
    (_processing_cursor_update s) (has_focus s) (cursor_changed_emitted s).
Definition set_data_attr (v : list Z) (s : HexGraphicsObject) :=
  mkHex (start_addr s) (num_bytes s) (end_addr s) (read_func s)
    (write_func s) v
    (cursor s) (cursor_nibble s) (selection_start s) (ascii_column_active s)
    (cursor_blink_state s) (highlighted_regions s)
    (_processing_cursor_update s) (has_focus s) (cursor_changed_emitted s).
Definition set_cursor_attr (v : Z) (s : HexGraphicsObject) :=
  mkHex (start_addr s) (num_bytes s) (end_addr s) (read_func s)
    (write_func s) (data s)
    v (cursor_nibble s) (selection_start s) (ascii_column_active s)
    (cursor_blink_state s) (highlighted_regions s)
    (_processing_cursor_update s) (has_focus s) (cursor_changed_emitted s).
Definition set_cursor_nibble (v : option Z) (s : HexGraphicsObject) :=
  mkHex (start_addr s) (num_bytes s) (end_addr s) (read_func s)
    (write_func s) (data s)
    (cursor s) v (selection_start s) (ascii_column_active s)
    (cursor_blink_state s) (highlighted_regions s)
    (_processing_cursor_update s) (has_focus s) (cursor_changed_emitted s).
Definition set_selection_start (v : option Z) (s : HexGraphicsObject) :=
  mkHex (start_addr s) (num_bytes s) (end_addr s) (read_func s)
    (write_func s) (data s)
    (cursor s) (cursor_nibble s) v (ascii_column_active s)
    (cursor_blink_state s) (highlighted_regions s)
    (_processing_cursor_update s) (has_focus s) (cursor_changed_emitted s).
Definition set_ascii_column_active (v : bool) (s : HexGraphicsObject) :=
  mkHex (start_addr s) (num_bytes s) (end_addr s) (read_func s)
    (write_func s) (data s)
    (cursor s) (cursor_nibble s) (selection_start s) v
    (cursor_blink_state s) (highlighted_regions s)
    (_processing_cursor_update s) (has_focus s) (cursor_changed_emitted s).
Definition set_cursor_blink_state (v : bool) (s : HexGraphicsObject) :=
  mkHex (start_addr s) (num_bytes s) (end_addr s) (read_func s)
    (write_func s) (data s)
    (cursor s) (cursor_nibble s) (selection_start s) (ascii_column_active s)
    v (highlighted_regions s)
    (_processing_cursor_update s) (has_focus s) (cursor_changed_emitted s).
Definition set_highlighted_regions (v : list Region.t)
    (s : HexGraphicsObject) :=
  mkHex (start_addr s) (num_bytes s) (end_addr s) (read_func s)
    (write_func s) (data s)
    (cursor s) (cursor_nibble s) (selection_start s) (ascii_column_active s)
    (cursor_blink_state s) v
    (_processing_cursor_update s) (has_focus s) (cursor_changed_emitted s).
Definition set_processing_cursor_update (v : bool) (s : HexGraphicsObject) :=
  mkHex (start_addr s) (num_bytes s) (end_addr s) (read_func s)
    (write_func s) (data s)
    (cursor s) (cursor_nibble s) (selection_start s) (ascii_column_active s)
    (cursor_blink_state s) (highlighted_regions s)
    v (has_focus s) (cursor_changed_emitted s).

(** [self.cursor_changed.emit()] *)
Definition emit_cursor_changed (s : HexGraphicsObject) :=
  mkHex (start_addr s) (num_bytes s) (end_addr s) (read_func s)
    (write_func s) (data s)
    (cursor s) (cursor_nibble s) (selection_start s) (ascii_column_active s)
    (cursor_blink_state s) (highlighted_regions s)
    (_processing_cursor_update s) (has_focus s)
    (S (cursor_changed_emitted s)).

(** [begin_selection]: [self.selection_start = self.cursor]. *)
Definition begin_selection (self : HexGraphicsObject) : HexGraphicsObject :=
  set_selection_start (Some (cursor self)) self.

(** [clear_selection]: [self.selection_start = None]. *)
Definition clear_selection (self : HexGraphicsObject) : HexGraphicsObject :=
  set_selection_start None self.

(** [restart_cursor_blink_timer]: the timer is stopped and started again
    and the blink phase is reset. *)
Definition restart_cursor_blink_timer (self : HexGraphicsObject) :=
  set_cursor_blink_state true self.

(** The [(minaddr, maxaddr)] that [update_active_highlight_regions]
    computes first. *)
Definition active_range (self : HexGraphicsObject) : Z * Z :=
  match selection_start self with
  | None => (cursor self, cursor self)
  | Some sel => (Z.min (cursor self) sel, Z.max (cursor self) sel)
  end.

(** The body of the loop of [update_active_highlight_regions]. *)
Definition update_region_active (minaddr maxaddr : Z) (region : Region.t)
    : Region.t :=
  let region_end := Region.addr region + Region.size region - 1 in
  Region.set_active
    (negb ((Region.addr region >? maxaddr) || (minaddr >? region_end)))
    region.

Definition update_active_highlight_regions (self : HexGraphicsObject)
    : HexGraphicsObject :=
  let '(minaddr, maxaddr) := active_range self in
  set_highlighted_regions
    (map (update_region_active minaddr maxaddr) (highlighted_regions self))
    self.

(** [get_active_highlight_regions] *)
Definition get_active_highlight_regions (self : HexGraphicsObject)
    : list Region.t :=
  filter (fun rgn => Region.active rgn = true) (highlighted_regions self).

(** [get_highlight_regions_under_cursor]: the loop appends the regions
    with [region.addr <= self.cursor < region.addr + region.size] in the
    order of [self.highlighted_regions]. *)
Definition under_cursor (c : Z) (region : Region.t) : bool :=
  (Region.addr region <=? c) && (c <? Region.addr region + Region.size region).

Fixpoint regions_under (c : Z) (rs : list Region.t) : list Region.t :=
  match rs with
  | [] => []
  | region :: rest =>
      if under_cursor c region then region :: regions_under c rest
      else regions_under c rest
  end.

Definition get_highlight_regions_under_cursor (self : HexGraphicsObject)
    : list Region.t :=
  regions_under (cursor self) (highlighted_regions self).

(** [set_highlight_regions] *)
Definition set_highlight_regions (regions : list Region.t)
    (self : HexGraphicsObject) : HexGraphicsObject :=
  update_active_highlight_regions (set_highlighted_regions regions self).

(** [get_selection] *)
Definition get_selection (self : HexGraphicsObject) : option (Z * Z) :=
  match selection_start self with
  | None => None
  | Some sel =>
      if (start_addr self <=? cursor self) && (cursor self <? end_addr self)
      then Some (Z.min (cursor self) sel, Z.max (cursor self) sel)
      else None
  end.

(** [set_cursor(addr, ascii_column=None, nibble=None)] *)
Definition set_cursor (addr : Z) (ascii_column : option bool)
    (nibble : option Z) (self : HexGraphicsObject) : HexGraphicsObject :=
  if (addr >=? end_addr self) || (addr <? start_addr self) then self
  else if _processing_cursor_update self then self
  else
    let self := set_processing_cursor_update true self in
    let self := match ascii_column with
                | Some b => set_ascii_column_active b self
                | None => self
                end in
    let self := if has_focus self then restart_cursor_blink_timer self
                else self in
    let cursor_changed := negb (cursor self =? addr) in
    let self := set_cursor_attr addr self in
    let self := set_cursor_nibble nibble self in
    let self := emit_cursor_changed self in
    let self := if cursor_changed
                then update_active_highlight_regions self
                else self in
    set_processing_cursor_update false self.

(** [_update_layout]: recomputes the pixel metrics from the font, and
    [self.num_rows].  None of these is read by the cursor, selection or
    editing methods, and the record above does not keep them; the row count
    is [Geometry.num_rows].  What is left of the call is its exception:
    [None] is the [OverflowError] of the row count. *)
Definition _update_layout (self : HexGraphicsObject)
    : option HexGraphicsObject :=
  match Geometry.num_rows (start_addr self) (num_bytes self) with
  | Some _ => Some self
  | None => None
  end.

(** [_set_data_common]; [None] is the [AssertionError] of
    [assert self.num_bytes >= 0], or the [OverflowError] of the final
    [self._update_layout()]. *)
Definition _set_data_common (self : HexGraphicsObject)
    : option HexGraphicsObject :=
  if num_bytes self >=? 0 then
    let self := set_end_addr (start_addr self + num_bytes self) self in
    let self := set_cursor (start_addr self) None None self in
    _update_layout self
  else None.

(** [set_data(data, start_addr=0, num_bytes=None)] *)
Definition set_data (data : list Z) (start_addr : Z) (num_bytes : option Z)
    (self : HexGraphicsObject) : option HexGraphicsObject :=
  let self := set_start_addr start_addr self in
  let self := set_num_bytes (match num_bytes with
                             | Some n => n
                             | None => Z.of_nat (length data)
                             end) self in
  let self := set_data_attr data self in
  let self := set_read_func None self in
  _set_data_common self.

(** [set_data_callback(write_func, read_func, start_addr, num_bytes)] *)
Definition set_data_callback (write_func : Z -> Z -> World -> bool * World)
    (read_func : Z -> World -> HexByteValue) (start_addr num_bytes : Z)
    (self : HexGraphicsObject) : option HexGraphicsObject :=
  let self := set_start_addr start_addr self in
  let self := set_num_bytes num_bytes self in
  let self := set_write_func (Some write_func) self in
  let self := set_read_func (Some read_func) self in
  _set_data_common self.

(** [get_value_for_addr]; [None] is the [IndexError] of [self.data[i]].
    A negative index counts from the end of the buffer. *)
Definition get_value_for_addr (addr : Z) (self : HexGraphicsObject)
    (w : World) : option HexByteValue :=
  match read_func self with
  | Some rf => Some (rf addr w)
  | None =>
      let i := addr - start_addr self in
      let n := Z.of_nat (length (data self)) in
      let i := if i <? 0 then i + n else i in
      if (0 <=? i) && (i <? n)
      then IntValue <$> (data self !! Z.to_nat i)
      else None
  end.

(** [_set_byte_value(value)].  The outer [None] is the [TypeError] raised
    when no write callback is installed ([write_func] is still [None]). *)
Definition _set_byte_value (value : Z) (self : HexGraphicsObject)
    (w : World) : option (HexGraphicsObject * World) :=
  match write_func self with
  | None => None
  | Some wf =>
      let '(ok, w) := wf (cursor self) value w in
      if negb ok then Some (self, w)
      else Some (set_cursor (cursor self + 1) None None self, w)
  end.

(** [_set_nibble_value(value)].  [None] is an exception: the [TypeError]
    of calling a callback that is [None], or the [ValueError] of a shift
    by a negative count. *)
Definition _set_nibble_value (value : Z) (self : HexGraphicsObject)
    (w : World) : option (HexGraphicsObject * World) :=
  let nibble := match cursor_nibble self with
                | None => 1
                | Some n => n
                end in
  match read_func self with
  | None => None
  | Some rf =>
      let new_byte_value := rf (cursor self) w in
      if nibble * 4 <? 0 then None
      else
        let new_byte_value :=
          match new_byte_value with
          | IntValue v => Z.land v (Z.lnot (Z.shiftl 0xF (nibble * 4)))
          | StrValue _ => 0
          end in
        let new_byte_value :=
          Z.lor new_byte_value (Z.shiftl value (nibble * 4)) in
        match write_func self with
        | None => None
        | Some wf =>
            let '(ok, w) := wf (cursor self) new_byte_value w in
            if negb ok then Some (self, w)
            else
              let next_nibble := 1 - nibble in
              Some (set_cursor (cursor self + next_nibble) None
                      (Some next_nibble) self, w)
        end
  end.

(** [sorted(regions, key=...)]: Python's sort is stable, and so is this
    insertion sort (an element goes in front of the first element whose
    key is not smaller). *)
Fixpoint insert_by_key (key : Region.t -> Z) (x : Region.t)
    (l : list Region.t) : list Region.t :=
  match l with
  | [] => [x]
  | y :: l' =>
      if key x <=? key y then x :: y :: l' else y :: insert_by_key key x l'
  end.

Definition sorted (key : Region.t -> Z) (l : list Region.t)
    : list Region.t :=
  foldr (insert_by_key key) [] l.

(** The regions that [mouseDoubleClickEvent] chooses from:
    [sorted(self.get_highlight_regions_under_cursor(),
            key=lambda r: self.cursor - r.addr)]. *)
Definition double_click_candidates (self : HexGraphicsObject)
    : list Region.t :=
  sorted (fun r => cursor self - Region.addr r)
    (get_highlight_regions_under_cursor self).

(** [mouseDoubleClickEvent] for the left button. *)
Definition mouseDoubleClickEvent (self : HexGraphicsObject)
    : HexGraphicsObject :=
  match double_click_candidates self with
  | region :: _ =>
      let self :=
        set_cursor (Region.addr region + Region.size region - 1)
          None None self in
      let self := begin_selection self in
      set_cursor (Region.addr region) None None self
  | [] => self
  end.

(** The movement branch of [keyPressEvent]: the cursor moves by the entry
    of [movement_keys] for the key; [shift] says whether the Shift modifier
    is held. *)
Inductive MovementKey : Type :=
  Key_Up | Key_Down | Key_Right | Key_Left | Key_PageUp | Key_PageDown.

Definition movement_keys (k : MovementKey) : Z :=
  match k with
  | Key_Up => -16
  | Key_Down => 16
  | Key_Right => 1
  | Key_Left => -1
  | Key_PageUp => -8 * 16
  | Key_PageDown => 8 * 16
  end.

Definition keyPressEvent_movement (k : MovementKey) (shift : bool)
    (self : HexGraphicsObject) : HexGraphicsObject :=
  let self :=
    if shift then
      match selection_start self with
      | None => begin_selection self
      | Some _ => self
      end
    else clear_selection self in
  let new_cursor := cursor self + movement_keys k in
  set_cursor new_cursor None None self.


(** The text branch of [keyPressEvent].  The text [t] of the event is a
    Python string, given here by the code points of its characters; only a
    text of exactly one character is handled.  For such a text [ord(t)] is
    its code point [c]; [t.isascii()] says that [c] is below 128; and
    [t.isprintable()], which [and] evaluates for ASCII characters only, is
    true of those from the space to the tilde.  [hex_digit] is
    [int(t, 16)] for [t] in ['0123456789abcdefABCDEF']. *)
Definition isascii (c : Z) : bool := (0 <=? c) && (c <? 128).

Definition isprintable (c : Z) : bool := (32 <=? c) && (c <=? 126).

Definition hex_digit (c : Z) : option Z :=
  if (48 <=? c) && (c <=? 57) then Some (c - 48)
  else if (97 <=? c) && (c <=? 102) then Some (c - 97 + 10)
  else if (65 <=? c) && (c <=? 70) then Some (c - 65 + 10)
  else None.

(** What becomes of a key press: the handler accepts the event after the
    edit, or passes it on to [super().keyPressEvent]. *)
Inductive KeyOutcome : Type :=
  | Accepted (r : HexGraphicsObject * World)
  | PassedOn.

(** [None] is an exception raised by the edit. *)
Definition keyPressEvent_text (t : list Z) (self : HexGraphicsObject)
    (w : World) : option KeyOutcome :=
  match t with
  | [c] =>
      if ascii_column_active self then
        if isascii c && isprintable c
        then Accepted <$> _set_byte_value c self w
        else Some PassedOn
      else
        match hex_digit c with
        | Some d => Accepted <$> _set_nibble_value d self w
        | None => Some PassedOn
        end
  | _ => Some PassedOn
  end.

End HexGraphicsObject.

Arguments HexGraphicsObject : clear implicits.

(** ** Patches and the patch manager

    [Patch] and the patch manager ([project.kb.patches]) come from angr.
    A [Patch] object has the attributes [addr], [new_bytes] (a
    [bytearray]) and [comment]; [len(patch)] is [len(patch.new_bytes)]. *)

Module Patch.

Record t : Type := mk {
  addr : Z;
  new_bytes : list Z;
  comment : option string
}.

#[global] Instance eq_dec : EqDecision t.
Proof. solve_decision. Defined.

(** [Patch(addr, new_bytes)]: the comment defaults to [None]. *)
Definition init (a : Z) (bytes : list Z) : t := mk a bytes None.

(** [len(patch)] *)
Definition len (p : t) : Z := Z.of_nat (length (new_bytes p)).

(** [patch.addr = a] and [patch.new_bytes = bytes] *)
Definition set_addr (a : Z) (p : t) : t := mk a (new_bytes p) (comment p).
Definition set_new_bytes (bytes : list Z) (p : t) : t :=
  mk (addr p) bytes (comment p).

(** The addresses a patch covers. *)
Definition contains (p : t) (x : Z) : Prop := addr p <= x < addr p + len p.

End Patch.

(** Python slices of a sequence.  An index below zero counts from the end,
    and every index is clipped to the length. *)
Definition slice_index (n i : Z) : Z :=
  if i <? 0 then Z.max (i + n) 0 else Z.min i n.

(** [l[lo:hi]]; a missing bound is [None]. *)
Definition slice {A : Type} (l : list A) (lo hi : option Z) : list A :=
  let n := Z.of_nat (length l) in
  let a := slice_index n (default 0 lo) in
  let b := slice_index n (default n hi) in
  take (Z.to_nat (b - a)) (drop (Z.to_nat a) l).

(** [l[lo:hi] = new] on a [bytearray]: the slice is replaced by [new],
    whatever its length. *)
Definition slice_assign {A : Type} (l : list A) (lo hi : Z) (new : list A)
    : list A :=
  let n := Z.of_nat (length l) in
  let a := slice_index n lo in
  let b := Z.max a (slice_index n hi) in
  take (Z.to_nat a) l ++ new ++ drop (Z.to_nat b) l.

Module PatchManager.

(** Modelled from the spec: the patch manager is code of angr, outside this
    repository.  The spec describes it as a collection of patches keyed by
    start address with the operations [query_overlapping(addr, size) ->
    ordered list of patches], [add(patch)] and [remove(addr)]; in the source
    they are called [get_all_patches], [add_patch_obj] and [remove_patch].
    The collection holds the patch objects themselves, so a change made to a
    patch through any reference is seen by the collection. *)
Abbreviation t := (gmap Z Patch.t).

(** Modelled from the spec: [add(patch)] files the patch under its start
    address. *)
Definition add_patch_obj (patch : Patch.t) (pm : t) : t :=
  <[Patch.addr patch := patch]> pm.

(** Modelled from the spec: [remove(addr)] drops the patch filed under
    [addr]. *)
Definition remove_patch (addr : Z) (pm : t) : t := delete addr pm.

(** A patch intersects the range [[addr, addr + size)] when they have an
    address in common. *)
Definition overlaps (addr size : Z) (p : Patch.t) : bool :=
  Z.max (Patch.addr p) addr <? Z.min (Patch.addr p + Patch.len p) (addr + size).

Definition addr_le (p q : Patch.t) : Prop := Patch.addr p <= Patch.addr q.

#[global] Instance addr_le_dec : RelDecision addr_le.
Proof. intros p q. unfold addr_le. apply _. Defined.

(** Modelled from the spec: [query_overlapping(addr, size)] returns the
    patches intersecting the range, in ascending address order. *)
Definition get_all_patches (pm : t) (addr size : Z) : list Patch.t :=
  merge_sort addr_le (filter (fun p => overlaps addr size p = true)
                        ((map_to_list pm).*2)).

(** An assignment to [p.new_bytes] while [p] is held by the manager: the
    object filed under [p.addr] changes with it.  ([p] is always a patch
    that the manager returned or that a highlight region was built from, so
    it is the object filed under its own address.) *)
Definition update_in_place (p : Patch.t) (bytes : list Z) (pm : t) : t :=
  <[Patch.addr p := Patch.set_new_bytes bytes p]> pm.

End PatchManager.

(** ** [HexView.auto_patch] *)

Module AutoPatch.
Import PatchManager.

(** How one round of the loop over the intersecting patches ends. *)
Inductive Outcome : Type :=
  | Return (pm : PatchManager.t)      (* the [return] of the first branch *)
  | Continue (pm : PatchManager.t)    (* on to the next patch *)
  | AssertionError.                   (* [assert False] *)

(** The body of the [for p in pm.get_all_patches(addr, len(new_bytes))]
    loop. *)
Definition resolve (addr max_addr : Z) (new_bytes : list Z) (p : Patch.t)
    (pm : PatchManager.t) : Outcome :=
  let patch_max_addr := Patch.addr p + Patch.len p - 1 in
  if (Patch.addr p <=? addr) && (patch_max_addr >=? max_addr) then
    (* Existing patch contains new patch entirely. Update it. *)
    Return (update_in_place p
              (slice_assign (Patch.new_bytes p) (addr - Patch.addr p)
                 (max_addr - Patch.addr p + 1) new_bytes) pm)
  else if (Patch.addr p >=? addr) && (patch_max_addr <=? max_addr) then
    (* Patch will be entirely overwritten, remove it. *)
    Continue (remove_patch (Patch.addr p) pm)
  else if (Patch.addr p >=? addr) && (patch_max_addr >? max_addr) then
    (* Lower portion of patch will be overwritten, shrink patch up. *)
    let pm := remove_patch (Patch.addr p) pm in
    let new_p_addr := max_addr + 1 in
    let p := Patch.set_new_bytes
               (slice (Patch.new_bytes p) (Some (new_p_addr - Patch.addr p))
                  None) p in
    let p := Patch.set_addr new_p_addr p in
    Continue (add_patch_obj p pm)
  else if (Patch.addr p <? addr) && (patch_max_addr <=? max_addr) then
    (* Upper portion of patch will be overwritten, shrink patch down. *)
    let pm := remove_patch (Patch.addr p) pm in
    let p := Patch.set_new_bytes
               (slice (Patch.new_bytes p) (Some 0) (Some (addr - Patch.addr p)))
               p in
    Continue (add_patch_obj p pm)
  else AssertionError.

Fixpoint resolve_all (addr max_addr : Z) (new_bytes : list Z)
    (ps : list Patch.t) (pm : PatchManager.t) : Outcome :=
  match ps with
  | [] => Continue pm
  | p :: ps =>
      match resolve addr max_addr new_bytes p pm with
      | Continue pm => resolve_all addr max_addr new_bytes ps pm
      | out => out
      end
  end.

(** The part after the loop: "Check to see if we should extend an adjacent
    patch".  [None] when the function falls through to the creation of a
    new patch. *)
Definition extend_adjacent (addr : Z) (new_bytes : list Z)
    (pm : PatchManager.t) : option PatchManager.t :=
  if addr >? 0 then
    match get_all_patches pm (addr - 1) 1 with
    | p :: _ => Some (update_in_place p (Patch.new_bytes p ++ new_bytes) pm)
    | [] => None
    end
  else None.

(** [auto_patch(addr, new_bytes)]; [None] is the [AssertionError]. *)
Definition auto_patch (addr : Z) (new_bytes : list Z) (pm : PatchManager.t)
    : option PatchManager.t :=
  let max_addr := addr + Z.of_nat (length new_bytes) - 1 in
  match resolve_all addr max_addr new_bytes
          (get_all_patches pm addr (Z.of_nat (length new_bytes))) pm with
  | Return pm => Some pm
  | AssertionError => None
  | Continue pm =>
      match extend_adjacent addr new_bytes pm with
      | Some pm => Some pm
      | None => Some (add_patch_obj (Patch.init addr new_bytes) pm)
      end
  end.

End AutoPatch.

(** ** Splitting and merging patches ([PatchHighlightRegion])

    [patch] is the region's [self.patch], a patch held by the manager, and
    [cursor] is [self.view.inner_widget.hex.cursor].  The [am_event()] that
    ends both methods only notifies the subscribers of the manager. *)

Module PatchRegion.
Import PatchManager.

Definition can_split (cursor : Z) (patch : Patch.t) : bool :=
  (Patch.addr patch <? cursor) && (cursor <? Patch.addr patch + Patch.len patch).

Definition split (cursor : Z) (patch : Patch.t) (pm : PatchManager.t)
    : PatchManager.t :=
  if can_split cursor patch then
    let o := cursor - Patch.addr patch in
    let new_patch :=
      Patch.mk cursor (slice (Patch.new_bytes patch) (Some o) None)
        (Patch.comment patch) in
    let pm :=
      update_in_place patch (slice (Patch.new_bytes patch) (Some 0) (Some o))
        pm in
    add_patch_obj new_patch pm
  else pm.

Definition can_merge_with (patch other : Patch.t) : bool :=
  Patch.addr other =? Patch.addr patch + Patch.len patch.

Definition merge_with (patch other : Patch.t) (pm : PatchManager.t)
    : PatchManager.t :=
  if can_merge_with patch other then
    let pm :=
      update_in_place patch (Patch.new_bytes patch ++ Patch.new_bytes other)
        pm in
    remove_patch (Patch.addr other) pm
  else pm.

End PatchRegion.

(** ** [PatchHighlightRegion.revert] and the regions built from patches *)

Module PatchHighlight.
Import PatchManager.

(** [revert]: [pm.remove_patch(self.patch.addr)]. *)
Definition revert (patch : Patch.t) (pm : PatchManager.t) : PatchManager.t :=
  remove_patch (Patch.addr patch) pm.

(** [PatchHighlightRegion.__init__]: a yellow region with the address and
    the length the patch has at that moment. *)
Definition init (patch : Patch.t) : Region.t :=
  Region.init Qt_yellow (Patch.addr patch) (Patch.len patch).

(** Modelled from the spec: [kb.patches.values()], the patches of the
    collection in ascending address order. *)
Definition values (pm : PatchManager.t) : list Patch.t :=
  merge_sort addr_le ((map_to_list pm).*2).

(** The list that [_update_highlight_regions_from_patches] stores in
    [self._patch_highlights] when a project is loaded:
    [[PatchHighlightRegion(patch, self) for patch in ...patches.values()]]. *)
Definition patch_highlights (pm : PatchManager.t) : list Region.t :=
  init <$> values pm.

End PatchHighlight.

(** ** The byte source of [HexView]

    [HexView] hands [project_memory_read_func] and
    [project_memory_write_func] to the hex grid.  They work on the patch
    manager of the project and on the memory of the loaded binary. *)

Module HexView.
Import PatchManager AutoPatch.

(** Modelled from the spec: the byte source behind the patches is the
    loader memory of angr, [read(addr) -> byte | unavailable]; reading an
    address that is not mapped raises [KeyError]. *)
Record Project : Type := mkProject {
  patches : PatchManager.t;
  memory : gmap Z Z
}.

(** [l[i]] on a [bytearray]; [None] is the [IndexError]. *)
Definition getitem (l : list Z) (i : Z) : option Z :=
  let n := Z.of_nat (length l) in
  let i := if i <? 0 then i + n else i in
  if (0 <=? i) && (i <? n) then l !! Z.to_nat i else None.

(** [project_memory_read_func(addr)]; the outer [None] is an [IndexError]
    of [patch.new_bytes[addr - patch.addr]]. *)
Definition project_memory_read_func (addr : Z) (p : Project)
    : option HexByteValue :=
  match get_all_patches (patches p) addr 1 with
  | patch :: _ =>
      IntValue <$> getitem (Patch.new_bytes patch) (addr - Patch.addr patch)
  | [] =>
      Some match memory p !! addr with
           | Some v => IntValue v
           | None => StrValue "?"
           end
  end.

(** [project_memory_write_bytearray(addr, value)]: [auto_patch] on a copy
    of [value], then the change notification, then [return True].  [None]
    is the [AssertionError] of [auto_patch]. *)
Definition project_memory_write_bytearray (addr : Z) (value : list Z)
    (p : Project) : option (bool * Project) :=
  pm ← auto_patch addr value (patches p);
  Some (true, mkProject pm (memory p)).

(** [project_memory_write_func(addr, value)]; [bytearray([value])] raises
    [ValueError] unless [0 <= value < 256]. *)
Definition project_memory_write_func (addr value : Z) (p : Project)
    : option (bool * Project) :=
  if (0 <=? value) && (value <? 256)
  then project_memory_write_bytearray addr [value] p
  else None.

(** The attributes of [HexView] that selection, clipboard and highlight
    handling use; [hex] is [self.inner_widget.hex]. *)
Record t : Type := mk {
  hex : HexGraphicsObject Project;
  _clipboard : option (list Z);
  _cfb_highlights : list Region.t;
  _sync_view_highlights : list Region.t;
  _patch_highlights : list Region.t
}.

Definition set_hex (h : HexGraphicsObject Project) (v : t) : t :=
  mk h (_clipboard v) (_cfb_highlights v) (_sync_view_highlights v)
    (_patch_highlights v).
Definition set_clipboard (c : option (list Z)) (v : t) : t :=
  mk (hex v) c (_cfb_highlights v) (_sync_view_highlights v)
    (_patch_highlights v).
Definition set_patch_highlights (rs : list Region.t) (v : t) : t :=
  mk (hex v) (_clipboard v) (_cfb_highlights v) (_sync_view_highlights v) rs.

(** [_set_highlighted_regions]: the three lists, one after the other, go to
    the hex grid.  The grid's list holds the very region objects of the
    three cached lists, so the [active] flags that
    [set_highlight_regions] writes are the flags of the cached regions
    too: each cached list is read back from its part of the grid's
    list. *)
Definition _set_highlighted_regions (v : t) : t :=
  let regions := [] in
  let regions := regions ++ _cfb_highlights v in
  let regions := regions ++ _sync_view_highlights v in
  let regions := regions ++ _patch_highlights v in
  let h := set_highlight_regions regions (hex v) in
  let shared := highlighted_regions h in
  let n1 := length (_cfb_highlights v) in
  let n2 := length (_sync_view_highlights v) in
  mk h (_clipboard v)
    (take n1 shared) (take n2 (drop n1 shared)) (drop (n1 + n2) shared).

(** [_update_highlight_regions_from_patches]; [pm] is [None] when no
    project is loaded ([project.am_none]). *)
Definition _update_highlight_regions_from_patches
    (pm : option PatchManager.t) (v : t) : t :=
  let v :=
    match pm with
    | None => set_patch_highlights [] v
    | Some pm => set_patch_highlights (PatchHighlight.patch_highlights pm) v
    end in
  _set_highlighted_regions v.

(** [HexView.set_cursor(addr)] *)
Definition set_cursor (addr : Z) (v : t) : t :=
  let v := set_hex (clear_selection (hex v)) v in
  set_hex (set_cursor addr None None (hex v)) v.

(** [jump_to(addr)]: always answers [True]. *)
Definition jump_to (addr : Z) (v : t) : bool * t := (true, set_cursor addr v).

(** [_get_num_selected_bytes] *)
Definition _get_num_selected_bytes (v : t) : Z :=
  match get_selection (hex v) with
  | None => 0
  | Some (minaddr, maxaddr) => maxaddr - minaddr + 1
  end.

(** One round of the loop of [_copy_selected_bytes]:
    [d = self.project_memory_read_func(addr)] and, for an [int],
    [self._clipboard[addr-minaddr] = d].  [None] is an exception: the
    [IndexError] of the read, or the [ValueError] of storing a value that
    is not a byte. *)
Definition copy_byte (minaddr : Z) (p : Project) (clipboard : list Z)
    (addr : Z) : option (list Z) :=
  d ← project_memory_read_func addr p;
  match d with
  | IntValue d =>
      if (0 <=? d) && (d <? 256)
      then Some (<[Z.to_nat (addr - minaddr) := d]> clipboard)
      else None
  | StrValue _ => Some clipboard
  end.

Fixpoint copy_bytes (minaddr : Z) (p : Project) (clipboard : list Z)
    (addrs : list Z) : option (list Z) :=
  match addrs with
  | [] => Some clipboard
  | addr :: addrs =>
      clipboard ← copy_byte minaddr p clipboard addr;
      copy_bytes minaddr p clipboard addrs
  end.

(** [_copy_selected_bytes]; [None] is an exception raised in the loop.
    [bytearray(n)] is [n] zero bytes and [range(minaddr, maxaddr + 1)] the
    selected addresses in ascending order. *)
Definition _copy_selected_bytes (p : Project) (v : t) : option t :=
  match get_selection (hex v) with
  | None => Some (set_clipboard None v)
  | Some (minaddr, maxaddr) =>
      let num_bytes_selected := maxaddr - minaddr + 1 in
      clipboard ← copy_bytes minaddr p
                    (replicate (Z.to_nat num_bytes_selected) 0)
                    (seqZ minaddr (maxaddr + 1 - minaddr));
      Some (set_clipboard (Some clipboard) v)
  end.

(** [_paste_copied_bytes_at_cursor]; [None] is the [AssertionError] of
    [auto_patch]. *)
Definition _paste_copied_bytes_at_cursor (p : Project) (v : t)
    : option Project :=
  match _clipboard v with
  | Some clipboard =>
      r ← project_memory_write_bytearray (cursor (hex v)) clipboard p;
      Some r.2
  | None => Some p
  end.

End HexView.

(** ** Predicates of the specification *)

(** The cursor invariant of the data model. *)
Definition in_bounds {World} (self : HexGraphicsObject World) : Prop :=
  start_addr self <= cursor self < end_addr self.

(** The overlap test of a region against an inclusive address range. *)
Definition overlap_test (minaddr maxaddr : Z) (region : Region.t) : bool :=
  (Region.addr region <=? maxaddr)
  && (minaddr <=? Region.addr region + Region.size region - 1).


(** A move is accepted when the address is in bounds and no move is in
    progress. *)
Definition accepted {World} (self : HexGraphicsObject World) (addr : Z)
    : Prop :=
  start_addr self <= addr < end_addr self
  /\ _processing_cursor_update self = false.

(** The order of two regions by a sort key. *)
Definition key_le (key : Region.t -> Z) (r1 r2 : Region.t) : Prop :=
  key r1 <= key r2.

(** The byte that [_set_nibble_value] hands to the write callback: the
    addressed nibble of the old value is cleared (an unknown old value
    counts as 0) and [value] is put in its place. *)
Definition merged_nibble (old : HexByteValue) (nibble value : Z) : Z :=
  Z.lor
    match old with
    | IntValue v => Z.land v (Z.lnot (Z.shiftl 0xF (nibble * 4)))
    | StrValue _ => 0
    end
    (Z.shiftl value (nibble * 4)).

(** The state the patch manager keeps its collection in: every patch is
    filed under its own start address, and no two patches have an address in
    common. *)
Definition keyed (pm : PatchManager.t) : Prop :=
  forall k p, pm !! k = Some p -> Patch.addr p = k.

Definition disjoint (pm : PatchManager.t) : Prop :=
  forall k1 k2 p1 p2,
    pm !! k1 = Some p1 -> pm !! k2 = Some p2 -> k1 <> k2 ->
    forall x, ~ (Patch.contains p1 x /\ Patch.contains p2 x).

Definition wf (pm : PatchManager.t) : Prop := keyed pm /\ disjoint pm.

(** [p] is one of the patches of the manager. *)
Definition holds (pm : PatchManager.t) (p : Patch.t) : Prop :=
  pm !! Patch.addr p = Some p.

(** The target range of a write lies inside the patch [q]. *)
Definition encloses (addr size : Z) (q : Patch.t) : Prop :=
  Patch.addr q <= addr /\ addr + size - 1 <= Patch.addr q + Patch.len q - 1.

(** A patch cut off in front of [addr]. *)
Definition cut_before (addr : Z) (p : Patch.t) : Patch.t :=
  Patch.set_new_bytes
    (take (Z.to_nat (addr - Patch.addr p)) (Patch.new_bytes p)) p.

(** The byte that a patch holds for the address [x]. *)
Definition byte_of (p : Patch.t) (x : Z) : option Z :=
  Patch.new_bytes p !! Z.to_nat (x - Patch.addr p).

(** The collection patches the address [x] with the byte [v]. *)
Definition covers (pm : PatchManager.t) (x v : Z) : Prop :=
  exists p, holds pm p /\ Patch.contains p x /\ byte_of p x = Some v.

(** The address [x] lies in the target range of a write of [n] bytes at
    [addr]. *)
Definition in_target (addr n x : Z) : Prop := addr <= x < addr + n.

(** What [_copy_selected_bytes] leaves in the clipboard for the address
    [x]: the number read there, or the zero that [bytearray(n)] starts with
    where the read gives no number. *)
Definition copied_byte (p : HexView.Project) (x : Z) : Z :=
  match HexView.project_memory_read_func x p with
  | Some (IntValue v) => v
  | _ => 0
  end.

(** Every number that the read callback returns between [lo] and [hi] is a
    byte. *)
Definition reads_bytes (p : HexView.Project) (lo hi : Z) : Prop :=
  forall x b, lo <= x <= hi ->
    HexView.project_memory_read_func x p = Some (IntValue b) -> 0 <= b < 256.

(** ** Concrete states

    A 16-byte buffer at address 0 with two highlight regions, in three
    situations: right after loading, with the cursor on byte 5, and with
    bytes 0 to 5 selected. *)

Module Demo.

Definition regions : list Region.t :=
  [Region.init hex_view_data_color 0 2;
   Region.init hex_view_instruction_color 4 4].

Definition loaded : HexGraphicsObject unit :=
  {| start_addr := 0; num_bytes := 16; end_addr := 16;
     read_func := None; write_func := None; data := replicate 16 0;
     cursor := 0; cursor_nibble := None; selection_start := None;
     ascii_column_active := false; cursor_blink_state := true;
     highlighted_regions :=
       [Region.mk hex_view_data_color 0 2 true;
        Region.mk hex_view_instruction_color 4 4 false];
     _processing_cursor_update := false;
     has_focus := true; cursor_changed_emitted := 1 |}.

Definition idle : HexGraphicsObject unit :=
  {| start_addr := 0; num_bytes := 16; end_addr := 16;
     read_func := None; write_func := None; data := replicate 16 0;
     cursor := 5; cursor_nibble := None; selection_start := None;
     ascii_column_active := false; cursor_blink_state := true;
     highlighted_regions :=
       [Region.mk hex_view_data_color 0 2 false;
        Region.mk hex_view_instruction_color 4 4 true];
     _processing_cursor_update := false;
     has_focus := true; cursor_changed_emitted := 2 |}.

Definition selecting : HexGraphicsObject unit :=
  {| start_addr := 0; num_bytes := 16; end_addr := 16;
     read_func := None; write_func := None; data := replicate 16 0;
     cursor := 5; cursor_nibble := None; selection_start := Some 0;
     ascii_column_active := false; cursor_blink_state := true;
     highlighted_regions :=
       [Region.mk hex_view_data_color 0 2 true;
        Region.mk hex_view_instruction_color 4 4 true];
     _processing_cursor_update := false;
     has_focus := true; cursor_changed_emitted := 2 |}.

End Demo.

(** ** A concrete editor

    A 16-byte region at address 0 whose callbacks act on a log of writes:
    reading an address gives the last value written to it, or the unknown
    marker ['?'] if there is none. *)

Module DemoEdit.

Definition Memory : Type := list (Z * Z).

Fixpoint read (addr : Z) (m : Memory) : HexByteValue :=
  match m with
  | [] => StrValue "?"
  | (a, v) :: m => if a =? addr then IntValue v else read addr m
  end.

Definition write (addr value : Z) (m : Memory) : bool * Memory :=
  (true, (addr, value) :: m).

(** A read-only byte source: every write is refused. *)
Definition refuse (addr value : Z) (m : Memory) : bool * Memory := (false, m).

Definition editor (wf : Z -> Z -> Memory -> bool * Memory) (cur : Z)
    (nibble : option Z) : HexGraphicsObject Memory :=
  {| start_addr := 0; num_bytes := 16; end_addr := 16;
     read_func := Some read; write_func := Some wf; data := [];
     cursor := cur; cursor_nibble := nibble; selection_start := None;
     ascii_column_active := false; cursor_blink_state := true;
     highlighted_regions := []; _processing_cursor_update := false;
     has_focus := true; cursor_changed_emitted := 1 |}.

End DemoEdit.

(** * Properties *)

(** ** Address geometry *)

Section GeometryFacts.
Import Geometry.

Lemma shiftr4_div (x : Z) : Z.shiftr x 4 = x / 16.
Proof. rewrite Z.shiftr_div_pow2 by lia. reflexivity. Qed.

Lemma land15_mod (x : Z) : Z.land x 15 = x mod 16.
Proof. change 15 with (Z.ones 4). rewrite Z.land_ones by lia. reflexivity. Qed.

(** The row base is the start address rounded down to a multiple of 16. *)
Lemma row_base_round_down (s : Z) : row_base s = 16 * (s / 16).
Proof.
  unfold row_base.
  change (Z.lnot 15) with (Z.lnot (Z.ones 4)).
  rewrite <- Z.ldiff_land, Z.ldiff_ones_r by lia.
  rewrite Z.shiftl_mul_pow2, shiftr4_div by lia.
  change (2 ^ 4) with 16. lia.
Qed.

Lemma row_base_le (s : Z) : row_base s <= s < row_base s + 16.
Proof.
  rewrite row_base_round_down.
  pose proof (Z.mod_pos_bound s 16 ltac:(lia)).
  pose proof (Z.div_mod s 16 ltac:(lia)). lia.
Qed.

Lemma row_col_of_addr (s a : Z) :
  addr_to_row_col s a = ((a - row_base s) / 16, (a - row_base s) mod 16).
Proof.
  unfold addr_to_row_col. cbv zeta. fold (row_base s).
  by rewrite shiftr4_div, land15_mod.
Qed.

(** The round trip holds for every integer address. *)
Lemma row_col_roundtrip (s a : Z) :
  let '(row, col) := addr_to_row_col s a in row_col_to_addr s row col = a.
Proof.
  rewrite row_col_of_addr. unfold row_col_to_addr.
  pose proof (Z.div_mod (a - row_base s) 16 ltac:(lia)). lia.
Qed.

(** The column of any address is a column of the 16-column grid. *)
Lemma addr_to_row_col_col_range (s a : Z) :
  0 <= (addr_to_row_col s a).2 < 16.
Proof.
  rewrite row_col_of_addr. simpl.
  apply Z.mod_pos_bound. lia.
Qed.

(** Addresses at or above the start address are on row 0 or below. *)
Lemma addr_to_row_col_row_nonneg (s a : Z) :
  s <= a -> 0 <= (addr_to_row_col s a).1.
Proof.
  intros H. rewrite row_col_of_addr. simpl.
  apply Z.div_pos; [|lia]. pose proof (row_base_le s). lia.
Qed.

End GeometryFacts.

(** C1. For every address [a] with [start_addr <= a < end_addr], converting
    [a] to (row, column) with [addr_to_row_col] and back with
    [row_col_to_addr] gives [a] again; rows and columns are counted from
    [start_addr] rounded down to a multiple of 16, the row is not negative
    and the column is one of the 16 columns. *)
Theorem C1_row_col_roundtrip (start_addr end_addr a : Z) :
  start_addr <= a < end_addr ->
  let rc := Geometry.addr_to_row_col start_addr a in
  Geometry.row_col_to_addr start_addr rc.1 rc.2 = a
  /\ Geometry.row_base start_addr = 16 * (start_addr / 16)
  /\ rc = ((a - Geometry.row_base start_addr) / 16,
           (a - Geometry.row_base start_addr) mod 16)
  /\ 0 <= rc.1 /\ 0 <= rc.2 < 16.
Proof.
  intros [Hlo _] rc. subst rc.
  pose proof (row_col_roundtrip start_addr a) as Hrt.
  destruct (Geometry.addr_to_row_col start_addr a) as [row col] eqn:E.
  split; [exact Hrt|].
  split; [apply row_base_round_down|].
  split; [rewrite <- E; apply row_col_of_addr|].
  split.
  - change row with ((row, col).1). rewrite <- E.
    by apply addr_to_row_col_row_nonneg.
  - change col with ((row, col).2). rewrite <- E.
    apply addr_to_row_col_col_range.
Qed.

Lemma C1_row_col_roundtrip_witness :
  0x1003 <= 0x1017 < 0x1023
  /\ Geometry.addr_to_row_col 0x1003 0x1017 = (1, 7)
  /\ Geometry.row_col_to_addr 0x1003 1 7 = 0x1017.
Proof.
  assert (H : 0x1003 <= 0x1017 < 0x1023) by lia.
  destruct (C1_row_col_roundtrip 0x1003 0x1023 0x1017 H) as (Hrt & _).
  exact (conj H (conj eq_refl Hrt)).
Defined.

(** ** The patch layer *)

Import PatchManager AutoPatch PatchRegion.

Section SliceFacts.

Context {A : Type}.
Implicit Types l new : list A.

Lemma slice_from l (o : Z) :
  0 <= o -> slice l (Some o) None = drop (Z.to_nat o) l.
Proof.
  intros Ho. unfold slice, slice_index.
  change (default 0 (Some o)) with o.
  change (default (Z.of_nat (length l)) None) with (Z.of_nat (length l)).
  destruct (o <? 0) eqn:E1; [lia|].
  destruct (Z.of_nat (length l) <? 0) eqn:E2; [apply Z.ltb_lt in E2; lia|].
  rewrite Z.min_id.
  destruct (decide (o <= Z.of_nat (length l))).
  - rewrite Z.min_l by lia. apply take_ge. rewrite length_drop. lia.
  - rewrite Z.min_r by lia.
    rewrite !drop_ge by lia. by rewrite take_nil.
Qed.

Lemma slice_to l (h : Z) :
  0 <= h -> slice l (Some 0) (Some h) = take (Z.to_nat h) l.
Proof.
  intros Hh. unfold slice, slice_index.
  change (default 0 (Some 0)) with 0.
  change (default (Z.of_nat (length l)) (Some h)) with h.
  change (0 <? 0) with false. cbv iota.
  destruct (h <? 0) eqn:E; [lia|].
  rewrite (Z.min_l 0) by lia. rewrite Z.sub_0_r.
  change (Z.to_nat 0) with 0%nat. rewrite drop_0.
  destruct (decide (h <= Z.of_nat (length l))).
  - by rewrite Z.min_l by lia.
  - rewrite Z.min_r by lia. rewrite Nat2Z.id.
    rewrite !take_ge by lia. done.
Qed.

Lemma slice_assign_inside l (lo hi : Z) new :
  0 <= lo <= hi -> hi <= Z.of_nat (length l) ->
  slice_assign l lo hi new
  = take (Z.to_nat lo) l ++ new ++ drop (Z.to_nat hi) l.
Proof.
  intros Hlo Hhi. unfold slice_assign, slice_index.
  destruct (lo <? 0) eqn:E1; [lia|].
  destruct (hi <? 0) eqn:E2; [lia|].
  rewrite !Z.min_l by lia. by rewrite Z.max_r by lia.
Qed.

End SliceFacts.

Section PatchManagerFacts.

Implicit Types pm : PatchManager.t.
Implicit Types p q : Patch.t.

Lemma overlaps_spec (addr size : Z) p :
  overlaps addr size p = true
  <-> exists x, Patch.contains p x /\ addr <= x < addr + size.
Proof.
  unfold overlaps, Patch.contains. rewrite Z.ltb_lt. split.
  - intros H. exists (Z.max (Patch.addr p) addr). lia.
  - intros (x & ? & ?). lia.
Qed.

Lemma overlaps_one (a : Z) p :
  overlaps a 1 p = true <-> Patch.contains p a.
Proof.
  rewrite overlaps_spec. split.
  - intros (x & Hx & ?). by replace a with x by lia.
  - intros H. exists a. split; [done|lia].
Qed.

Lemma keyed_values_addr pm :
  keyed pm -> Patch.addr <$> (map_to_list pm).*2 = (map_to_list pm).*1.
Proof.
  intros Hk. rewrite <- list_fmap_compose.
  apply list_fmap_ext. intros i [k p] Hi. cbn.
  apply Hk. apply elem_of_map_to_list. by eapply list_elem_of_lookup_2.
Qed.

Lemma elem_of_get_all_patches pm (addr size : Z) q :
  keyed pm ->
  q ∈ get_all_patches pm addr size
  <-> holds pm q /\ overlaps addr size q = true.
Proof.
  intros Hk. unfold get_all_patches, holds.
  rewrite merge_sort_Permutation, list_elem_of_filter, list_elem_of_fmap.
  split.
  - intros (Hov & [k p] & -> & Hin). split; [|done].
    apply elem_of_map_to_list in Hin. cbn. by rewrite (Hk _ _ Hin).
  - intros (Hq & Hov). split; [done|].
    exists (Patch.addr q, q). split; [done|]. by apply elem_of_map_to_list.
Qed.

Lemma NoDup_get_all_patches pm (addr size : Z) :
  keyed pm -> NoDup (get_all_patches pm addr size).
Proof.
  intros Hk. unfold get_all_patches. rewrite merge_sort_Permutation.
  apply NoDup_filter. apply (NoDup_fmap_1 Patch.addr).
  rewrite keyed_values_addr by done. apply NoDup_fst_map_to_list.
Qed.

#[local] Instance addr_le_total : Total addr_le.
Proof. intros p q. unfold addr_le. lia. Qed.

Lemma Sorted_get_all_patches pm (addr size : Z) :
  Sorted addr_le (get_all_patches pm addr size).
Proof. apply (Sorted_merge_sort addr_le). Qed.

(** In a well-formed collection a patch is determined by any address it
    covers. *)
Lemma wf_contains_unique pm p q (x : Z) :
  wf pm -> holds pm p -> holds pm q ->
  Patch.contains p x -> Patch.contains q x -> p = q.
Proof.
  intros [Hk Hd] Hp Hq Hpx Hqx. unfold holds in *.
  destruct (decide (Patch.addr p = Patch.addr q)) as [E|E].
  - rewrite E in Hp. congruence.
  - exfalso. by apply (Hd _ _ _ _ Hp Hq E x).
Qed.

Lemma singleton_list (l : list Patch.t) p :
  NoDup l -> p ∈ l -> (forall q, q ∈ l -> q = p) -> l = [p].
Proof.
  intros Hnd Hp Hall. destruct l as [|a l]; [by apply elem_of_nil in Hp|].
  assert (a = p) as -> by (apply Hall; left).
  destruct l as [|b l]; [done|].
  assert (b = p) as -> by (apply Hall; right; left).
  apply NoDup_cons in Hnd as [Hnin _]. exfalso. apply Hnin. left.
Qed.

(** The query for a range that lies inside a stored patch returns that
    patch alone. *)
Lemma get_all_patches_inside pm p (addr size : Z) :
  wf pm -> holds pm p -> 0 < size ->
  Patch.addr p <= addr -> addr + size <= Patch.addr p + Patch.len p ->
  get_all_patches pm addr size = [p].
Proof.
  intros Hwf Hp Hs Hlo Hhi. pose proof Hwf as [Hk _].
  apply singleton_list.
  - by apply NoDup_get_all_patches.
  - apply elem_of_get_all_patches; [done|]. split; [done|].
    apply overlaps_spec. exists addr. unfold Patch.contains. lia.
  - intros q Hq. apply elem_of_get_all_patches in Hq as [Hq Hov]; [|done].
    apply overlaps_spec in Hov as (x & Hqx & Hx).
    symmetry. apply (wf_contains_unique pm p q x); try done.
    unfold Patch.contains. lia.
Qed.

(** The query for a single address returns the stored patch covering it
    first. *)
Lemma get_all_patches_at pm p (a : Z) :
  wf pm -> holds pm p -> Patch.contains p a ->
  exists rest, get_all_patches pm a 1 = p :: rest.
Proof.
  intros Hwf Hp Hpa. pose proof Hwf as [Hk _].
  destruct (get_all_patches pm a 1) as [|q rest] eqn:E.
  - assert (p ∈ get_all_patches pm a 1) as Hin
      by (apply elem_of_get_all_patches; [done|];
          split; [done|by apply overlaps_one]).
    rewrite E in Hin. by apply elem_of_nil in Hin.
  - exists rest. f_equal.
    assert (q ∈ get_all_patches pm a 1) as Hin by (rewrite E; left).
    apply elem_of_get_all_patches in Hin as [Hq Hov]; [|done].
    apply overlaps_one in Hov.
    by apply (wf_contains_unique pm q p a).
Qed.

Lemma get_all_patches_none pm (a : Z) :
  keyed pm ->
  (forall p, holds pm p -> ~ Patch.contains p a) ->
  get_all_patches pm a 1 = [].
Proof.
  intros Hk Hnone.
  destruct (get_all_patches pm a 1) as [|q rest] eqn:E; [done|].
  assert (q ∈ get_all_patches pm a 1) as Hin by (rewrite E; left).
  apply elem_of_get_all_patches in Hin as [Hq Hov]; [|done].
  apply overlaps_one in Hov. by destruct (Hnone q Hq).
Qed.

End PatchManagerFacts.

Section AutoPatchFacts.

Implicit Types pm : PatchManager.t.
Implicit Types p q : Patch.t.

Lemma wf_empty : wf ∅.
Proof. split; intros ?; intros; by simplify_map_eq. Qed.

Lemma wf_remove_patch pm (k : Z) : wf pm -> wf (remove_patch k pm).
Proof.
  intros [Hk Hd]. unfold remove_patch. split.
  - intros k' p' H. apply lookup_delete_Some in H as [_ H]. by apply Hk.
  - intros k1 k2 p1 p2 H1 H2.
    apply lookup_delete_Some in H1 as [_ H1].
    apply lookup_delete_Some in H2 as [_ H2]. by apply Hd.
Qed.

(** Filing a patch that shares no address with the patches filed under
    other addresses keeps the collection well formed. *)
Lemma wf_add_patch_obj pm p :
  wf pm ->
  (forall q x, holds pm q -> Patch.addr q <> Patch.addr p ->
               ~ (Patch.contains p x /\ Patch.contains q x)) ->
  wf (add_patch_obj p pm).
Proof.
  intros [Hk Hd] Hnew. unfold add_patch_obj. split.
  - intros k' p' H. apply lookup_insert_Some in H as [[<- <-]|[_ H]];
      [done|by apply Hk].
  - intros k1 k2 p1 p2 H1 H2 Hne x [Hx1 Hx2].
    apply lookup_insert_Some in H1 as [[<- <-]|[Hn1 H1]];
      apply lookup_insert_Some in H2 as [[<- <-]|[Hn2 H2]].
    + done.
    + apply (Hnew p2 x); [|by rewrite (Hk _ _ H2)|done].
      unfold holds. by rewrite (Hk _ _ H2).
    + apply (Hnew p1 x); [|by rewrite (Hk _ _ H1)|done].
      unfold holds. by rewrite (Hk _ _ H1).
    + by apply (Hd _ _ _ _ H1 H2 Hne x).
Qed.

(** Taking a patch out and filing a patch that covers part of its range
    instead keeps the collection well formed. *)
Lemma wf_shrink pm p p' :
  wf pm -> holds pm p ->
  (forall x, Patch.contains p' x -> Patch.contains p x) ->
  wf (add_patch_obj p' (remove_patch (Patch.addr p) pm)).
Proof.
  intros Hwf Hp Hsub. apply wf_add_patch_obj; [by apply wf_remove_patch|].
  intros q x Hq _ [Hx' Hxq]. unfold holds, remove_patch in Hq.
  apply lookup_delete_Some in Hq as [Hne Hq].
  destruct Hwf as [_ Hd].
  apply (Hd _ _ _ _ Hp Hq Hne x). split; [by apply Hsub|done].
Qed.

Lemma wf_singleton p : wf {[Patch.addr p := p]}.
Proof.
  change (wf (add_patch_obj p ∅)). apply wf_add_patch_obj; [apply wf_empty|].
  intros q x Hq. unfold holds in Hq. by simplify_map_eq.
Qed.

(** The four branches of the loop body cover every case: the
    [assert False] is never reached. *)
Lemma resolve_no_AssertionError (addr max_addr : Z) (new_bytes : list Z) p pm :
  resolve addr max_addr new_bytes p pm <> AssertionError.
Proof.
  unfold resolve.
  destruct (Patch.addr p <=? addr) eqn:E1,
    (Patch.addr p + Patch.len p - 1 >=? max_addr) eqn:E2,
    (Patch.addr p >=? addr) eqn:E3,
    (Patch.addr p + Patch.len p - 1 <=? max_addr) eqn:E4,
    (Patch.addr p + Patch.len p - 1 >? max_addr) eqn:E5,
    (Patch.addr p <? addr) eqn:E6; cbn; try done; lia.
Qed.

Lemma resolve_all_no_AssertionError (addr max_addr : Z) (new_bytes : list Z)
    (ps : list Patch.t) pm :
  resolve_all addr max_addr new_bytes ps pm <> AssertionError.
Proof.
  revert pm. induction ps as [|p ps IH]; intros pm; cbn; [done|].
  pose proof (resolve_no_AssertionError addr max_addr new_bytes p pm).
  destruct (resolve _ _ _ p pm); [done|apply IH|done].
Qed.

(** [auto_patch] always returns. *)
Lemma auto_patch_total (addr : Z) (new_bytes : list Z) pm :
  is_Some (auto_patch addr new_bytes pm).
Proof.
  unfold auto_patch. cbv zeta.
  match goal with
  | |- context [resolve_all ?a ?m ?nb ?ps ?pm] =>
      pose proof (resolve_all_no_AssertionError a m nb ps pm);
      destruct (resolve_all a m nb ps pm)
  end; [done| |done].
  by destruct (extend_adjacent _ _ _).
Qed.

Lemma shrunk_up_contains (m : Z) p (x : Z) :
  Patch.addr p <= m + 1 ->
  Patch.contains
    (Patch.set_addr (m + 1)
       (Patch.set_new_bytes
          (slice (Patch.new_bytes p) (Some (m + 1 - Patch.addr p)) None) p)) x ->
  Patch.contains p x.
Proof.
  intros Hle. unfold Patch.contains, Patch.len. cbn.
  rewrite slice_from by lia. rewrite length_drop. lia.
Qed.

Lemma shrunk_down_contains (a : Z) p (x : Z) :
  Patch.addr p <= a ->
  Patch.contains
    (Patch.set_new_bytes
       (slice (Patch.new_bytes p) (Some 0) (Some (a - Patch.addr p))) p) x ->
  Patch.contains p x.
Proof.
  intros Hle. unfold Patch.contains, Patch.len. cbn.
  rewrite slice_to by lia. rewrite length_take. lia.
Qed.

(** One round of the loop on a patch that intersects the target range. *)
Lemma resolve_Continue (addr size : Z) (new_bytes : list Z) p pm pm' :
  wf pm -> holds pm p -> overlaps addr size p = true ->
  resolve addr (addr + size - 1) new_bytes p pm = Continue pm' ->
  wf pm'
  /\ (forall q, holds pm q -> Patch.addr q <> Patch.addr p ->
                Patch.addr q < addr + size -> holds pm' q).
Proof.
  intros Hwf Hp Hov. apply overlaps_spec in Hov as (x0 & Hx0 & Hx0').
  unfold Patch.contains in Hx0. unfold resolve.
  destruct (_ && _); [done|].
  destruct (_ && _).
  { intros [= <-]. split; [by apply wf_remove_patch|].
    intros q Hq Hne _. unfold holds, remove_patch.
    by rewrite lookup_delete_ne. }
  destruct (_ && _).
  { intros [= <-]. cbv zeta. split.
    - apply wf_shrink; [done..|]. intros x.
      replace (addr + size - 1 + 1) with ((addr + size - 1) + 1) by lia.
      apply shrunk_up_contains. lia.
    - intros q Hq Hne Hlt. unfold holds, add_patch_obj, remove_patch. cbn.
      rewrite lookup_insert_ne by lia. by rewrite lookup_delete_ne. }
  destruct (_ && _) eqn:E4; [|done].
  apply andb_true_iff in E4 as [E4 _]. apply Z.ltb_lt in E4.
  intros [= <-]. cbv zeta. split.
  - apply (wf_shrink pm p); [done..|]. intros x.
    apply shrunk_down_contains. lia.
  - intros q Hq Hne Hlt. unfold holds, add_patch_obj, remove_patch. cbn.
    rewrite lookup_insert_ne by done. by rewrite lookup_delete_ne.
Qed.

(** The whole loop, when it runs to its end. *)
Lemma resolve_all_Continue (addr size : Z) (new_bytes : list Z)
    (ps : list Patch.t) pm pm' :
  wf pm -> NoDup ps ->
  Forall (fun q => holds pm q /\ overlaps addr size q = true) ps ->
  resolve_all addr (addr + size - 1) new_bytes ps pm = Continue pm' ->
  wf pm'.
Proof.
  revert pm. induction ps as [|p ps IH]; intros pm Hwf Hnd Hall; cbn.
  { by intros [= <-]. }
  apply NoDup_cons in Hnd as [Hnin Hnd].
  apply Forall_cons in Hall as [[Hp Hov] Hall].
  destruct (resolve _ _ _ p pm) as [|pm1|] eqn:E; [done| |done].
  destruct (resolve_Continue _ _ _ _ _ _ Hwf Hp Hov E) as [Hwf1 Hframe].
  apply IH; [done..|].
  apply Forall_forall. intros q Hq.
  rewrite Forall_forall in Hall. destruct (Hall q Hq) as [Hhq Hovq].
  split; [|done]. apply Hframe; [done| |].
  - intros Heq. apply Hnin. unfold holds in Hhq, Hp.
    rewrite Heq in Hhq. by replace p with q by congruence.
  - apply overlaps_spec in Hovq as (x & Hx & Hx').
    unfold Patch.contains in Hx. lia.
Qed.

Lemma get_all_patches_Forall pm (addr size : Z) :
  keyed pm ->
  Forall (fun q => holds pm q /\ overlaps addr size q = true)
    (get_all_patches pm addr size).
Proof.
  intros Hk. apply Forall_forall. intros q Hq.
  by apply elem_of_get_all_patches in Hq.
Qed.

(** After the loop the collection is still well formed. *)
Lemma resolved_wf (addr : Z) (new_bytes : list Z) pm pm' :
  wf pm ->
  resolve_all addr (addr + Z.of_nat (length new_bytes) - 1) new_bytes
    (get_all_patches pm addr (Z.of_nat (length new_bytes))) pm = Continue pm' ->
  wf pm'.
Proof.
  intros Hwf. pose proof Hwf as [Hk _].
  apply resolve_all_Continue;
    [done|by apply NoDup_get_all_patches|by apply get_all_patches_Forall].
Qed.

(** One round of the loop only touches the entry of its patch and the entry
    just past the target range. *)
Lemma resolve_frame (addr max_addr : Z) (new_bytes : list Z) p pm pm' :
  resolve addr max_addr new_bytes p pm = Continue pm' ->
  forall k, k <> Patch.addr p -> k <> max_addr + 1 -> pm' !! k = pm !! k.
Proof.
  unfold resolve.
  destruct (_ && _); [done|].
  destruct (_ && _).
  { intros [= <-] k Hk _. by apply lookup_delete_ne. }
  destruct (_ && _).
  { intros [= <-] k Hk Hm. cbv zeta. unfold add_patch_obj, remove_patch. cbn.
    rewrite lookup_insert_ne by done. by apply lookup_delete_ne. }
  destruct (_ && _); [|done].
  intros [= <-] k Hk _. cbv zeta. unfold add_patch_obj, remove_patch. cbn.
  rewrite lookup_insert_ne by done. by apply lookup_delete_ne.
Qed.

Lemma resolve_all_frame (addr max_addr : Z) (new_bytes : list Z)
    (ps : list Patch.t) pm pm' :
  resolve_all addr max_addr new_bytes ps pm = Continue pm' ->
  forall k, k ∉ Patch.addr <$> ps -> k <> max_addr + 1 ->
            pm' !! k = pm !! k.
Proof.
  revert pm. induction ps as [|p ps IH]; intros pm; cbn.
  { by intros [= <-]. }
  destruct (resolve _ _ _ p pm) as [|pm1|] eqn:E; [done| |done].
  intros Hrest k Hk Hm. apply not_elem_of_cons in Hk as [Hkp Hk].
  rewrite (IH _ Hrest k Hk Hm).
  by apply (resolve_frame _ _ _ _ _ _ E).
Qed.

(** A round on a patch that does not enclose the target range goes on to
    the next patch. *)
Lemma resolve_is_Continue (addr size : Z) (new_bytes : list Z) p pm :
  ~ encloses addr size p ->
  exists pm', resolve addr (addr + size - 1) new_bytes p pm = Continue pm'.
Proof.
  unfold encloses. intros Hne. unfold resolve.
  destruct (Patch.addr p <=? addr) eqn:E1,
    (Patch.addr p + Patch.len p - 1 >=? addr + size - 1) eqn:E2,
    (Patch.addr p >=? addr) eqn:E3,
    (Patch.addr p + Patch.len p - 1 <=? addr + size - 1) eqn:E4,
    (Patch.addr p + Patch.len p - 1 >? addr + size - 1) eqn:E5,
    (Patch.addr p <? addr) eqn:E6; cbn; eauto; lia.
Qed.

(** A round on a patch that starts below the target range and does not
    enclose it cuts the patch off in front of the range. *)
Lemma resolve_cut_before (addr size : Z) (new_bytes : list Z) p pm :
  Patch.addr p < addr -> ~ encloses addr size p ->
  resolve addr (addr + size - 1) new_bytes p pm
  = Continue (<[Patch.addr p := cut_before addr p]> pm).
Proof.
  unfold encloses. intros Hlt Hne. unfold resolve.
  destruct (Patch.addr p <=? addr) eqn:E1; [|lia].
  destruct (Patch.addr p + Patch.len p - 1 >=? addr + size - 1) eqn:E2;
    [lia|].
  destruct (Patch.addr p >=? addr) eqn:E3; [lia|].
  destruct (Patch.addr p <? addr) eqn:E6; [|lia].
  destruct (Patch.addr p + Patch.len p - 1 <=? addr + size - 1) eqn:E4;
    [|lia].
  cbn [andb]. cbv zeta.
  unfold add_patch_obj, remove_patch, cut_before. cbn.
  rewrite slice_to by lia. by rewrite insert_delete_eq.
Qed.

(** What the rest of the loop needs to know after one round. *)
Lemma resolve_step (addr size : Z) (new_bytes : list Z) p
    (ps : list Patch.t) pm pm1 :
  wf pm -> NoDup (p :: ps) ->
  Forall (fun q => holds pm q /\ overlaps addr size q = true) (p :: ps) ->
  resolve addr (addr + size - 1) new_bytes p pm = Continue pm1 ->
  wf pm1
  /\ Forall (fun q => holds pm1 q /\ overlaps addr size q = true) ps
  /\ Patch.addr p ∉ Patch.addr <$> ps.
Proof.
  intros Hwf Hnd Hall E.
  apply NoDup_cons in Hnd as [Hnin Hnd].
  apply Forall_cons in Hall as [[Hp Hov] Hall].
  destruct (resolve_Continue _ _ _ _ _ _ Hwf Hp Hov E) as [Hwf1 Hframe].
  rewrite Forall_forall in Hall.
  assert (Hdiff : forall q, q ∈ ps -> Patch.addr q <> Patch.addr p).
  { intros q Hq Heq. apply Hnin. destruct (Hall q Hq) as [Hhq _].
    unfold holds in Hhq, Hp. rewrite Heq in Hhq.
    by replace p with q by congruence. }
  split; [done|]. split.
  - apply Forall_forall. intros q Hq. destruct (Hall q Hq) as [Hhq Hovq].
    split; [|done]. apply Hframe; [done|by apply Hdiff|].
    apply overlaps_spec in Hovq as (x & Hx & Hx').
    unfold Patch.contains in Hx. lia.
  - intros Hin. apply list_elem_of_fmap in Hin as (q & Heq & Hq).
    by apply (Hdiff q Hq).
Qed.

Lemma resolve_all_is_Continue (addr size : Z) (new_bytes : list Z)
    (ps : list Patch.t) pm :
  Forall (fun q => ~ encloses addr size q) ps ->
  exists pm', resolve_all addr (addr + size - 1) new_bytes ps pm = Continue pm'.
Proof.
  revert pm. induction ps as [|p ps IH]; intros pm Hall; cbn; [eauto|].
  apply Forall_cons in Hall as [Hp Hall].
  destruct (resolve_is_Continue addr size new_bytes p pm Hp) as [pm1 ->].
  by apply IH.
Qed.

(** A patch of the query result that starts below the target range is, at
    the end of the loop, cut off in front of the range. *)
Lemma resolve_all_cut_before (addr size : Z) (new_bytes : list Z) p
    (ps : list Patch.t) pm pm' :
  0 <= size ->
  wf pm -> NoDup ps ->
  Forall (fun q => holds pm q /\ overlaps addr size q = true) ps ->
  resolve_all addr (addr + size - 1) new_bytes ps pm = Continue pm' ->
  p ∈ ps -> Patch.addr p < addr ->
  holds pm' (cut_before addr p).
Proof.
  intros Hsize. revert pm.
  induction ps as [|q ps IH]; intros pm Hwf Hnd Hall Hloop Hin Hlt.
  { by apply elem_of_nil in Hin. }
  cbn in Hloop.
  destruct (resolve _ _ _ q pm) as [|pm1|] eqn:E; [done| |done].
  destruct (resolve_step _ _ _ _ _ _ _ Hwf Hnd Hall E)
    as (Hwf1 & Hall1 & Hfresh).
  apply NoDup_cons in Hnd as [Hnin Hnd].
  apply elem_of_cons in Hin as [->|Hin]; [|by eapply IH].
  assert (Hne : ~ encloses addr size q).
  { intros Henc. unfold resolve, encloses in *.
    destruct (Patch.addr q <=? addr) eqn:E1; [|lia].
    destruct (Patch.addr q + Patch.len q - 1 >=? addr + size - 1) eqn:E2;
      [|lia].
    done. }
  rewrite (resolve_cut_before _ _ _ _ _ Hlt Hne) in E.
  injection E as <-. unfold holds. cbn.
  rewrite (resolve_all_frame _ _ _ _ _ _ Hloop); [|done|lia].
  apply lookup_insert_eq.
Qed.

(** With a non-empty write, the patch of the collection that covers the
    byte in front of the target range ends right there once the loop is
    through. *)
Lemma resolved_cut_before (addr : Z) (new_bytes : list Z) p pm pm' :
  wf pm -> new_bytes <> [] ->
  resolve_all addr (addr + Z.of_nat (length new_bytes) - 1) new_bytes
    (get_all_patches pm addr (Z.of_nat (length new_bytes))) pm = Continue pm' ->
  holds pm p -> Patch.contains p (addr - 1) ->
  holds pm' (cut_before addr p)
  /\ Patch.contains (cut_before addr p) (addr - 1)
  /\ Patch.addr (cut_before addr p) + Patch.len (cut_before addr p) = addr.
Proof.
  intros Hwf Hne Hloop Hp Hc. pose proof Hwf as [Hk _].
  assert (Hn : 0 < Z.of_nat (length new_bytes))
    by (destruct new_bytes; [done|cbn; lia]).
  unfold Patch.contains in Hc.
  assert (Hlen : Patch.len (cut_before addr p) = addr - Patch.addr p).
  { unfold Patch.len, cut_before in *. cbn. rewrite length_take. lia. }
  split; [|unfold Patch.contains; rewrite Hlen; cbn; lia].
  destruct (overlaps addr (Z.of_nat (length new_bytes)) p) eqn:Hov.
  - eapply resolve_all_cut_before; try exact Hloop; try done; try lia.
    + by apply NoDup_get_all_patches.
    + by apply get_all_patches_Forall.
    + by apply elem_of_get_all_patches.
  - assert (Hend : Patch.addr p + Patch.len p <= addr).
    { destruct (decide (Patch.addr p + Patch.len p <= addr)); [done|].
      assert (overlaps addr (Z.of_nat (length new_bytes)) p = true)
        as Hov'; [|congruence].
      apply overlaps_spec. exists addr. unfold Patch.contains. lia. }
    replace (cut_before addr p) with p.
    + unfold holds.
      rewrite (resolve_all_frame _ _ _ _ _ _ Hloop); [done| |lia].
      intros Hin. apply list_elem_of_fmap in Hin as (q & Heq & Hq).
      apply elem_of_get_all_patches in Hq as [Hq Hovq]; [|done].
      unfold holds in Hq, Hp. rewrite <- Heq in Hq.
      replace q with p in Hovq by congruence. congruence.
    + unfold cut_before, Patch.len in *. rewrite take_ge by lia.
      by destruct p.
Qed.

End AutoPatchFacts.

(** C2.  A write [auto_patch(addr, new_bytes)] with non-empty [new_bytes]
    whose target range lies inside a patch [p] of the collection: afterwards
    the collection has, under the same address, a patch of the same length
    (and comment) whose bytes at offsets [addr - p.addr] up to
    [addr - p.addr + len(new_bytes) - 1] are [new_bytes] and whose other
    bytes are those of [p]; the collection has the same addresses as before
    and every other patch is as it was. *)
Theorem C2_write_inside_patch (pm : PatchManager.t) (p : Patch.t) (addr : Z)
    (new_bytes : list Z) :
  wf pm -> holds pm p -> new_bytes <> [] ->
  Patch.addr p <= addr ->
  addr + Z.of_nat (length new_bytes) - 1 <= Patch.addr p + Patch.len p - 1 ->
  let o := Z.to_nat (addr - Patch.addr p) in
  let n := length new_bytes in
  exists pm' p',
    auto_patch addr new_bytes pm = Some pm'
    /\ holds pm' p'
    /\ Patch.addr p' = Patch.addr p
    /\ Patch.len p' = Patch.len p
    /\ Patch.comment p' = Patch.comment p
    /\ Patch.new_bytes p'
       = take o (Patch.new_bytes p) ++ new_bytes
           ++ drop (o + n) (Patch.new_bytes p)
    /\ (forall i, (i < n)%nat ->
          Patch.new_bytes p' !! (o + i)%nat = new_bytes !! i)
    /\ (forall j, (j < o \/ o + n <= j)%nat ->
          Patch.new_bytes p' !! j = Patch.new_bytes p !! j)
    /\ dom pm' = dom pm
    /\ (forall k, k <> Patch.addr p -> pm' !! k = pm !! k).
Proof.
  intros Hwf Hp Hne Hlo Hhi o n.
  assert (Hn : (0 < n)%nat) by (subst n; destruct new_bytes; [done|cbn; lia]).
  unfold Patch.len in Hhi.
  set (bytes' := take o (Patch.new_bytes p) ++ new_bytes
                   ++ drop (o + n) (Patch.new_bytes p)).
  exists (<[Patch.addr p := Patch.set_new_bytes bytes' p]> pm),
    (Patch.set_new_bytes bytes' p).
  assert (Hlen : length bytes' = length (Patch.new_bytes p)).
  { subst bytes'. rewrite !length_app, length_take, length_drop.
    subst o n. lia. }
  split; [|split; [|split; [|split; [|split; [|split; [|split;
    [|split; [|split]]]]]]]]; try done.
  - unfold auto_patch. cbv zeta.
    rewrite (get_all_patches_inside pm p);
      [|done|done|subst n; lia|done|unfold Patch.len; lia].
    cbn [resolve_all]. unfold resolve. unfold Patch.len.
    destruct (Patch.addr p <=? addr) eqn:E1; [|lia].
    destruct (_ >=? _) eqn:E2; [|lia]. cbn [andb].
    rewrite slice_assign_inside by lia. unfold update_in_place.
    do 3 f_equal. subst bytes' o n. do 3 f_equal. lia.
  - unfold holds. cbn. apply lookup_insert_eq.
  - unfold Patch.len. cbn. by rewrite Hlen.
  - intros i Hi. cbn. subst bytes'.
    rewrite lookup_app_r by (rewrite length_take; subst o; lia).
    rewrite length_take.
    replace (o + i - o `min` length (Patch.new_bytes p))%nat with i
      by (subst o; lia).
    by apply lookup_app_l.
  - intros j Hj. cbn. subst bytes'. destruct Hj as [Hj|Hj].
    + rewrite lookup_app_l by (rewrite length_take; subst o; lia).
      by apply lookup_take_lt.
    + rewrite lookup_app_r by (rewrite length_take; subst o; lia).
      rewrite lookup_app_r by (rewrite length_take; subst o n; lia).
      rewrite lookup_drop, length_take. f_equal. subst o n. lia.
  - apply dom_insert_lookup_L. by rewrite Hp.
  - intros k Hk. by apply lookup_insert_ne.
Qed.

Lemma C2_write_inside_patch_witness :
  let p := Patch.init 0x1010 [1; 2; 3; 4; 5; 6; 7; 8] in
  exists pm' p',
    auto_patch 0x1012 [0xAA; 0xBB] {[0x1010 := p]} = Some pm'
    /\ holds pm' p'
    /\ Patch.addr p' = 0x1010
    /\ Patch.new_bytes p' = [1; 2; 0xAA; 0xBB; 5; 6; 7; 8]
    /\ dom pm' = dom ({[0x1010 := p]} : PatchManager.t).
Proof.
  intros p.
  destruct (C2_write_inside_patch {[0x1010 := p]} p 0x1012 [0xAA; 0xBB])
    as (pm' & p' & H1 & H2 & H3 & _ & _ & H6 & _ & _ & H9 & _).
  - apply (wf_singleton p).
  - unfold holds. apply lookup_singleton_eq.
  - discriminate.
  - simpl. lia.
  - unfold Patch.len. simpl. lia.
  - exists pm', p'. exact (conj H1 (conj H2 (conj H3 (conj H6 H9)))).
Defined.

(** C3 (as the code has it).  A write [auto_patch(addr, new_bytes)] with
    [addr > 0] in which no patch intersecting the target range encloses it,
    so that the loop over the intersecting patches runs to its end and
    leaves a collection [pm'].  If a patch [p] of [pm'] covers the byte at
    [addr - 1], the result is [pm'] with [new_bytes] appended to the byte
    buffer of [p], and no address is added to the collection; only if no
    patch of [pm'] covers [addr - 1] is the result [pm'] with the new patch
    [Patch(addr, new_bytes)] filed under [addr].  For a non-empty write, a
    patch of the original collection that covers [addr - 1] is in [pm'] cut
    off in front of [addr], and still covers [addr - 1]. *)
Theorem C3_adjacent_write_extends (pm : PatchManager.t) (addr : Z)
    (new_bytes : list Z) :
  let n := Z.of_nat (length new_bytes) in
  wf pm -> addr > 0 ->
  (forall q, holds pm q -> overlaps addr n q = true -> ~ encloses addr n q) ->
  exists pm',
    resolve_all addr (addr + n - 1) new_bytes (get_all_patches pm addr n) pm
    = Continue pm'
    /\ (forall p, holds pm' p -> Patch.contains p (addr - 1) ->
          let extended :=
            <[Patch.addr p :=
                Patch.set_new_bytes (Patch.new_bytes p ++ new_bytes) p]> pm' in
          auto_patch addr new_bytes pm = Some extended
          /\ dom extended = dom pm'
          /\ (forall k, k <> Patch.addr p -> extended !! k = pm' !! k))
    /\ ((forall p, holds pm' p -> ~ Patch.contains p (addr - 1)) ->
          auto_patch addr new_bytes pm
          = Some (<[addr := Patch.mk addr new_bytes None]> pm'))
    /\ (new_bytes <> [] ->
        forall p, holds pm p -> Patch.contains p (addr - 1) ->
          holds pm' (cut_before addr p)
          /\ Patch.contains (cut_before addr p) (addr - 1)).
Proof.
  intros n Hwf Hpos Hnone. pose proof Hwf as [Hk _].
  destruct (resolve_all_is_Continue addr n new_bytes
              (get_all_patches pm addr n) pm) as [pm' Hloop].
  { apply Forall_forall. intros q Hq.
    apply elem_of_get_all_patches in Hq as [Hq Hov]; [|done].
    by apply Hnone. }
  exists pm'. split; [done|].
  pose proof (resolved_wf _ _ _ _ Hwf Hloop) as Hwf'.
  unfold auto_patch. cbv zeta. fold n. rewrite Hloop. unfold extend_adjacent.
  destruct (addr >? 0) eqn:E; [|lia]. split; [|split].
  - intros p Hp Hc.
    destruct (get_all_patches_at pm' p (addr - 1) Hwf' Hp Hc) as [rest ->].
    split; [done|]. split.
    + apply dom_insert_lookup_L. by rewrite Hp.
    + intros k Hk0. by apply lookup_insert_ne.
  - intros Hno. destruct Hwf' as [Hk' _].
    by rewrite (get_all_patches_none pm' (addr - 1) Hk' Hno).
  - intros Hne p Hp Hc.
    destruct (resolved_cut_before addr new_bytes p pm pm' Hwf Hne Hloop Hp Hc)
      as (H1 & H2 & _).
    done.
Qed.

Lemma C3_adjacent_write_extends_witness :
  let p := Patch.init 0x1010 [1; 2; 3; 4] in
  let pm : PatchManager.t := {[0x1010 := p]} in
  auto_patch 0x1014 [5; 6; 7; 8] pm
  = Some {[0x1010 := Patch.init 0x1010 [1; 2; 3; 4; 5; 6; 7; 8]]}
  /\ auto_patch 0x1012 [5; 6; 7; 8] pm
     = Some {[0x1010 := Patch.init 0x1010 [1; 2; 5; 6; 7; 8]]}
  /\ auto_patch 0x1020 [5; 6; 7; 8] pm
     = Some (<[0x1020 := Patch.init 0x1020 [5; 6; 7; 8]]> pm).
Proof.
  intros p pm.
  assert (Hwf : wf pm) by apply (wf_singleton p).
  assert (Hp : holds pm p) by (unfold holds; apply lookup_singleton_eq).
  assert (Hnone : forall a, 0x1010 < a ->
            forall q, holds pm q -> overlaps a 4 q = true ->
                      ~ encloses a 4 q).
  { intros a Ha q Hq _. unfold holds, pm in Hq.
    apply lookup_singleton_Some in Hq as [_ <-].
    unfold encloses, Patch.len. simpl. lia. }
  destruct (C3_adjacent_write_extends pm 0x1014 [5; 6; 7; 8] Hwf)
    as (pm1 & Hl1 & Hext1 & _); [lia|apply Hnone; lia|].
  destruct (C3_adjacent_write_extends pm 0x1012 [5; 6; 7; 8] Hwf)
    as (pm2 & Hl2 & Hext2 & _ & Hcut2); [lia|apply Hnone; lia|].
  destruct (C3_adjacent_write_extends pm 0x1020 [5; 6; 7; 8] Hwf)
    as (pm3 & Hl3 & _ & Hnew3 & _); [lia|apply Hnone; lia|].
  assert (pm1 = pm) as ->
    by (enough (Continue pm1 = Continue pm) by congruence;
        rewrite <- Hl1; by vm_compute).
  assert (pm3 = pm) as ->
    by (enough (Continue pm3 = Continue pm) by congruence;
        rewrite <- Hl3; by vm_compute).
  split; [|split].
  - destruct (Hext1 p) as (-> & _).
    + exact Hp.
    + unfold Patch.contains, Patch.len. simpl. lia.
    + reflexivity.
  - destruct (Hcut2 ltac:(discriminate) p Hp) as [Hh Hc].
    { unfold Patch.contains, Patch.len. simpl. lia. }
    destruct (Hext2 _ Hh Hc) as (-> & _).
    assert (pm2 = {[0x1010 := Patch.init 0x1010 [1; 2]]}) as ->
      by (enough (Continue pm2
                  = Continue {[0x1010 := Patch.init 0x1010 [1; 2]]})
            by congruence;
          rewrite <- Hl2; by vm_compute).
    reflexivity.
  - rewrite Hnew3; [reflexivity|]. intros q Hq. unfold holds in Hq.
    apply lookup_singleton_Some in Hq as [_ <-].
    unfold Patch.contains, Patch.len. simpl. lia.
Defined.

(** C3 as stated fails when a patch encloses the target range: the loop then
    returns from its first branch.  With a patch of eight bytes at 0x1010, a
    write of two bytes at 0x1012 is spliced into the patch, which covers the
    byte at 0x1011 before and after; its buffer keeps its length, nothing
    is appended to it. *)
Lemma C3_enclosing_patch_is_not_extended :
  let p := Patch.init 0x1010 [1; 2; 3; 4; 5; 6; 7; 8] in
  let pm : PatchManager.t := {[0x1010 := p]} in
  wf pm /\ holds pm p /\ Patch.contains p (0x1012 - 1)
  /\ get_all_patches pm 0x1012 2 = [p]
  /\ auto_patch 0x1012 [0xAA; 0xBB] pm
     = Some {[0x1010 := Patch.init 0x1010 [1; 2; 0xAA; 0xBB; 5; 6; 7; 8]]}
  /\ auto_patch 0x1012 [0xAA; 0xBB] pm
     <> Some (<[0x1010 :=
                  Patch.set_new_bytes (Patch.new_bytes p ++ [0xAA; 0xBB]) p]>
                pm)
  /\ auto_patch 0x1012 [0xAA; 0xBB] pm
     <> Some (<[0x1010 :=
                  Patch.init 0x1010
                    ([1; 2; 0xAA; 0xBB; 5; 6; 7; 8] ++ [0xAA; 0xBB])]> pm).
Proof.
  intros p pm.
  split; [apply (wf_singleton p)|].
  split; [unfold holds; apply lookup_singleton_eq|].
  split; [unfold Patch.contains, Patch.len; simpl; lia|].
  split; [by vm_compute|].
  split; [by vm_compute|].
  split; intros H; vm_compute in H; discriminate H.
Qed.

Section SplitMerge.

Implicit Types pm : PatchManager.t.

Lemma can_split_spec (cursor : Z) (patch : Patch.t) :
  can_split cursor patch = true
  <-> Patch.addr patch < cursor < Patch.addr patch + Patch.len patch.
Proof. unfold can_split. rewrite andb_true_iff. lia. Qed.

Lemma can_merge_with_spec (patch other : Patch.t) :
  can_merge_with patch other = true
  <-> Patch.addr other = Patch.addr patch + Patch.len patch.
Proof. unfold can_merge_with. apply Z.eqb_eq. Qed.

Lemma split_eq (c : Z) (p : Patch.t) pm :
  Patch.addr p < c < Patch.addr p + Patch.len p ->
  let o := Z.to_nat (c - Patch.addr p) in
  split c p pm
  = <[c := Patch.mk c (drop o (Patch.new_bytes p)) (Patch.comment p)]>
      (<[Patch.addr p :=
           Patch.mk (Patch.addr p) (take o (Patch.new_bytes p))
             (Patch.comment p)]> pm).
Proof.
  intros Hc o. unfold split.
  rewrite (proj2 (can_split_spec c p) Hc). cbv zeta.
  rewrite slice_from, slice_to by lia. reflexivity.
Qed.

Lemma merge_with_rejected (patch other : Patch.t) pm :
  Patch.addr other <> Patch.addr patch + Patch.len patch ->
  merge_with patch other pm = pm.
Proof.
  intros H. unfold merge_with.
  destruct (can_merge_with patch other) eqn:E; [|done].
  by apply can_merge_with_spec in E.
Qed.

Lemma merge_with_eq (patch other : Patch.t) pm :
  Patch.addr other = Patch.addr patch + Patch.len patch ->
  merge_with patch other pm
  = delete (Patch.addr other)
      (<[Patch.addr patch :=
           Patch.set_new_bytes
             (Patch.new_bytes patch ++ Patch.new_bytes other) patch]> pm).
Proof.
  intros H. unfold merge_with.
  by rewrite (proj2 (can_merge_with_spec patch other) H).
Qed.

End SplitMerge.

(** C4.  Splitting a patch [p] of the collection at an address [c] strictly
    inside it leaves two patches in place of [p]: one at [p.addr] with the
    first [c - p.addr] bytes and one at [c] with the remaining bytes.  Their
    ranges are adjacent and together are the range of [p], their buffers
    concatenate to the bytes of [p], and one address, [c], is added to the
    collection.  The two halves can be merged, and merging them gives [p]
    back and removes the patch at [c], so that the collection is as before
    the split when nothing was filed under [c].  Merging two patches that
    are not exactly adjacent changes nothing. *)
Theorem C4_split_then_merge (pm : PatchManager.t) (p : Patch.t) (c : Z) :
  holds pm p ->
  Patch.addr p < c < Patch.addr p + Patch.len p ->
  let o := Z.to_nat (c - Patch.addr p) in
  let left := Patch.mk (Patch.addr p) (take o (Patch.new_bytes p))
                (Patch.comment p) in
  let right := Patch.mk c (drop o (Patch.new_bytes p)) (Patch.comment p) in
  let pm' := split c p pm in
  holds pm' left /\ holds pm' right
  /\ (forall k, k <> Patch.addr p -> k <> c -> pm' !! k = pm !! k)
  /\ dom pm' = {[c]} ∪ dom pm
  /\ Patch.len left = c - Patch.addr p
  /\ Patch.addr left + Patch.len left = Patch.addr right
  /\ Patch.addr right + Patch.len right = Patch.addr p + Patch.len p
  /\ Patch.new_bytes left ++ Patch.new_bytes right = Patch.new_bytes p
  /\ can_merge_with left right = true
  /\ merge_with left right pm' = delete c pm
  /\ holds (merge_with left right pm') p
  /\ merge_with left right pm' !! c = None
  /\ (pm !! c = None -> merge_with left right pm' = pm)
  /\ (forall q1 q2 pm0,
        Patch.addr q2 <> Patch.addr q1 + Patch.len q1 ->
        can_merge_with q1 q2 = false /\ merge_with q1 q2 pm0 = pm0).
Proof.
  intros Hp Hc o left right pm'.
  assert (Hpm' : pm' = <[c := right]> (<[Patch.addr p := left]> pm))
    by (apply split_eq; done).
  assert (Hlen : Patch.len left = c - Patch.addr p).
  { unfold Patch.len in *. cbn. rewrite length_take. subst o. lia. }
  assert (Hlenr : Patch.len right = Patch.addr p + Patch.len p - c).
  { unfold Patch.len in *. cbn. rewrite length_drop. subst o. lia. }
  assert (Hadj : Patch.addr right = Patch.addr left + Patch.len left)
    by (rewrite Hlen; cbn; lia).
  assert (Hcat : Patch.new_bytes left ++ Patch.new_bytes right
                 = Patch.new_bytes p) by apply take_drop.
  assert (Hmerge : merge_with left right pm' = delete c pm).
  { rewrite (merge_with_eq left right pm' Hadj), Hpm'. cbn [Patch.addr left right].
    unfold Patch.set_new_bytes. rewrite Hcat. cbn [Patch.addr Patch.comment left].
    replace (Patch.mk (Patch.addr p) (Patch.new_bytes p) (Patch.comment p))
      with p by (by destruct p).
    rewrite insert_insert_ne by lia. rewrite insert_insert_eq.
    rewrite delete_insert_eq. f_equal. by apply insert_id. }
  split; [|split; [|split; [|split; [|split; [|split; [|split; [|split;
    [|split; [|split; [|split; [|split; [|split]]]]]]]]]]]].
  - unfold holds. rewrite Hpm'. cbn.
    rewrite lookup_insert_ne by lia. apply lookup_insert_eq.
  - unfold holds. rewrite Hpm'. cbn. apply lookup_insert_eq.
  - intros k Hk1 Hk2. rewrite Hpm'. by rewrite !lookup_insert_ne.
  - rewrite Hpm'. rewrite dom_insert_L.
    rewrite (dom_insert_lookup_L pm (Patch.addr p)); [done|by rewrite Hp].
  - exact Hlen.
  - by rewrite Hadj.
  - rewrite Hlenr. cbn. lia.
  - exact Hcat.
  - by apply can_merge_with_spec.
  - exact Hmerge.
  - rewrite Hmerge. unfold holds. rewrite lookup_delete_ne by lia. exact Hp.
  - rewrite Hmerge. apply lookup_delete_eq.
  - intros Hnone. rewrite Hmerge. by apply delete_id.
  - intros q1 q2 pm0 Hna. split; [|by apply merge_with_rejected].
    destruct (can_merge_with q1 q2) eqn:E; [|done].
    by apply can_merge_with_spec in E.
Qed.

Lemma C4_split_then_merge_witness :
  let p := Patch.init 0x1010 [1; 2; 3; 4; 5; 6; 7; 8] in
  let left := Patch.init 0x1010 [1; 2; 3; 4] in
  let right := Patch.init 0x1014 [5; 6; 7; 8] in
  let pm : PatchManager.t := {[0x1010 := p]} in
  holds (split 0x1014 p pm) left /\ holds (split 0x1014 p pm) right
  /\ dom (split 0x1014 p pm) = {[0x1014]} ∪ dom pm
  /\ merge_with left right (split 0x1014 p pm) = pm.
Proof.
  intros p left right pm.
  destruct (C4_split_then_merge pm p 0x1014)
    as (H1 & H2 & _ & H4 & _ & _ & _ & _ & _ & _ & _ & _ & H13 & _).
  - unfold holds. apply lookup_singleton_eq.
  - unfold Patch.len. simpl. lia.
  - refine (conj H1 (conj H2 (conj H4 (H13 _)))).
    apply lookup_singleton_ne. simpl. lia.
Defined.

(** ** The cursor and selection state machine *)

(** The three states of [Demo] are what the methods produce, starting from
    the constructor. *)
Example Demo_loaded_reached :
  set_highlight_regions Demo.regions
    <$> set_data (replicate 16 0) 0 None (init true)
  = Some Demo.loaded.
Proof. reflexivity. Qed.

Example Demo_idle_reached : set_cursor 5 None None Demo.loaded = Demo.idle.
Proof. reflexivity. Qed.

Example Demo_selecting_reached :
  set_cursor 5 None None (begin_selection Demo.loaded) = Demo.selecting.
Proof. reflexivity. Qed.

(** The editor of [DemoEdit] is what [set_data_callback] produces. *)
Example DemoEdit_editor_reached :
  set_data_callback DemoEdit.write DemoEdit.read 0 16 (init true)
  = Some (DemoEdit.editor DemoEdit.write 0 None).
Proof. reflexivity. Qed.

Section CursorFacts.

Context {World : Type}.
Implicit Types self : HexGraphicsObject World.

Lemma set_cursor_out_of_bounds self addr ascii_column nibble :
  ~ (start_addr self <= addr < end_addr self) ->
  set_cursor addr ascii_column nibble self = self.
Proof.
  intros H. unfold set_cursor.
  destruct (addr >=? end_addr self) eqn:E1; [done|].
  destruct (addr <? start_addr self) eqn:E2; [done|]. lia.
Qed.

Lemma set_cursor_busy self addr ascii_column nibble :
  _processing_cursor_update self = true ->
  set_cursor addr ascii_column nibble self = self.
Proof.
  intros H. unfold set_cursor. rewrite H.
  by destruct (_ || _).
Qed.

Lemma set_cursor_accepted_eq self addr ascii_column nibble :
  accepted self addr ->
  set_cursor addr ascii_column nibble self =
    let s1 := set_processing_cursor_update true self in
    let s2 := match ascii_column with
              | Some b => set_ascii_column_active b s1
              | None => s1
              end in
    let s3 := if has_focus s2 then restart_cursor_blink_timer s2 else s2 in
    let s4 := emit_cursor_changed
                (set_cursor_nibble nibble (set_cursor_attr addr s3)) in
    set_processing_cursor_update false
      (if negb (cursor self =? addr)
       then update_active_highlight_regions s4 else s4).
Proof.
  intros [Hb Hp]. unfold set_cursor. rewrite Hp.
  destruct (addr >=? end_addr self) eqn:E1; [lia|].
  destruct (addr <? start_addr self) eqn:E2; [lia|].
  cbn [orb].
  destruct ascii_column;
    cbn [has_focus set_ascii_column_active set_processing_cursor_update];
    destruct (has_focus self); reflexivity.
Qed.

Lemma update_active_eq self :
  update_active_highlight_regions self
  = set_highlighted_regions
      (map (update_region_active (active_range self).1
              (active_range self).2)
         (highlighted_regions self)) self.
Proof.
  unfold update_active_highlight_regions.
  by destruct (active_range self).
Qed.

(** What an accepted move does to each attribute. *)
Lemma set_cursor_accepted self addr ascii_column nibble :
  accepted self addr ->
  let s := set_cursor addr ascii_column nibble self in
  cursor s = addr /\ cursor_nibble s = nibble
  /\ start_addr s = start_addr self /\ end_addr s = end_addr self
  /\ selection_start s = selection_start self
  /\ _processing_cursor_update s = false
  /\ cursor_changed_emitted s = S (cursor_changed_emitted self)
  /\ write_func s = write_func self /\ read_func s = read_func self.
Proof.
  intros Ha. rewrite (set_cursor_accepted_eq _ _ _ _ Ha). cbv zeta.
  rewrite update_active_eq.
  destruct (negb (cursor self =? addr)), ascii_column;
    cbn [has_focus set_ascii_column_active set_processing_cursor_update];
    destruct (has_focus self); repeat split; reflexivity.
Qed.

Lemma set_cursor_cases self addr ascii_column nibble :
  (accepted self addr)
  \/ (set_cursor addr ascii_column nibble self = self).
Proof.
  destruct (decide (start_addr self <= addr < end_addr self)) as [Hb|Hb];
    [|right; by apply set_cursor_out_of_bounds].
  destruct (_processing_cursor_update self) eqn:Hp;
    [right; by apply set_cursor_busy|].
  by left.
Qed.

Lemma set_cursor_in_bounds self addr ascii_column nibble :
  in_bounds self -> in_bounds (set_cursor addr ascii_column nibble self).
Proof.
  intros Hin.
  destruct (set_cursor_cases self addr ascii_column nibble) as [Ha | ->];
    [|done].
  destruct (set_cursor_accepted self addr ascii_column nibble Ha)
    as (Hc & _ & Hs & He & _).
  unfold in_bounds. rewrite Hc, Hs, He. apply Ha.
Qed.

Lemma set_cursor_bounds_frame self addr ascii_column nibble :
  start_addr (set_cursor addr ascii_column nibble self) = start_addr self
  /\ end_addr (set_cursor addr ascii_column nibble self) = end_addr self
  /\ write_func (set_cursor addr ascii_column nibble self) = write_func self
  /\ read_func (set_cursor addr ascii_column nibble self) = read_func self.
Proof.
  destruct (set_cursor_cases self addr ascii_column nibble) as [Ha | ->];
    [|done].
  destruct (set_cursor_accepted self addr ascii_column nibble Ha)
    as (_ & _ & Hs & He & _ & _ & _ & Hw & Hr).
  done.
Qed.

End CursorFacts.

Section ActiveFlags.

Context {World : Type}.
Implicit Types self : HexGraphicsObject World.

Lemma update_region_active_spec (minaddr maxaddr : Z) (region : Region.t) :
  let region' := update_region_active minaddr maxaddr region in
  Region.active region' = overlap_test minaddr maxaddr region
  /\ Region.addr region' = Region.addr region
  /\ Region.size region' = Region.size region
  /\ Region.color region' = Region.color region.
Proof.
  unfold update_region_active, overlap_test. cbn.
  repeat split.
  destruct (Region.addr region >? maxaddr) eqn:E1,
    (minaddr >? Region.addr region + Region.size region - 1) eqn:E2,
    (Region.addr region <=? maxaddr) eqn:E3,
    (minaddr <=? Region.addr region + Region.size region - 1) eqn:E4;
    try reflexivity; lia.
Qed.












Lemma set_highlight_regions_regions self regions :
  highlighted_regions (set_highlight_regions regions self)
  = map (update_region_active (active_range self).1 (active_range self).2)
      regions
  /\ active_range (set_highlight_regions regions self) = active_range self.
Proof.
  unfold set_highlight_regions. rewrite update_active_eq. done.
Qed.

End ActiveFlags.




Section LayoutFacts.

(** The float nearest to [a] lies between the powers of two around [a]. *)
Lemma nearest_double_bounds (a : Z) :
  0 < a ->
  2 ^ Z.log2 a <= Geometry.nearest_double a <= 2 ^ (Z.log2 a + 1).
Proof.
  intros Ha. destruct (Z.log2_spec a Ha) as [Hlo Hhi].
  replace (Z.succ (Z.log2 a)) with (Z.log2 a + 1) in Hhi by lia.
  unfold Geometry.nearest_double. cbv zeta.
  destruct (Z.log2 a - 52 <=? 0) eqn:E; [lia|]. apply Z.leb_gt in E.
  set (k := Z.log2 a - 52) in *.
  rewrite Z.shiftr_div_pow2 by lia.
  set (P := 2 ^ k). assert (HP : 0 < P) by (apply Z.pow_pos_nonneg; lia).
  assert (H52 : 2 ^ Z.log2 a = 2 ^ 52 * P).
  { subst P. rewrite <- Z.pow_add_r by lia. f_equal. lia. }
  assert (H53 : 2 ^ (Z.log2 a + 1) = 2 ^ 53 * P).
  { subst P. rewrite <- Z.pow_add_r by lia. f_equal. lia. }
  assert (Hq : 2 ^ 52 <= a / P < 2 ^ 53).
  { split.
    - apply Z.div_le_lower_bound; lia.
    - apply Z.div_lt_upper_bound; lia. }
  set (q := a / P) in *.
  match goal with
  | |- _ <= Z.shiftl ?q' k <= _ =>
      assert (Hq' : 2 ^ 52 <= q' <= 2 ^ 53) by (destruct (_ || _); lia);
      generalize dependent q'
  end.
  intros q' Hq'. rewrite Z.shiftl_mul_pow2 by lia. fold P.
  rewrite H52, H53. split; apply Z.mul_le_mono_nonneg_r; lia.
Qed.

(** The row count is defined for every region of fewer than [2^1024]
    bytes, and is not defined from [2^1028] bytes on. *)
Lemma num_rows_is_Some (s n : Z) :
  n < 2 ^ 1024 -> is_Some (Geometry.num_rows s n).
Proof.
  intros Hn. unfold Geometry.num_rows.
  destruct (n >? 0) eqn:E; [|done]. apply Z.gtb_lt in E.
  rewrite land15_mod.
  pose proof (Z.mod_pos_bound s 16 ltac:(lia)) as Hm.
  set (a := n + s mod 16 + 15).
  assert (Ha : 0 < a < 2 ^ 1025).
  { subst a. change (2 ^ 1025) with (2 * 2 ^ 1024).
    assert (30 < 2 ^ 1024) by (apply Z.ltb_lt; reflexivity). lia. }
  unfold Geometry.int_div16. cbv zeta.
  destruct (nearest_double_bounds a ltac:(lia)) as [_ Hup].
  assert (Hlog : Z.log2 a + 1 <= 1025)
    by (assert (Z.log2 a < 1025) by (apply Z.log2_lt_pow2; lia); lia).
  assert (Hlt : Geometry.nearest_double a < 2 ^ 1028).
  { eapply Z.le_lt_trans; [exact Hup|].
    eapply Z.le_lt_trans; [apply Z.pow_le_mono_r; [lia|exact Hlog]|].
    apply Z.pow_lt_mono_r; lia. }
  apply Z.ltb_lt in Hlt. by rewrite Hlt.
Qed.

Lemma num_rows_overflow (s n : Z) :
  2 ^ 1028 <= n -> Geometry.num_rows s n = None.
Proof.
  intros Hn.
  assert (Hpos : 0 < 2 ^ 1028) by (apply Z.pow_pos_nonneg; lia).
  unfold Geometry.num_rows.
  destruct (n >? 0) eqn:E;
    [|rewrite Z.gtb_ltb in E; apply Z.ltb_ge in E; lia].
  rewrite land15_mod.
  pose proof (Z.mod_pos_bound s 16 ltac:(lia)) as Hm.
  set (a := n + s mod 16 + 15).
  assert (Ha : 2 ^ 1028 <= a) by (subst a; lia).
  unfold Geometry.int_div16. cbv zeta.
  destruct (nearest_double_bounds a ltac:(lia)) as [Hlow _].
  assert (Hlog : 1028 <= Z.log2 a) by (apply Z.log2_le_pow2; lia).
  assert (Hge : 2 ^ 1028 <= Geometry.nearest_double a).
  { eapply Z.le_trans; [|exact Hlow]. apply Z.pow_le_mono_r; lia. }
  apply Z.ltb_ge in Hge. by rewrite Hge.
Qed.

End LayoutFacts.

Section CursorBounds.

Context {World : Type}.
Implicit Types self : HexGraphicsObject World.

Lemma _update_layout_ok self :
  num_bytes self < 2 ^ 1024 -> _update_layout self = Some self.
Proof.
  intros Hn. unfold _update_layout.
  by destruct (num_rows_is_Some (start_addr self) (num_bytes self) Hn)
    as [rows ->].
Qed.

Lemma _update_layout_overflow self :
  2 ^ 1028 <= num_bytes self -> _update_layout self = None.
Proof.
  intros Hn. unfold _update_layout. by rewrite num_rows_overflow.
Qed.

Lemma selection_in_bounds self :
  in_bounds self ->
  in_bounds (begin_selection self) /\ in_bounds (clear_selection self).
Proof. done. Qed.

Lemma set_highlight_regions_in_bounds self regions :
  in_bounds self -> in_bounds (set_highlight_regions regions self).
Proof.
  unfold set_highlight_regions. by rewrite update_active_eq.
Qed.

Lemma mouseDoubleClickEvent_in_bounds self :
  in_bounds self -> in_bounds (mouseDoubleClickEvent self).
Proof.
  intros H. unfold mouseDoubleClickEvent.
  destruct (double_click_candidates self) as [|region ?]; [done|].
  apply set_cursor_in_bounds.
  by apply selection_in_bounds, set_cursor_in_bounds.
Qed.

Lemma keyPressEvent_movement_in_bounds self k shift :
  in_bounds self -> in_bounds (keyPressEvent_movement k shift self).
Proof.
  intros H. unfold keyPressEvent_movement.
  apply set_cursor_in_bounds.
  destruct shift; [destruct (selection_start self)|]; done.
Qed.

Lemma _set_byte_value_in_bounds self value w s' w' :
  in_bounds self -> _set_byte_value value self w = Some (s', w') ->
  in_bounds s'.
Proof.
  intros H. unfold _set_byte_value.
  destruct (write_func self) as [wf|]; [|done].
  destruct (wf _ _ _) as [[] w1]; cbn [negb]; intros [= <- <-];
    [by apply set_cursor_in_bounds|done].
Qed.

Lemma _set_nibble_value_in_bounds self value w s' w' :
  in_bounds self -> _set_nibble_value value self w = Some (s', w') ->
  in_bounds s'.
Proof.
  intros H. unfold _set_nibble_value.
  destruct (read_func self) as [rf|]; [|done].
  destruct (_ <? 0); [done|].
  destruct (write_func self) as [wf|]; [|done].
  destruct (wf _ _ _) as [[] w1]; cbn [negb]; intros [= <- <-];
    [by apply set_cursor_in_bounds|done].
Qed.

Lemma set_cursor_num_bytes self addr ascii_column nibble :
  num_bytes (set_cursor addr ascii_column nibble self) = num_bytes self.
Proof.
  destruct (set_cursor_cases self addr ascii_column nibble) as [Ha | ->];
    [|done].
  rewrite (set_cursor_accepted_eq _ _ _ _ Ha). cbv zeta.
  rewrite update_active_eq.
  destruct (negb (cursor self =? addr)), ascii_column;
    cbn [has_focus set_ascii_column_active set_processing_cursor_update];
    destruct (has_focus self); reflexivity.
Qed.

(** Loading a non-empty region puts the cursor on its first byte, unless
    the call is made from inside a cursor move. *)
Lemma _set_data_common_nonempty self :
  0 < num_bytes self < 2 ^ 1024 -> _processing_cursor_update self = false ->
  exists s', _set_data_common self = Some s'
    /\ cursor s' = start_addr self
    /\ start_addr s' = start_addr self
    /\ end_addr s' = start_addr self + num_bytes self.
Proof.
  intros Hn Hp. unfold _set_data_common.
  destruct (num_bytes self >=? 0) eqn:E; [|lia]. cbv zeta.
  match goal with
  | |- context [set_cursor ?a None None ?s] =>
      assert (Ha : accepted s a) by (split; [cbn; lia|exact Hp]);
      destruct (set_cursor_accepted s a None None Ha)
        as (Hc & _ & Hs & He & _);
      pose proof (set_cursor_num_bytes s a None None) as Hnb
  end.
  rewrite _update_layout_ok by (rewrite Hnb; cbn; lia).
  eexists. split; [reflexivity|].
  rewrite Hc, Hs, He. done.
Qed.

(** From [2^1028] bytes on, the load raises when it comes to the layout. *)
Lemma _set_data_common_overflow self :
  2 ^ 1028 <= num_bytes self -> _set_data_common self = None.
Proof.
  intros Hn. unfold _set_data_common.
  destruct (num_bytes self >=? 0); [|done]. cbv zeta.
  apply _update_layout_overflow. by rewrite set_cursor_num_bytes.
Qed.

Lemma set_data_callback_nonempty self wf rf start n :
  0 < n < 2 ^ 1024 -> _processing_cursor_update self = false ->
  exists s', set_data_callback wf rf start n self = Some s'
    /\ cursor s' = start /\ in_bounds s'.
Proof.
  intros Hn Hp. unfold set_data_callback. cbv zeta.
  match goal with
  | |- context [_set_data_common ?s] =>
      destruct (_set_data_common_nonempty s Hn Hp)
        as (s' & -> & Hc & Hs & He)
  end.
  exists s'. cbn in Hc, Hs, He. unfold in_bounds.
  rewrite Hc, Hs, He. repeat split; [done|lia..].
Qed.

Lemma set_data_callback_overflow self wf rf start n :
  2 ^ 1028 <= n -> set_data_callback wf rf start n self = None.
Proof.
  intros Hn. unfold set_data_callback. cbv zeta.
  by apply _set_data_common_overflow.
Qed.

Lemma set_data_nonempty self (bytes : list Z) start n :
  0 < default (Z.of_nat (length bytes)) n < 2 ^ 1024 ->
  _processing_cursor_update self = false ->
  exists s', set_data bytes start n self = Some s'
    /\ cursor s' = start /\ in_bounds s'.
Proof.
  intros Hn Hp. unfold set_data. cbv zeta.
  match goal with
  | |- context [_set_data_common ?s] =>
      assert (Hn' : 0 < num_bytes s < 2 ^ 1024) by (destruct n; exact Hn);
      destruct (_set_data_common_nonempty s Hn' Hp)
        as (s' & -> & Hc & Hs & He)
  end.
  exists s'. cbn in Hc, Hs, He. unfold in_bounds.
  rewrite Hc, Hs, He. destruct n; cbn in *; repeat split; lia.
Qed.

End CursorBounds.

(** C6 (as the code has it).  For every address [a] outside
    [[start_addr, end_addr)] the move [set_cursor(a)] is a no-op: it returns
    normally and leaves the whole state as it was.  The operations on a
    loaded region ([set_cursor], [begin_selection], [clear_selection],
    [set_highlight_regions], double click, the movement keys, byte and
    nibble edits) preserve [start_addr <= cursor < end_addr], and loading a
    region of at least one byte and fewer than [2^1024] bytes ([set_data],
    [set_data_callback]) while no cursor move is in progress establishes it
    with the cursor on [start_addr].  From [2^1028] bytes on the load
    raises: the row count of the layout overflows a float. *)
Theorem C6_cursor_stays_in_bounds {World : Type}
    (self : HexGraphicsObject World) (a : Z) (ascii_column : option bool)
    (nibble : option Z) :
  (~ (start_addr self <= a < end_addr self) ->
     set_cursor a ascii_column nibble self = self)
  /\ (in_bounds self ->
        in_bounds (set_cursor a ascii_column nibble self)
        /\ in_bounds (begin_selection self)
        /\ in_bounds (clear_selection self)
        /\ in_bounds (mouseDoubleClickEvent self)
        /\ (forall regions, in_bounds (set_highlight_regions regions self))
        /\ (forall k shift, in_bounds (keyPressEvent_movement k shift self))
        /\ (forall value w s' w',
              _set_byte_value value self w = Some (s', w') -> in_bounds s')
        /\ (forall value w s' w',
              _set_nibble_value value self w = Some (s', w') -> in_bounds s'))
  /\ (_processing_cursor_update self = false ->
        (forall wf rf start n, 0 < n < 2 ^ 1024 ->
           exists s', set_data_callback wf rf start n self = Some s'
                      /\ cursor s' = start /\ in_bounds s')
        /\ (forall bytes start n,
              0 < default (Z.of_nat (length bytes)) n < 2 ^ 1024 ->
              exists s', set_data bytes start n self = Some s'
                         /\ cursor s' = start /\ in_bounds s'))
  /\ (forall wf rf start n, 2 ^ 1028 <= n ->
        set_data_callback wf rf start n self = None).
Proof.
  split; [apply set_cursor_out_of_bounds|]. split; [|split].
  - intros H.
    split; [by apply set_cursor_in_bounds|].
    split; [by apply selection_in_bounds|].
    split; [by apply selection_in_bounds|].
    split; [by apply mouseDoubleClickEvent_in_bounds|].
    split; [intros; by apply set_highlight_regions_in_bounds|].
    split; [intros; by apply keyPressEvent_movement_in_bounds|].
    split; intros value w s' w' Hr.
    + by eapply _set_byte_value_in_bounds.
    + by eapply _set_nibble_value_in_bounds.
  - intros Hp. split; intros.
    + by apply set_data_callback_nonempty.
    + by apply set_data_nonempty.
  - intros. by apply set_data_callback_overflow.
Qed.

Lemma C6_cursor_stays_in_bounds_witness :
  ~ (start_addr Demo.idle <= 16 < end_addr Demo.idle)
  /\ in_bounds Demo.idle
  /\ _processing_cursor_update Demo.idle = false
  /\ set_cursor 16 None None Demo.idle = Demo.idle
  /\ in_bounds (set_cursor 9 None None Demo.idle)
  /\ in_bounds (keyPressEvent_movement Key_Up false Demo.idle)
  /\ (exists s', set_data [1; 2; 3] 0x40 None Demo.idle = Some s'
                 /\ cursor s' = 0x40 /\ in_bounds s')
  /\ set_data_callback DemoEdit.write DemoEdit.read 0 (2 ^ 1028)
       (DemoEdit.editor DemoEdit.write 0 None) = None.
Proof.
  assert (Hout : ~ (start_addr Demo.idle <= 16 < end_addr Demo.idle))
    by (simpl; lia).
  assert (Hin : in_bounds Demo.idle) by (unfold in_bounds; simpl; lia).
  assert (Hp : _processing_cursor_update Demo.idle = false) by reflexivity.
  destruct (C6_cursor_stays_in_bounds Demo.idle 16 None None)
    as (H1 & _ & _).
  destruct (C6_cursor_stays_in_bounds Demo.idle 9 None None)
    as (_ & H2 & H3 & _).
  destruct (C6_cursor_stays_in_bounds
              (DemoEdit.editor DemoEdit.write 0 None) 0 None None)
    as (_ & _ & _ & H4).
  destruct (H2 Hin) as (Hs & _ & _ & _ & _ & Hk & _).
  destruct (H3 Hp) as (_ & Hd).
  assert (H3bytes : 0 < default (Z.of_nat (length [1; 2; 3])) None < 2 ^ 1024)
    by (split; [simpl; lia|apply Z.ltb_lt; reflexivity]).
  exact (conj Hout (conj Hin (conj Hp (conj (H1 Hout) (conj Hs
           (conj (Hk Key_Up false)
              (conj (Hd [1; 2; 3] 0x40 None H3bytes)
                 (H4 DemoEdit.write DemoEdit.read 0 (2 ^ 1028)
                    (Z.le_refl _))))))))).
Defined.

(** C6 as stated fails: the invariant does not hold at all times.  Loading
    an empty buffer into a view whose cursor is on byte 5 leaves the cursor
    on 5 while the region becomes [[0, 0)]; the rejected
    [set_cursor(start_addr)] of [_set_data_common] cannot repair it. *)
Lemma C6_empty_region_breaks_invariant :
  in_bounds Demo.idle
  /\ exists s', set_data [] 0 None Demo.idle = Some s'
                /\ cursor s' = 5 /\ start_addr s' = 0 /\ end_addr s' = 0
                /\ ~ in_bounds s'.
Proof.
  split; [unfold in_bounds; simpl; lia|].
  eexists. split; [reflexivity|]. unfold in_bounds. simpl.
  repeat split; lia.
Qed.




Section RegionLookup.

Context {World : Type}.
Implicit Types self : HexGraphicsObject World.

Lemma under_cursor_spec (c : Z) (region : Region.t) :
  under_cursor c region = true
  <-> Region.addr region <= c < Region.addr region + Region.size region.
Proof. unfold under_cursor. rewrite andb_true_iff. lia. Qed.

Lemma regions_under_filter (c : Z) (rs : list Region.t) :
  regions_under c rs
  = filter (fun region =>
              Region.addr region <= c
              < Region.addr region + Region.size region) rs.
Proof.
  induction rs as [|region rs IH]; [done|].
  cbn [regions_under]. rewrite filter_cons.
  pose proof (under_cursor_spec c region) as Hu.
  destruct (under_cursor c region); case_decide as Hd; rewrite ?IH;
    try done.
  - exfalso. apply Hd, Hu. reflexivity.
  - exfalso. apply Hu in Hd. discriminate Hd.
Qed.

(** The insertion sort orders by key and only rearranges. *)
Lemma insert_by_key_Permutation key x l :
  insert_by_key key x l ≡ₚ x :: l.
Proof.
  induction l as [|y l IH]; [done|]. cbn.
  destruct (key x <=? key y); [done|].
  rewrite IH. apply Permutation_swap.
Qed.

Lemma insert_by_key_HdRel key a x l :
  key_le key a x -> HdRel (key_le key) a l ->
  HdRel (key_le key) a (insert_by_key key x l).
Proof.
  intros Hax Hl. destruct l as [|y l]; cbn; [by constructor|].
  destruct (key x <=? key y); constructor; [done|].
  by inversion Hl.
Qed.

Lemma insert_by_key_Sorted key x l :
  Sorted (key_le key) l -> Sorted (key_le key) (insert_by_key key x l).
Proof.
  induction 1 as [|y l Hs IH Hhd]; cbn; [by repeat constructor|].
  destruct (key x <=? key y) eqn:E.
  - constructor; [by constructor|]. constructor. unfold key_le. lia.
  - constructor; [done|]. apply insert_by_key_HdRel; [|done].
    unfold key_le. lia.
Qed.

Lemma sorted_Permutation key l : sorted key l ≡ₚ l.
Proof.
  induction l as [|x l IH]; [done|]. cbn.
  by rewrite insert_by_key_Permutation, IH.
Qed.

Lemma sorted_Sorted key l : Sorted (key_le key) (sorted key l).
Proof.
  induction l as [|x l IH]; cbn; [constructor|].
  by apply insert_by_key_Sorted.
Qed.

(** Stability: the regions with one and the same key stand in the result
    in the order in which they stood in the list. *)
Lemma insert_by_key_stable key x l (k : Z) :
  filter (fun r => key r = k) (insert_by_key key x l)
  = filter (fun r => key r = k) (x :: l).
Proof.
  induction l as [|y l IH]; [done|]. cbn [insert_by_key].
  destruct (key x <=? key y) eqn:E; [done|]. apply Z.leb_gt in E.
  rewrite (filter_cons _ y), IH, !filter_cons.
  repeat case_decide; try done; lia.
Qed.

Lemma sorted_stable key l (k : Z) :
  filter (fun r => key r = k) (sorted key l)
  = filter (fun r => key r = k) l.
Proof.
  induction l as [|x l IH]; [done|]. cbn. fold (sorted key l).
  by rewrite insert_by_key_stable, !filter_cons, IH.
Qed.

(** So a list that is already in order is returned as it is. *)
Lemma sorted_already_Sorted key l :
  Sorted (key_le key) l -> sorted key l = l.
Proof.
  induction 1 as [|y l Hs IH Hhd]; [done|]. cbn. fold (sorted key l).
  rewrite IH. destruct Hhd as [|z l Hyz]; [done|]. cbn.
  unfold key_le in Hyz. destruct (key y <=? key z) eqn:E; [done|lia].
Qed.

End RegionLookup.

(** C8 (as the code has it).  For every cursor position and every list of
    highlight regions, [get_highlight_regions_under_cursor] returns exactly
    the regions with [region.addr <= cursor < region.addr + region.size], in
    the order in which they stand in [highlighted_regions].  The ordering
    nearest start first is made by the double-click handler, which sorts
    that result by ascending [cursor - region.addr]; the sort is stable:
    the regions with one and the same start address keep the order in
    which the lookup returned them. *)
Theorem C8_regions_under_cursor {World : Type}
    (self : HexGraphicsObject World) :
  let found := get_highlight_regions_under_cursor self in
  found = filter (fun region =>
                    Region.addr region <= cursor self
                    < Region.addr region + Region.size region)
            (highlighted_regions self)
  /\ (forall region,
        region ∈ found <->
        region ∈ highlighted_regions self
        /\ Region.addr region <= cursor self
           < Region.addr region + Region.size region)
  /\ found `sublist_of` highlighted_regions self
  /\ double_click_candidates self ≡ₚ found
  /\ Sorted (fun r1 r2 =>
               cursor self - Region.addr r1 <= cursor self - Region.addr r2)
       (double_click_candidates self)
  /\ (forall a,
        filter (fun r => Region.addr r = a) (double_click_candidates self)
        = filter (fun r => Region.addr r = a) found).
Proof.
  cbv zeta. unfold get_highlight_regions_under_cursor, double_click_candidates.
  unfold get_highlight_regions_under_cursor.
  rewrite regions_under_filter.
  split; [done|]. split; [|split; [|split; [|split]]].
  - intros region. rewrite list_elem_of_filter. tauto.
  - apply sublist_filter.
  - apply sorted_Permutation.
  - apply (sorted_Sorted (fun r => cursor self - Region.addr r)).
  - intros a.
    set (key := fun r : Region.t => cursor self - Region.addr r).
    set (l := filter _ (highlighted_regions self)).
    assert (Hkey : forall l0 : list Region.t,
              filter (fun r => Region.addr r = a) l0
              = filter (fun r => key r = cursor self - a) l0).
    { intros l0. apply list_filter_iff. intros r. unfold key. lia. }
    rewrite !Hkey. apply sorted_stable.
Qed.

(** C8 as stated fails: with a region of ten bytes at 0 listed before a
    region of two bytes at 4 and the cursor on byte 5, the lookup returns
    the two regions in list order, the one whose start is farther from the
    cursor first. *)
Lemma C8_lookup_keeps_list_order :
  let self : HexGraphicsObject unit :=
    set_highlight_regions
      [Region.init hex_view_data_color 0 10; Region.init Qt_green 4 2]
      Demo.idle in
  cursor self = 5
  /\ get_highlight_regions_under_cursor self
     = [Region.mk hex_view_data_color 0 10 true; Region.mk Qt_green 4 2 true]
  /\ map (fun r => cursor self - Region.addr r)
       (get_highlight_regions_under_cursor self) = [5; 1]
  /\ ~ Sorted (fun r1 r2 =>
                 cursor self - Region.addr r1 <= cursor self - Region.addr r2)
         (get_highlight_regions_under_cursor self)
  /\ double_click_candidates self
     = [Region.mk Qt_green 4 2 true; Region.mk hex_view_data_color 0 10 true].
Proof.
  cbv zeta. repeat split.
  intros H. apply Sorted_inv in H as [_ H]. apply HdRel_inv in H.
  simpl in H. lia.
Qed.

(** ** Editing bytes and nibbles *)

Section Editing.

Context {World : Type}.
Implicit Types self : HexGraphicsObject World.

Lemma _set_nibble_value_eq self value w rf wf :
  read_func self = Some rf -> write_func self = Some wf ->
  0 <= default 1 (cursor_nibble self) ->
  _set_nibble_value value self w =
    let nibble := default 1 (cursor_nibble self) in
    let r := wf (cursor self)
               (merged_nibble (rf (cursor self) w) nibble value) w in
    if r.1
    then Some (set_cursor (cursor self + (1 - nibble)) None
                 (Some (1 - nibble)) self, r.2)
    else Some (self, r.2).
Proof.
  intros Hr Hw Hn. unfold _set_nibble_value. rewrite Hr, Hw.
  change (match cursor_nibble self with Some n => n | None => 1 end)
    with (default 1 (cursor_nibble self)).
  destruct (default 1 (cursor_nibble self) * 4 <? 0) eqn:E; [lia|].
  cbv zeta. unfold merged_nibble.
  by destruct (wf _ _ _) as [[] ?].
Qed.

Lemma _set_nibble_value_refused self value w rf wf w' :
  read_func self = Some rf -> write_func self = Some wf ->
  0 <= default 1 (cursor_nibble self) ->
  wf (cursor self)
    (merged_nibble (rf (cursor self) w) (default 1 (cursor_nibble self)) value)
    w = (false, w') ->
  _set_nibble_value value self w = Some (self, w').
Proof.
  intros Hr Hw Hn Hwr.
  rewrite (_set_nibble_value_eq _ _ _ _ _ Hr Hw Hn). cbv zeta.
  by rewrite Hwr.
Qed.

Lemma _set_nibble_value_high self value w rf wf w' :
  read_func self = Some rf -> write_func self = Some wf ->
  accepted self (cursor self) ->
  cursor_nibble self = None ->
  wf (cursor self) (merged_nibble (rf (cursor self) w) 1 value) w
    = (true, w') ->
  exists s', _set_nibble_value value self w = Some (s', w')
    /\ cursor s' = cursor self /\ cursor_nibble s' = Some 0
    /\ cursor_changed_emitted s' = S (cursor_changed_emitted self).
Proof.
  intros Hr Hw Ha Hn Hwr.
  rewrite (_set_nibble_value_eq _ _ _ _ _ Hr Hw) by (rewrite Hn; cbn; lia).
  rewrite Hn. cbv zeta. change (default 1 None) with 1.
  rewrite Hwr. cbn [fst snd]. change (1 - 1) with 0. rewrite Z.add_0_r.
  eexists. split; [reflexivity|].
  destruct (set_cursor_accepted self (cursor self) None (Some 0) Ha)
    as (Hc & Hnib & _ & _ & _ & _ & He & _).
  done.
Qed.

Lemma _set_nibble_value_low self value w rf wf w' :
  read_func self = Some rf -> write_func self = Some wf ->
  cursor_nibble self = Some 0 ->
  wf (cursor self) (merged_nibble (rf (cursor self) w) 0 value) w
    = (true, w') ->
  (accepted self (cursor self + 1) ->
     exists s', _set_nibble_value value self w = Some (s', w')
       /\ cursor s' = cursor self + 1 /\ cursor_nibble s' = Some 1
       /\ cursor_changed_emitted s' = S (cursor_changed_emitted self))
  /\ (~ accepted self (cursor self + 1) ->
        _set_nibble_value value self w = Some (self, w')).
Proof.
  intros Hr Hw Hn Hwr.
  rewrite (_set_nibble_value_eq _ _ _ _ _ Hr Hw) by (rewrite Hn; cbn; lia).
  rewrite Hn. cbv zeta. change (default 1 (Some 0)) with 0.
  rewrite Hwr. cbn [fst snd]. change (1 - 0) with 1. split.
  - intros Ha. eexists. split; [reflexivity|].
    destruct (set_cursor_accepted self (cursor self + 1) None (Some 1) Ha)
      as (Hc & Hnib & _ & _ & _ & _ & He & _).
    done.
  - intros Hna.
    destruct (set_cursor_cases self (cursor self + 1) None (Some 1))
      as [Ha | ->]; done.
Qed.

Lemma _set_byte_value_eq self value w wf :
  write_func self = Some wf ->
  _set_byte_value value self w =
    let r := wf (cursor self) value w in
    if r.1 then Some (set_cursor (cursor self + 1) None None self, r.2)
    else Some (self, r.2).
Proof.
  intros Hw. unfold _set_byte_value. rewrite Hw.
  by destruct (wf _ _ _) as [[] ?].
Qed.

End Editing.

(** C9 (as the code has it).  Nibble editing in hex mode, with the cursor in
    bounds and no cursor move in progress.  When no nibble position is
    pending, a successful write leaves the cursor address unchanged and sets
    [cursor_nibble] to 0, the low nibble.  When the pending position is the
    low nibble, a successful write advances the cursor by 1 and sets
    [cursor_nibble] to 1, the high nibble, provided the next address is
    still below [end_addr]; on the last byte of the region the move is
    rejected and the cursor state stays as it is.  If the write callback
    refuses, the state is unchanged: the cursor does not advance and no
    cursor-changed event is emitted. *)
Theorem C9_nibble_editing {World : Type}
    (self : HexGraphicsObject World) (value : Z) (w w' : World)
    (rf : Z -> World -> HexByteValue)
    (wf : Z -> Z -> World -> bool * World) (ok : bool) :
  read_func self = Some rf -> write_func self = Some wf ->
  in_bounds self -> _processing_cursor_update self = false ->
  wf (cursor self)
     (merged_nibble (rf (cursor self) w) (default 1 (cursor_nibble self))
        value) w = (ok, w') ->
  (cursor_nibble self = None -> ok = true ->
     exists s', _set_nibble_value value self w = Some (s', w')
       /\ cursor s' = cursor self /\ cursor_nibble s' = Some 0
       /\ cursor_changed_emitted s' = S (cursor_changed_emitted self))
  /\ (cursor_nibble self = Some 0 -> ok = true ->
        cursor self + 1 < end_addr self ->
        exists s', _set_nibble_value value self w = Some (s', w')
          /\ cursor s' = cursor self + 1 /\ cursor_nibble s' = Some 1
          /\ cursor_changed_emitted s' = S (cursor_changed_emitted self))
  /\ (cursor_nibble self = Some 0 -> ok = true ->
        cursor self + 1 = end_addr self ->
        _set_nibble_value value self w = Some (self, w'))
  /\ (0 <= default 1 (cursor_nibble self) -> ok = false ->
        _set_nibble_value value self w = Some (self, w')).
Proof.
  intros Hr Hw Hin Hp Hwr. unfold in_bounds in Hin.
  split; [|split; [|split]].
  - intros Hn ->. rewrite Hn in Hwr.
    by eapply _set_nibble_value_high.
  - intros Hn -> Hlt. rewrite Hn in Hwr.
    eapply _set_nibble_value_low; [done..|]. split; [lia|done].
  - intros Hn -> Hlast. rewrite Hn in Hwr.
    eapply _set_nibble_value_low; [done..|]. unfold accepted. lia.
  - intros Hn ->. by eapply _set_nibble_value_refused.
Qed.

(** C10.  A successful full-byte edit with the cursor on the last address
    of the region ([cursor = end_addr - 1]) performs the write and leaves
    the object exactly as it was: the move to [end_addr] is rejected by the
    bounds check of [set_cursor].  No byte edit moves the cursor out of
    [[start_addr, end_addr)]. *)
Theorem C10_byte_edit_at_last_address {World : Type}
    (self : HexGraphicsObject World) (value : Z) (w w' : World)
    (wf : Z -> Z -> World -> bool * World) :
  write_func self = Some wf ->
  wf (cursor self) value w = (true, w') ->
  cursor self = end_addr self - 1 ->
  _set_byte_value value self w = Some (self, w')
  /\ (forall value2 w2 s2 w2',
        in_bounds self ->
        _set_byte_value value2 self w2 = Some (s2, w2') -> in_bounds s2).
Proof.
  intros Hw Hwr Hlast. split.
  - rewrite (_set_byte_value_eq _ _ _ _ Hw). cbv zeta. rewrite Hwr.
    cbn [fst snd]. rewrite set_cursor_out_of_bounds; [done|lia].
  - intros value2 w2 s2 w2' Hin. by apply _set_byte_value_in_bounds.
Qed.

Lemma C9_nibble_editing_witness :
  (exists s', _set_nibble_value 0xC (DemoEdit.editor DemoEdit.write 5 None)
                [(5, 0xAB)] = Some (s', [(5, 0xCB); (5, 0xAB)])
     /\ cursor s' = 5 /\ cursor_nibble s' = Some 0
     /\ cursor_changed_emitted s' = 2%nat)
  /\ (exists s', _set_nibble_value 0xD
                   (DemoEdit.editor DemoEdit.write 5 (Some 0))
                   [(5, 0xCB)] = Some (s', [(5, 0xCD); (5, 0xCB)])
        /\ cursor s' = 6 /\ cursor_nibble s' = Some 1
        /\ cursor_changed_emitted s' = 2%nat)
  /\ _set_nibble_value 0xD (DemoEdit.editor DemoEdit.write 15 (Some 0))
       [(15, 0xCB)]
     = Some (DemoEdit.editor DemoEdit.write 15 (Some 0),
             [(15, 0xCD); (15, 0xCB)])
  /\ _set_nibble_value 0xC (DemoEdit.editor DemoEdit.refuse 5 None)
       [(5, 0xAB)]
     = Some (DemoEdit.editor DemoEdit.refuse 5 None, [(5, 0xAB)]).
Proof.
  pose proof (fun wf cur nib value w w' ok =>
    C9_nibble_editing (DemoEdit.editor wf cur nib) value w w'
      DemoEdit.read wf ok eq_refl eq_refl) as H.
  assert (Hin : forall wf cur nib,
            0 <= cur < 16 -> in_bounds (DemoEdit.editor wf cur nib))
    by (intros wf cur nib Hcur; exact Hcur).
  split; [|split; [|split]].
  - destruct (H DemoEdit.write 5 None 0xC [(5, 0xAB)]
                [(5, 0xCB); (5, 0xAB)] true) as (Ha & _);
      [apply Hin; lia|reflexivity|reflexivity|].
    exact (Ha eq_refl eq_refl).
  - destruct (H DemoEdit.write 5 (Some 0) 0xD [(5, 0xCB)]
                [(5, 0xCD); (5, 0xCB)] true) as (_ & Hb & _);
      [apply Hin; lia|reflexivity|reflexivity|].
    apply (Hb eq_refl eq_refl). simpl. lia.
  - destruct (H DemoEdit.write 15 (Some 0) 0xD [(15, 0xCB)]
                [(15, 0xCD); (15, 0xCB)] true) as (_ & _ & Hc & _);
      [apply Hin; lia|reflexivity|reflexivity|].
    exact (Hc eq_refl eq_refl eq_refl).
  - destruct (H DemoEdit.refuse 5 None 0xC [(5, 0xAB)] [(5, 0xAB)] false)
      as (_ & _ & _ & Hd); [apply Hin; lia|reflexivity|reflexivity|].
    apply (Hd ltac:(simpl; lia) eq_refl).
Defined.

(** C9 as stated fails on the last byte of the region: with the low nibble
    pending on byte 15 of a 16-byte region, a successful write changes the
    byte but the cursor stays on 15 and [cursor_nibble] stays 0, since the
    move to address 16 is rejected. *)
Lemma C9_low_nibble_on_last_byte_stays :
  let self := DemoEdit.editor DemoEdit.write 15 (Some 0) in
  in_bounds self /\ _processing_cursor_update self = false
  /\ cursor_nibble self = Some 0
  /\ exists s',
       _set_nibble_value 0xD self [(15, 0xCB)]
       = Some (s', [(15, 0xCD); (15, 0xCB)])
       /\ cursor s' = 15 /\ cursor s' <> cursor self + 1
       /\ cursor_nibble s' = Some 0.
Proof.
  cbv zeta. split; [unfold in_bounds; simpl; lia|].
  split; [reflexivity|]. split; [reflexivity|].
  eexists. split; [reflexivity|]. simpl. repeat split; lia.
Qed.

Lemma C10_byte_edit_at_last_address_witness :
  let self := DemoEdit.editor DemoEdit.write 15 None in
  cursor self = end_addr self - 1
  /\ in_bounds self
  /\ _set_byte_value 0x41 self [] = Some (self, [(15, 0x41)])
  /\ (forall s2 w2,
        _set_byte_value 0x42 self [(15, 0x41)] = Some (s2, w2) ->
        in_bounds s2).
Proof.
  intros self.
  assert (Hlast : cursor self = end_addr self - 1) by reflexivity.
  assert (Hin : in_bounds self) by (unfold in_bounds; simpl; lia).
  destruct (C10_byte_edit_at_last_address self 0x41 [] [(15, 0x41)]
              DemoEdit.write eq_refl eq_refl Hlast) as [H1 H2].
  exact (conj Hlast (conj Hin (conj H1
           (fun s2 w2 => H2 0x42 [(15, 0x41)] s2 w2 Hin)))).
Defined.

(** ** The patched bytes

    What the patch collection means for a reader: for each address at most
    one byte. *)

Section ByteView.

Implicit Types pm : PatchManager.t.
Implicit Types p q : Patch.t.

Lemma contains_byte_of p (x : Z) :
  Patch.contains p x -> is_Some (byte_of p x).
Proof.
  unfold Patch.contains, Patch.len, byte_of. intros H.
  apply lookup_lt_is_Some. lia.
Qed.

Lemma contains_covers pm p (x : Z) :
  holds pm p -> Patch.contains p x -> exists v, covers pm x v.
Proof.
  intros Hp Hc. destruct (contains_byte_of p x Hc) as [v Hv].
  exists v, p. done.
Qed.

Lemma covers_unique pm (x v1 v2 : Z) :
  wf pm -> covers pm x v1 -> covers pm x v2 -> v1 = v2.
Proof.
  intros Hwf (p1 & H1 & Hc1 & Hb1) (p2 & H2 & Hc2 & Hb2).
  assert (p1 = p2) as -> by by eapply wf_contains_unique.
  congruence.
Qed.

Lemma holds_inj pm p q :
  holds pm p -> holds pm q -> Patch.addr p = Patch.addr q -> p = q.
Proof. unfold holds. intros Hp Hq E. rewrite E in Hp. congruence. Qed.

(** The patches of a collection after one patch was taken out, and after
    another one was filed. *)
Lemma holds_remove_patch pm (k : Z) q :
  holds (remove_patch k pm) q <-> holds pm q /\ Patch.addr q <> k.
Proof.
  unfold holds, remove_patch. rewrite lookup_delete_Some.
  split; intros [? ?]; split; congruence.
Qed.

Lemma holds_add_patch_obj pm p q :
  holds (add_patch_obj p pm) q
  <-> q = p \/ (holds pm q /\ Patch.addr q <> Patch.addr p).
Proof.
  unfold holds, add_patch_obj. rewrite lookup_insert_Some. split.
  - intros [[_ ->]|[? ?]]; [by left|by right].
  - intros [->|[? ?]]; [by left|by right].
Qed.

Lemma keyed_remove_patch pm (k : Z) : keyed pm -> keyed (remove_patch k pm).
Proof.
  intros Hk k' p' H. unfold remove_patch in H.
  apply lookup_delete_Some in H as [_ H]. by apply Hk.
Qed.

(** The bytes of a patch that was shrunk. *)
Lemma byte_of_drop p (o x : Z) :
  0 <= o -> Patch.addr p + o <= x ->
  byte_of (Patch.mk (Patch.addr p + o)
             (drop (Z.to_nat o) (Patch.new_bytes p)) (Patch.comment p)) x
  = byte_of p x.
Proof.
  intros Ho Hx. unfold byte_of. cbn. rewrite lookup_drop. f_equal. lia.
Qed.

Lemma byte_of_take p (k x : Z) :
  Patch.addr p <= x < Patch.addr p + k ->
  byte_of (Patch.set_new_bytes (take (Z.to_nat k) (Patch.new_bytes p)) p) x
  = byte_of p x.
Proof.
  intros Hx. unfold byte_of. cbn. apply lookup_take_lt. lia.
Qed.

#[local] Instance contains_dec p (x : Z) : Decision (Patch.contains p x).
Proof. unfold Patch.contains. apply _. Defined.

#[local] Instance in_target_dec (addr n x : Z) : Decision (in_target addr n x).
Proof. unfold in_target. apply _. Defined.

#[local] Instance encloses_dec (addr n : Z) q : Decision (encloses addr n q).
Proof. unfold encloses. apply _. Defined.

(** Taking a patch out takes its bytes out, and nothing else. *)
Lemma covers_remove_patch pm p (x v : Z) :
  wf pm -> holds pm p ->
  covers (remove_patch (Patch.addr p) pm) x v
  <-> covers pm x v /\ ~ Patch.contains p x.
Proof.
  intros Hwf Hp. split.
  - intros (q & Hq & Hc & Hb). apply holds_remove_patch in Hq as [Hq Hne].
    split; [by exists q|]. intros Hpc.
    apply Hne. f_equal. by eapply wf_contains_unique.
  - intros [(q & Hq & Hc & Hb) Hnc]. exists q.
    split; [|done]. apply holds_remove_patch. split; [done|].
    intros E. apply Hnc. by rewrite <- (holds_inj pm q p Hq Hp E).
Qed.

(** Filing a part [p'] of the patch [p] in place of [p] keeps the bytes of
    the part and those of all other patches. *)
Lemma covers_replace pm p p' (x v : Z) :
  wf pm -> holds pm p ->
  (forall y, Patch.contains p' y -> Patch.contains p y) ->
  (forall y, Patch.contains p' y -> byte_of p' y = byte_of p y) ->
  Patch.addr p' = Patch.addr p \/ Patch.contains p' (Patch.addr p') ->
  covers (add_patch_obj p' (remove_patch (Patch.addr p) pm)) x v
  <-> (covers pm x v /\ ~ Patch.contains p x)
      \/ (Patch.contains p' x /\ byte_of p x = Some v).
Proof.
  intros Hwf Hp Hsub Hbyte Haddr. split.
  - intros (q & Hq & Hc & Hb).
    apply holds_add_patch_obj in Hq as [->|[Hq Hne]].
    + right. split; [done|]. by rewrite <- Hbyte.
    + left. apply (covers_remove_patch pm p x v Hwf Hp). by exists q.
  - intros [[(q & Hq & Hc & Hb) Hnc]|[Hc Hb]].
    + exists q. split; [|done]. apply holds_add_patch_obj. right.
      assert (Hqp : Patch.addr q <> Patch.addr p).
      { intros E. apply Hnc. by rewrite <- (holds_inj pm q p Hq Hp E). }
      split; [by apply holds_remove_patch|].
      destruct Haddr as [->|Hfirst]; [done|].
      intros E. destruct Hwf as [_ Hd].
      apply (Hd _ _ _ _ Hq Hp Hqp (Patch.addr q)). split.
      * unfold Patch.contains in *. lia.
      * apply Hsub. by rewrite E.
    + exists p'. split; [apply holds_add_patch_obj; by left|].
      split; [done|]. by rewrite Hbyte.
Qed.

(** The shapes a patch that intersects the target range can have, and what
    one round of the loop makes of each. *)
Lemma resolve_cases (addr size : Z) (new_bytes : list Z) p pm :
  overlaps addr size p = true ->
  (encloses addr size p
   /\ resolve addr (addr + size - 1) new_bytes p pm
      = Return (update_in_place p
                  (slice_assign (Patch.new_bytes p) (addr - Patch.addr p)
                     (addr + size - 1 - Patch.addr p + 1) new_bytes) pm))
  \/ (addr <= Patch.addr p /\ Patch.addr p + Patch.len p <= addr + size
      /\ resolve addr (addr + size - 1) new_bytes p pm
         = Continue (remove_patch (Patch.addr p) pm))
  \/ (addr <= Patch.addr p /\ addr + size < Patch.addr p + Patch.len p
      /\ resolve addr (addr + size - 1) new_bytes p pm
         = Continue
             (add_patch_obj
                (Patch.mk (addr + size)
                   (drop (Z.to_nat (addr + size - Patch.addr p))
                      (Patch.new_bytes p)) (Patch.comment p))
                (remove_patch (Patch.addr p) pm)))
  \/ (Patch.addr p < addr /\ Patch.addr p + Patch.len p <= addr + size
      /\ resolve addr (addr + size - 1) new_bytes p pm
         = Continue (add_patch_obj (cut_before addr p)
                       (remove_patch (Patch.addr p) pm))).
Proof.
  intros Hov. apply overlaps_spec in Hov as (x0 & Hx0 & Hx0').
  unfold Patch.contains in Hx0. unfold resolve, encloses.
  destruct (Patch.addr p <=? addr) eqn:E1,
    (Patch.addr p + Patch.len p - 1 >=? addr + size - 1) eqn:E2,
    (Patch.addr p >=? addr) eqn:E3,
    (Patch.addr p + Patch.len p - 1 <=? addr + size - 1) eqn:E4,
    (Patch.addr p + Patch.len p - 1 >? addr + size - 1) eqn:E5,
    (Patch.addr p <? addr) eqn:E6; cbn [andb]; try lia.
  all: try (left; split; [lia|reflexivity]).
  all: try (right; left; split; [lia|split; [lia|reflexivity]]).
  all: try (right; right; right; split; [lia|split; [lia|]];
            rewrite slice_to by lia; reflexivity).
  all: right; right; left; split; [lia|split; [lia|]];
    rewrite slice_from by lia;
    replace (addr + size - 1 + 1) with (addr + size) by lia; reflexivity.
Qed.

Lemma contains_shrunk_up p (e y : Z) :
  Patch.addr p <= e ->
  Patch.contains
    (Patch.mk e (drop (Z.to_nat (e - Patch.addr p)) (Patch.new_bytes p))
       (Patch.comment p)) y
  <-> Patch.contains p y /\ e <= y.
Proof.
  intros He. unfold Patch.contains, Patch.len. cbn.
  rewrite length_drop. lia.
Qed.

Lemma contains_cut_before p (a y : Z) :
  Patch.addr p <= a ->
  Patch.contains (cut_before a p) y <-> Patch.contains p y /\ y < a.
Proof.
  intros Ha. unfold Patch.contains, Patch.len, cut_before. cbn.
  rewrite length_take. lia.
Qed.

Lemma byte_of_shrunk_up p (e y : Z) :
  Patch.addr p <= e -> e <= y ->
  byte_of (Patch.mk e (drop (Z.to_nat (e - Patch.addr p)) (Patch.new_bytes p))
             (Patch.comment p)) y
  = byte_of p y.
Proof.
  intros He Hy. unfold byte_of. cbn. rewrite lookup_drop. f_equal. lia.
Qed.

Lemma byte_of_cut_before p (a y : Z) :
  Patch.addr p <= y < a -> byte_of (cut_before a p) y = byte_of p y.
Proof.
  intros Hy. unfold byte_of, cut_before. cbn. apply lookup_take_lt. lia.
Qed.

(** One round of the loop takes the bytes of its patch out of the target
    range and leaves all other patched bytes as they are. *)
Lemma resolve_covers (addr size : Z) (new_bytes : list Z) p pm pm1 (x v : Z) :
  wf pm -> holds pm p -> overlaps addr size p = true ->
  resolve addr (addr + size - 1) new_bytes p pm = Continue pm1 ->
  covers pm1 x v
  <-> covers pm x v /\ ~ (in_target addr size x /\ Patch.contains p x).
Proof.
  intros Hwf Hp Hov Hres.
  assert (Hlt : Patch.addr p < addr + size).
  { apply overlaps_spec in Hov as (x0 & Hx0 & Hx0').
    unfold Patch.contains in Hx0. lia. }
  assert (Hsame : forall q, covers pm x v -> Patch.contains p x ->
                            byte_of p x = Some v).
  { intros _ (q & Hq & Hc & Hb) Hpc.
    by rewrite (wf_contains_unique pm p q x Hwf Hp Hq Hpc Hc). }
  destruct (resolve_cases addr size new_bytes p pm Hov)
    as [[_ E]|[(Hlo & Hhi & E)|[(Hlo & Hhi & E)|(Hlo & Hhi & E)]]];
    rewrite E in Hres; [done|injection Hres as <-..].
  - rewrite (covers_remove_patch pm p x v Hwf Hp).
    unfold in_target, Patch.contains. split; intros [? ?]; split; try done; lia.
  - rewrite covers_replace; try done.
    + split.
      * intros [[Hc Hn]|[Hc Hb]]; [split; [done|tauto]|].
        apply contains_shrunk_up in Hc as [Hc Hge]; [|lia].
        split; [by exists p|]. unfold in_target. lia.
      * intros [Hc Hn]. destruct (decide (Patch.contains p x)) as [Hpc|Hpc];
          [right|by left].
        split; [|by apply (Hsame p)].
        apply contains_shrunk_up; [lia|]. split; [done|].
        unfold in_target, Patch.contains in *. lia.
    + intros y Hy. apply contains_shrunk_up in Hy; [tauto|lia].
    + intros y Hy. apply contains_shrunk_up in Hy as [_ Hy]; [|lia].
      apply byte_of_shrunk_up; lia.
    + right. apply contains_shrunk_up; [lia|]. cbn.
      unfold Patch.contains. lia.
  - rewrite covers_replace; try done.
    + split.
      * intros [[Hc Hn]|[Hc Hb]]; [split; [done|tauto]|].
        apply contains_cut_before in Hc as [Hc Hge]; [|lia].
        split; [by exists p|]. unfold in_target. lia.
      * intros [Hc Hn]. destruct (decide (Patch.contains p x)) as [Hpc|Hpc];
          [right|by left].
        split; [|by apply (Hsame p)].
        apply contains_cut_before; [lia|]. split; [done|].
        unfold in_target, Patch.contains in *. lia.
    + intros y Hy. apply contains_cut_before in Hy; [tauto|lia].
    + intros y Hy. apply contains_cut_before in Hy as [Hy Hy']; [|lia].
      apply byte_of_cut_before. unfold Patch.contains in Hy. lia.
    + by left.
Qed.

(** The loop takes the bytes of the patches it visits out of the target
    range. *)
Lemma resolve_all_covers (addr size : Z) (new_bytes : list Z)
    (ps : list Patch.t) pm pm' (x v : Z) :
  wf pm -> NoDup ps ->
  Forall (fun q => holds pm q /\ overlaps addr size q = true) ps ->
  resolve_all addr (addr + size - 1) new_bytes ps pm = Continue pm' ->
  covers pm' x v
  <-> covers pm x v
      /\ ~ (in_target addr size x /\ exists p, p ∈ ps /\ Patch.contains p x).
Proof.
  revert pm. induction ps as [|p ps IH]; intros pm Hwf Hnd Hall; cbn.
  { intros [= <-]. split; [|tauto]. intros H. split; [done|].
    intros [_ (p & Hp & _)]. by apply elem_of_nil in Hp. }
  destruct (resolve _ _ _ p pm) as [|pm1|] eqn:E; [done| |done].
  intros Hloop.
  destruct (resolve_step _ _ _ _ _ _ _ Hwf Hnd Hall E) as (Hwf1 & Hall1 & _).
  apply Forall_cons in Hall as [[Hp Hov] _].
  apply NoDup_cons in Hnd as [_ Hnd].
  rewrite (IH pm1 Hwf1 Hnd Hall1 Hloop).
  rewrite (resolve_covers _ _ _ _ _ _ x v Hwf Hp Hov E).
  split.
  - intros [[Hc Hn1] Hn2]. split; [done|].
    intros [Ht (q & Hq & Hqc)]. apply elem_of_cons in Hq as [->|Hq].
    + by apply Hn1.
    + apply Hn2. split; [done|]. by exists q.
  - intros [Hc Hn]. split; [split; [done|]|].
    + intros [Ht Hpc]. apply Hn. split; [done|]. exists p. split; [left|done].
    + intros [Ht (q & Hq & Hqc)]. apply Hn. split; [done|].
      exists q. split; [by right|done].
Qed.

(** After the loop the target range is free of patches, and every patched
    byte outside of it is as before. *)
Lemma resolved_covers (addr : Z) (new_bytes : list Z) pm pm' (x v : Z) :
  wf pm ->
  resolve_all addr (addr + Z.of_nat (length new_bytes) - 1) new_bytes
    (get_all_patches pm addr (Z.of_nat (length new_bytes))) pm = Continue pm' ->
  covers pm' x v
  <-> covers pm x v /\ ~ in_target addr (Z.of_nat (length new_bytes)) x.
Proof.
  intros Hwf Hloop. pose proof Hwf as [Hk _].
  rewrite (resolve_all_covers _ _ _ _ _ _ x v Hwf
             (NoDup_get_all_patches pm _ _ Hk)
             (get_all_patches_Forall pm _ _ Hk) Hloop).
  split; intros [Hc Hn]; (split; [done|]).
  - intros Ht. apply Hn. split; [done|].
    destruct Hc as (q & Hq & Hqc & _). exists q. split; [|done].
    apply elem_of_get_all_patches; [done|]. split; [done|].
    apply overlaps_spec. by exists x.
  - tauto.
Qed.

(** Filing a patch that shares no address with the patches filed under
    other addresses adds its bytes and keeps theirs. *)
Lemma covers_add_patch_obj pm p (x v : Z) :
  covers (add_patch_obj p pm) x v
  <-> (Patch.contains p x /\ byte_of p x = Some v)
      \/ (exists q, holds pm q /\ Patch.addr q <> Patch.addr p
                    /\ Patch.contains q x /\ byte_of q x = Some v).
Proof.
  split.
  - intros (q & Hq & Hc & Hb).
    apply holds_add_patch_obj in Hq as [->|[Hq Hne]]; [by left|].
    right. by exists q.
  - intros [[Hc Hb]|(q & Hq & Hne & Hc & Hb)].
    + exists p. split; [apply holds_add_patch_obj; by left|done].
    + exists q. split; [apply holds_add_patch_obj; by right|done].
Qed.

(** Writing into the buffer of a patch of the collection. *)
Lemma covers_update_in_place pm p (bytes : list Z) (x v : Z) :
  wf pm -> holds pm p ->
  covers (update_in_place p bytes pm) x v
  <-> (Patch.contains (Patch.set_new_bytes bytes p) x
       /\ byte_of (Patch.set_new_bytes bytes p) x = Some v)
      \/ (covers pm x v /\ ~ Patch.contains p x).
Proof.
  intros Hwf Hp.
  change (update_in_place p bytes pm)
    with (add_patch_obj (Patch.set_new_bytes bytes p) pm).
  rewrite covers_add_patch_obj. cbn [Patch.addr Patch.set_new_bytes].
  split; (intros [H|H]; [by left|right]).
  - destruct H as (q & Hq & Hne & Hc & Hb). split; [by exists q|].
    intros Hpc. apply Hne. f_equal. by eapply wf_contains_unique.
  - destruct H as [(q & Hq & Hc & Hb) Hn]. exists q.
    split; [done|]. split; [|done].
    intros E. apply Hn. by rewrite <- (holds_inj pm q p Hq Hp E).
Qed.

Lemma wf_update_in_place pm p (bytes : list Z) :
  wf pm -> holds pm p ->
  (forall q x, holds pm q -> q <> p ->
     ~ (Patch.contains (Patch.set_new_bytes bytes p) x /\ Patch.contains q x)) ->
  wf (update_in_place p bytes pm).
Proof.
  intros Hwf Hp Hfree.
  change (update_in_place p bytes pm)
    with (add_patch_obj (Patch.set_new_bytes bytes p) pm).
  apply wf_add_patch_obj; [done|]. cbn. intros q x Hq Hne.
  apply Hfree; [done|]. by intros ->.
Qed.

(** The loop returns from its first branch only for a patch that encloses
    the target range. *)
Lemma resolve_all_Return (addr size : Z) (new_bytes : list Z)
    (ps : list Patch.t) pm pm' :
  Forall (fun q => ~ encloses addr size q) ps ->
  resolve_all addr (addr + size - 1) new_bytes ps pm <> Return pm'.
Proof.
  intros Hall H.
  destruct (resolve_all_is_Continue addr size new_bytes ps pm Hall) as [? E].
  congruence.
Qed.

(** The bytes of a patch after a splice and after an extension. *)
Lemma byte_of_spliced p (a : Z) (new_bytes : list Z) (x : Z) :
  Patch.addr p <= a ->
  a + Z.of_nat (length new_bytes) <= Patch.addr p + Patch.len p ->
  Patch.contains p x ->
  byte_of
    (Patch.set_new_bytes
       (take (Z.to_nat (a - Patch.addr p)) (Patch.new_bytes p) ++ new_bytes
          ++ drop (Z.to_nat (a + Z.of_nat (length new_bytes) - Patch.addr p))
               (Patch.new_bytes p)) p) x
  = if decide (in_target a (Z.of_nat (length new_bytes)) x)
    then new_bytes !! Z.to_nat (x - a)
    else byte_of p x.
Proof.
  unfold Patch.contains, Patch.len, byte_of, in_target. cbn.
  intros Hlo Hhi Hx. case_decide as Ht.
  - rewrite lookup_app_r by (rewrite length_take; lia).
    rewrite length_take, lookup_app_l by lia. f_equal. lia.
  - destruct (decide (x < a)).
    + rewrite lookup_app_l by (rewrite length_take; lia).
      apply lookup_take_lt. lia.
    + rewrite lookup_app_r by (rewrite length_take; lia).
      rewrite lookup_app_r by (rewrite length_take; lia).
      rewrite lookup_drop, length_take. f_equal. lia.
Qed.

Lemma byte_of_extended p (new_bytes : list Z) (x : Z) :
  Patch.addr p <= x ->
  byte_of (Patch.set_new_bytes (Patch.new_bytes p ++ new_bytes) p) x
  = if decide (x < Patch.addr p + Patch.len p)
    then byte_of p x
    else new_bytes !! Z.to_nat (x - (Patch.addr p + Patch.len p)).
Proof.
  unfold Patch.len, byte_of. cbn. intros Hx. case_decide.
  - apply lookup_app_l. lia.
  - rewrite lookup_app_r by lia. f_equal. lia.
Qed.

Lemma resolve_encloses (addr size : Z) (new_bytes : list Z) p pm :
  encloses addr size p ->
  resolve addr (addr + size - 1) new_bytes p pm
  = Return (update_in_place p
              (slice_assign (Patch.new_bytes p) (addr - Patch.addr p)
                 (addr + size - 1 - Patch.addr p + 1) new_bytes) pm).
Proof.
  unfold encloses, resolve. intros [Hlo Hhi].
  destruct (Patch.addr p <=? addr) eqn:E1; [|lia].
  destruct (Patch.addr p + Patch.len p - 1 >=? addr + size - 1) eqn:E2;
    [done|lia].
Qed.

(** What a non-empty write does to the patched bytes: the target range
    holds the new bytes, every other address is as before, and the
    collection is still well formed. *)
Lemma auto_patch_view (addr : Z) (new_bytes : list Z) pm pm' :
  wf pm -> new_bytes <> [] ->
  auto_patch addr new_bytes pm = Some pm' ->
  wf pm'
  /\ forall x v,
       covers pm' x v
       <-> if decide (in_target addr (Z.of_nat (length new_bytes)) x)
           then new_bytes !! Z.to_nat (x - addr) = Some v
           else covers pm x v.
Proof.
  intros Hwf Hne. pose proof Hwf as [Hk Hd].
  set (n := Z.of_nat (length new_bytes)).
  assert (Hn : 0 < n) by (subst n; destruct new_bytes; [done|cbn; lia]).
  unfold auto_patch. cbv zeta. fold n.
  destruct (decide (Exists (encloses addr n) (get_all_patches pm addr n)))
    as [Hex|Hnex].
  - (* a patch encloses the target range *)
    apply Exists_exists in Hex as (p & Hin & Henc).
    apply elem_of_get_all_patches in Hin as [Hp Hov]; [|done].
    pose proof Henc as [Hlo Hhi].
    rewrite (get_all_patches_inside pm p addr n) by (done || lia).
    cbn [resolve_all]. rewrite (resolve_encloses _ _ _ _ _ Henc).
    intros [= <-].
    rewrite slice_assign_inside by (unfold Patch.len in *; lia).
    replace (addr + n - 1 - Patch.addr p + 1)
      with (addr + n - Patch.addr p) by lia.
    set (bytes' := take _ _ ++ _ ++ drop _ _).
    assert (Hlen : length bytes' = length (Patch.new_bytes p)).
    { subst bytes'. rewrite !length_app, length_take, length_drop.
      unfold Patch.len in *. lia. }
    assert (Hsame : forall y, Patch.contains (Patch.set_new_bytes bytes' p) y
                              <-> Patch.contains p y).
    { intros y. unfold Patch.contains, Patch.len. cbn. by rewrite Hlen. }
    split.
    + apply wf_update_in_place; [done..|].
      intros q x Hq Hqp [Hc Hqc]. apply Hsame in Hc.
      apply Hqp. by eapply wf_contains_unique.
    + intros x v. rewrite covers_update_in_place by done.
      rewrite Hsame. split.
      * intros [[Hc Hb]|[Hc Hnc]].
        -- subst bytes' n. rewrite byte_of_spliced in Hb by (done || lia).
           case_decide; [done|]. by exists p.
        -- case_decide as Ht; [|done]. exfalso. apply Hnc.
           unfold in_target, Patch.contains in *. lia.
      * intros H. destruct (decide (Patch.contains p x)) as [Hc|Hc].
        -- left. split; [done|]. subst bytes' n.
           rewrite byte_of_spliced by (done || lia). case_decide; [done|].
           destruct H as (q & Hq & Hqc & Hb).
           by rewrite (wf_contains_unique pm p q x Hwf Hp Hq Hc Hqc).
        -- right. case_decide as Ht; [|done]. exfalso. apply Hc.
           unfold in_target, Patch.contains in *. lia.
  - (* the loop runs to its end *)
    apply not_Exists_Forall in Hnex; [|apply _].
    destruct (resolve_all_is_Continue addr n new_bytes
                (get_all_patches pm addr n) pm Hnex) as [pm1 Hloop].
    rewrite Hloop.
    pose proof (resolved_wf _ _ _ _ Hwf Hloop) as Hwf1.
    pose proof Hwf1 as [Hk1 Hd1].
    assert (Hcov1 : forall x v,
              covers pm1 x v <-> covers pm x v /\ ~ in_target addr n x)
      by (intros x v; by apply resolved_covers).
    assert (Hfree : forall q x, holds pm1 q -> Patch.contains q x ->
                                ~ in_target addr n x).
    { intros q x Hq Hc. destruct (contains_covers pm1 q x Hq Hc) as [v Hv].
      by apply Hcov1 in Hv as [_ ?]. }
    unfold extend_adjacent.
    destruct (if addr >? 0 then _ else _) as [pm2|] eqn:Hext.
    + (* the patch in front of the range is extended *)
      destruct (addr >? 0) eqn:Hpos; [|done].
      destruct (get_all_patches pm1 (addr - 1) 1) as [|p rest] eqn:Hq; [done|].
      injection Hext as <-. intros [= <-].
      assert (Hin : p ∈ get_all_patches pm1 (addr - 1) 1) by (rewrite Hq; left).
      apply elem_of_get_all_patches in Hin as [Hp Hc]; [|done].
      apply overlaps_one in Hc.
      assert (Hend : Patch.addr p + Patch.len p = addr).
      { destruct (decide (Patch.addr p + Patch.len p = addr)); [done|].
        exfalso. apply (Hfree p addr Hp); unfold in_target, Patch.contains in *;
          lia. }
      assert (Hext : forall y,
                Patch.contains
                  (Patch.set_new_bytes (Patch.new_bytes p ++ new_bytes) p) y
                <-> Patch.contains p y \/ in_target addr n y).
      { intros y. unfold Patch.contains, Patch.len, in_target in *. cbn.
        rewrite length_app. subst n. lia. }
      split.
      * apply wf_update_in_place; [done..|].
        intros q x Hqh Hqp [Hcx Hqc]. apply Hext in Hcx as [Hcx|Hcx].
        -- apply Hqp. by eapply wf_contains_unique.
        -- by apply (Hfree q x).
      * intros x v. rewrite covers_update_in_place by done. rewrite Hext.
        split.
        -- intros [[Hcx Hb]|[Hcx Hnc]].
           ++ rewrite byte_of_extended in Hb
                by (unfold Patch.contains, in_target in *; lia).
              rewrite Hend in Hb.
              destruct (decide (in_target addr n x)) as [Ht|Ht].
              ** destruct (decide (x < addr)) as [Hlt|Hlt];
                   [unfold in_target in *; lia|done].
              ** destruct Hcx as [Hcx|Hcx]; [|done].
                 destruct (decide (x < addr)) as [Hlt|Hlt];
                   [|unfold Patch.contains in *; lia].
                 assert (Hc1 : covers pm1 x v) by by exists p.
                 by apply Hcov1 in Hc1 as [? _].
           ++ apply Hcov1 in Hcx as [Hcx Hnt]. by case_decide.
        -- intros H. case_decide as Ht.
           ++ left. split; [by right|].
              rewrite byte_of_extended
                by (unfold Patch.contains, in_target in *; lia).
              rewrite Hend. case_decide; [unfold in_target in *; lia|done].
           ++ assert (Hc1 : covers pm1 x v) by by apply Hcov1.
              destruct (decide (Patch.contains p x)) as [Hpc|Hpc]; [|by right].
              left. split; [by left|].
              rewrite byte_of_extended by (unfold Patch.contains in *; lia).
              case_decide; [|unfold Patch.contains in *; lia].
              destruct Hc1 as (q & Hqh & Hqc & Hb).
              by rewrite (wf_contains_unique pm1 p q x Hwf1 Hp Hqh Hpc Hqc).
    + (* a new patch is filed *)
      intros [= <-].
      assert (Hnew : forall y, Patch.contains (Patch.init addr new_bytes) y
                               <-> in_target addr n y).
      { intros y. unfold Patch.contains, Patch.len, in_target. cbn. by subst n. }
      split.
      * apply wf_add_patch_obj; [done|].
        intros q x Hqh _ [Hcx Hqc]. apply Hnew in Hcx. by apply (Hfree q x).
      * intros x v. rewrite covers_add_patch_obj. rewrite Hnew. cbn.
        unfold byte_of at 1. cbn. split.
        -- intros [[Ht Hb]|(q & Hqh & _ & Hqc & Hb)].
           ++ by case_decide.
           ++ assert (covers pm1 x v) as Hc1 by by exists q.
              apply Hcov1 in Hc1 as [? ?]. by case_decide.
        -- intros H. case_decide as Ht; [by left|]. right.
           assert (covers pm1 x v) as (q & Hqh & Hqc & Hb) by by apply Hcov1.
           exists q. split; [done|]. split; [|done].
           intros E. apply (Hfree q addr Hqh).
           ++ unfold Patch.contains in *. lia.
           ++ unfold in_target. lia.
Qed.

(** *** Reading through [project_memory_read_func] *)

Lemma getitem_byte_of p (x : Z) :
  Patch.contains p x ->
  HexView.getitem (Patch.new_bytes p) (x - Patch.addr p) = byte_of p x.
Proof.
  unfold Patch.contains, Patch.len, HexView.getitem, byte_of. intros H.
  destruct (x - Patch.addr p <? 0) eqn:E1; [lia|].
  destruct (0 <=? x - Patch.addr p) eqn:E2; [|lia].
  destruct (x - Patch.addr p <? Z.of_nat (length (Patch.new_bytes p))) eqn:E3;
    [done|lia].
Qed.

Lemma read_patched pm (m : gmap Z Z) (x v : Z) :
  wf pm -> covers pm x v ->
  HexView.project_memory_read_func x (HexView.mkProject pm m)
  = Some (IntValue v).
Proof.
  intros Hwf (p & Hp & Hc & Hb). unfold HexView.project_memory_read_func. cbn.
  destruct (get_all_patches_at pm p x Hwf Hp Hc) as [rest ->].
  by rewrite getitem_byte_of, Hb.
Qed.

Lemma read_unpatched pm (m : gmap Z Z) (x : Z) :
  keyed pm -> (forall v, ~ covers pm x v) ->
  HexView.project_memory_read_func x (HexView.mkProject pm m)
  = Some match m !! x with
         | Some v => IntValue v
         | None => StrValue "?"
         end.
Proof.
  intros Hk Hnone. unfold HexView.project_memory_read_func. cbn.
  rewrite get_all_patches_none; [done|done|].
  intros p Hp Hc. destruct (contains_covers pm p x Hp Hc) as [v Hv].
  by apply (Hnone v).
Qed.

Lemma patched_or_not pm (x : Z) :
  keyed pm -> (exists v, covers pm x v) \/ (forall v, ~ covers pm x v).
Proof.
  intros Hk. destruct (get_all_patches pm x 1) as [|p rest] eqn:E.
  - right. intros v (p & Hp & Hc & _).
    assert (p ∈ get_all_patches pm x 1) as Hin
      by (apply elem_of_get_all_patches; [done|];
          split; [done|by apply overlaps_one]).
    rewrite E in Hin. by apply elem_of_nil in Hin.
  - left. assert (p ∈ get_all_patches pm x 1) as Hin by (rewrite E; left).
    apply elem_of_get_all_patches in Hin as [Hp Hc]; [|done].
    apply overlaps_one in Hc. by eapply contains_covers.
Qed.

(** Two collections that patch the same addresses with the same bytes read
    the same. *)
Lemma read_ext pm pm' (m : gmap Z Z) (x : Z) :
  wf pm -> wf pm' ->
  (forall v, covers pm' x v <-> covers pm x v) ->
  HexView.project_memory_read_func x (HexView.mkProject pm' m)
  = HexView.project_memory_read_func x (HexView.mkProject pm m).
Proof.
  intros Hwf Hwf' Hiff. pose proof Hwf as [Hk _]. pose proof Hwf' as [Hk' _].
  destruct (patched_or_not pm x Hk) as [[v Hv]|Hnone].
  - rewrite (read_patched pm m x v Hwf Hv).
    apply read_patched; [done|]. by apply Hiff.
  - rewrite (read_unpatched pm m x Hk Hnone).
    apply read_unpatched; [done|]. intros v Hv. apply (Hnone v). by apply Hiff.
Qed.

(** The read callback never raises on a well-keyed collection. *)
Lemma read_total pm (m : gmap Z Z) (x : Z) :
  wf pm -> is_Some (HexView.project_memory_read_func x (HexView.mkProject pm m)).
Proof.
  intros Hwf. pose proof Hwf as [Hk _].
  destruct (patched_or_not pm x Hk) as [[v Hv]|Hnone].
  - by rewrite (read_patched pm m x v Hwf Hv).
  - by rewrite (read_unpatched pm m x Hk Hnone).
Qed.

End ByteView.

(** X1.  [auto_patch] never reaches its [assert False], whatever the
    collection holds: the four branches of the loop cover every patch.  A
    non-empty write on a well-formed collection (patches filed under their
    own address, no two sharing an address) returns a well-formed
    collection. *)
Theorem X1_auto_patch_keeps_collection_well_formed (pm : PatchManager.t)
    (addr : Z) (new_bytes : list Z) :
  is_Some (auto_patch addr new_bytes pm)
  /\ (forall p max_addr pm0,
        resolve addr max_addr new_bytes p pm0 <> AssertionError)
  /\ (wf pm -> new_bytes <> [] ->
        exists pm', auto_patch addr new_bytes pm = Some pm' /\ wf pm').
Proof.
  split; [apply auto_patch_total|].
  split; [intros; apply resolve_no_AssertionError|].
  intros Hwf Hne. destruct (auto_patch_total addr new_bytes pm) as [pm' E].
  exists pm'. split; [done|]. by eapply auto_patch_view.
Qed.

Lemma X1_auto_patch_keeps_collection_well_formed_witness :
  let pm : PatchManager.t := {[0x1010 := Patch.init 0x1010 [1; 2; 3; 4]]} in
  wf pm
  /\ exists pm', auto_patch 0x1012 [9; 9; 9; 9] pm = Some pm' /\ wf pm'.
Proof.
  intros pm.
  assert (Hwf : wf pm) by apply (wf_singleton (Patch.init 0x1010 [1; 2; 3; 4])).
  destruct (X1_auto_patch_keeps_collection_well_formed pm 0x1012 [9; 9; 9; 9])
    as (_ & _ & H).
  exact (conj Hwf (H Hwf ltac:(discriminate))).
Defined.

(** X2.  After a non-empty write [auto_patch(addr, new_bytes)] on a
    well-formed collection, [project_memory_read_func] returns the byte
    [new_bytes[i]] at every address [addr + i] of the target range. *)
Theorem X2_read_after_write (pm pm' : PatchManager.t) (m : gmap Z Z)
    (addr : Z) (new_bytes : list Z) (i : nat) (v : Z) :
  wf pm -> auto_patch addr new_bytes pm = Some pm' ->
  new_bytes !! i = Some v ->
  HexView.project_memory_read_func (addr + Z.of_nat i)
    (HexView.mkProject pm' m) = Some (IntValue v).
Proof.
  intros Hwf Hw Hi.
  assert (Hne : new_bytes <> []) by (by destruct new_bytes).
  destruct (auto_patch_view addr new_bytes pm pm' Hwf Hne Hw) as [Hwf' Hv].
  apply read_patched; [done|]. apply Hv.
  apply lookup_lt_Some in Hi as Hlt.
  case_decide as Ht; [|unfold in_target in Ht; lia].
  rewrite <- Hi. f_equal. lia.
Qed.

Lemma X2_read_after_write_witness :
  let pm : PatchManager.t :=
    {[0x1010 := Patch.init 0x1010 [1; 2; 3; 4; 5; 6; 7; 8]]} in
  exists pm',
    auto_patch 0x1016 [0xAA; 0xBB; 0xCC; 0xDD] pm = Some pm'
    /\ HexView.project_memory_read_func (0x1016 + 2) (HexView.mkProject pm' ∅)
       = Some (IntValue 0xCC).
Proof.
  intros pm.
  destruct (auto_patch_total 0x1016 [0xAA; 0xBB; 0xCC; 0xDD] pm) as [pm' E].
  exists pm'. split; [done|].
  apply (X2_read_after_write pm pm' ∅ 0x1016 [0xAA; 0xBB; 0xCC; 0xDD] 2 0xCC);
    [apply (wf_singleton (Patch.init 0x1010 [1; 2; 3; 4; 5; 6; 7; 8]))
    |done|reflexivity].
Defined.

(** X3.  A non-empty write [auto_patch(addr, new_bytes)] on a well-formed
    collection changes nothing outside its target range: at every address
    [x] outside [[addr, addr + len(new_bytes))],
    [project_memory_read_func] returns what it returned before (a patched
    byte, a byte of the loaded binary, or ['?']). *)
Theorem X3_write_leaves_other_addresses (pm pm' : PatchManager.t)
    (m : gmap Z Z) (addr : Z) (new_bytes : list Z) (x : Z) :
  wf pm -> new_bytes <> [] -> auto_patch addr new_bytes pm = Some pm' ->
  ~ (addr <= x < addr + Z.of_nat (length new_bytes)) ->
  HexView.project_memory_read_func x (HexView.mkProject pm' m)
  = HexView.project_memory_read_func x (HexView.mkProject pm m).
Proof.
  intros Hwf Hne Hw Hx.
  destruct (auto_patch_view addr new_bytes pm pm' Hwf Hne Hw) as [Hwf' Hv].
  apply read_ext; [done..|]. intros v. rewrite Hv. by case_decide.
Qed.

Lemma X3_write_leaves_other_addresses_witness :
  let pm : PatchManager.t :=
    {[0x1010 := Patch.init 0x1010 [1; 2; 3; 4; 5; 6; 7; 8]]} in
  exists pm',
    auto_patch 0x1016 [0xAA; 0xBB; 0xCC; 0xDD] pm = Some pm'
    /\ HexView.project_memory_read_func 0x1015 (HexView.mkProject pm' ∅)
       = HexView.project_memory_read_func 0x1015 (HexView.mkProject pm ∅).
Proof.
  intros pm.
  destruct (auto_patch_total 0x1016 [0xAA; 0xBB; 0xCC; 0xDD] pm) as [pm' E].
  exists pm'. split; [done|].
  apply (X3_write_leaves_other_addresses pm pm' ∅ 0x1016
           [0xAA; 0xBB; 0xCC; 0xDD] 0x1015);
    [apply (wf_singleton (Patch.init 0x1010 [1; 2; 3; 4; 5; 6; 7; 8]))
    |discriminate|done|simpl; lia].
Defined.

Section PatchEdits.

Implicit Types pm : PatchManager.t.
Implicit Types p q : Patch.t.

Lemma contains_split_right p (c y : Z) :
  Patch.addr p <= c ->
  Patch.contains
    (Patch.mk c (drop (Z.to_nat (c - Patch.addr p)) (Patch.new_bytes p))
       (Patch.comment p)) y
  <-> Patch.contains p y /\ c <= y.
Proof. apply contains_shrunk_up. Qed.

(** Splitting keeps the collection well formed and every patched byte. *)
Lemma split_view (c : Z) p pm :
  wf pm -> holds pm p -> Patch.addr p < c < Patch.addr p + Patch.len p ->
  wf (split c p pm)
  /\ forall x v, covers (split c p pm) x v <-> covers pm x v.
Proof.
  intros Hwf Hp Hc. pose proof Hwf as [Hk Hd].
  rewrite (split_eq c p pm Hc). cbv zeta.
  set (o := Z.to_nat (c - Patch.addr p)).
  set (left := Patch.mk (Patch.addr p) (take o (Patch.new_bytes p))
                 (Patch.comment p)).
  set (right := Patch.mk c (drop o (Patch.new_bytes p)) (Patch.comment p)).
  change (<[c:=right]> (<[Patch.addr p:=left]> pm))
    with (add_patch_obj right (update_in_place p (take o (Patch.new_bytes p)) pm)).
  assert (Hl : forall y, Patch.contains left y <-> Patch.contains p y /\ y < c).
  { intros y. apply (contains_cut_before p c y). lia. }
  assert (Hr : forall y, Patch.contains right y <-> Patch.contains p y /\ c <= y).
  { intros y. apply contains_split_right. lia. }
  assert (Hwf1 : wf (update_in_place p (take o (Patch.new_bytes p)) pm)).
  { apply wf_update_in_place; [done..|].
    intros q x Hq Hqp [Hx Hqx]. apply Hl in Hx as [Hx _].
    apply Hqp. by eapply wf_contains_unique. }
  assert (Hcov1 : forall x v,
            covers (update_in_place p (take o (Patch.new_bytes p)) pm) x v
            <-> (Patch.contains left x /\ byte_of p x = Some v)
                \/ (covers pm x v /\ ~ Patch.contains p x)).
  { intros x v. rewrite covers_update_in_place by done.
    change (Patch.set_new_bytes (take o (Patch.new_bytes p)) p)
      with (cut_before c p).
    split; (intros [[Hx Hb]|H]; [left|by right]); (split; [done|]).
    - rewrite <- Hb. symmetry. apply byte_of_cut_before.
      apply Hl in Hx. unfold Patch.contains in Hx. lia.
    - rewrite <- Hb. apply byte_of_cut_before.
      apply Hl in Hx. unfold Patch.contains in Hx. lia. }
  split.
  - apply wf_add_patch_obj; [done|].
    intros q x Hq Hne [Hx Hqx]. apply Hr in Hx as [Hx Hge].
    destruct (contains_covers _ q x Hq Hqx) as [v Hv].
    apply Hcov1 in Hv as [[Hlx _]|[_ Hn]]; [|done].
    apply Hl in Hlx. lia.
  - intros x v. rewrite covers_add_patch_obj. split.
    + intros [[Hx Hb]|(q & Hq & Hne & Hqx & Hb)].
      * apply Hr in Hx as [Hx Hge]. exists p. split; [done|]. split; [done|].
        rewrite <- Hb. symmetry. apply byte_of_shrunk_up; lia.
      * assert (covers (update_in_place p (take o (Patch.new_bytes p)) pm) x v)
          as Hc1 by by exists q.
        apply Hcov1 in Hc1 as [[Hlx Hb']|[Hc1 _]]; [|done].
        apply Hl in Hlx as [Hlx _]. by exists p.
    + intros (q & Hq & Hqx & Hb).
      destruct (decide (Patch.contains p x)) as [Hpx|Hpx].
      * assert (q = p) as ->
          by (symmetry; by apply (wf_contains_unique pm p q x)).
        destruct (decide (c <= x)) as [Hge|Hlt].
        -- left. split; [by apply Hr|].
           rewrite <- Hb. apply byte_of_shrunk_up; lia.
        -- right. exists left. split; [apply lookup_insert_eq|].
           split; [cbn; lia|]. split; [apply Hl; split; [done|lia]|].
           rewrite <- Hb. apply (byte_of_cut_before p c x).
           unfold Patch.contains in Hpx. lia.
      * right. exists q.
        assert (Hqp : Patch.addr q <> Patch.addr p).
        { intros E. apply Hpx. by rewrite <- (holds_inj pm q p Hq Hp E). }
        split; [unfold holds, update_in_place; by rewrite lookup_insert_ne|].
        split; [|done]. cbn. intros E. apply Hpx.
        assert (Hqc : Patch.contains q c)
          by (unfold Patch.contains in *; lia).
        assert (Hpc : Patch.contains p c) by (unfold Patch.contains; lia).
        by rewrite (wf_contains_unique pm p q c Hwf Hp Hq Hpc Hqc).
Qed.

(** Merging two adjacent patches of the collection keeps the collection
    well formed and every patched byte. *)
Lemma merge_with_view p q pm :
  wf pm -> holds pm p -> holds pm q ->
  Patch.addr q = Patch.addr p + Patch.len p ->
  wf (merge_with p q pm)
  /\ forall x v, covers (merge_with p q pm) x v <-> covers pm x v.
Proof.
  intros Hwf Hp Hq Hadj. pose proof Hwf as [Hk Hd].
  rewrite (merge_with_eq p q pm Hadj).
  change (delete (Patch.addr q)
            (<[Patch.addr p:=Patch.set_new_bytes
                 (Patch.new_bytes p ++ Patch.new_bytes q) p]> pm))
    with (remove_patch (Patch.addr q)
            (update_in_place p (Patch.new_bytes p ++ Patch.new_bytes q) pm)).
  set (pq := Patch.set_new_bytes (Patch.new_bytes p ++ Patch.new_bytes q) p).
  assert (Hpq : forall y, Patch.contains pq y
                          <-> Patch.contains p y \/ Patch.contains q y).
  { intros y. unfold Patch.contains, Patch.len in *. cbn.
    rewrite length_app. lia. }
  assert (Hbp : forall y, Patch.contains p y -> byte_of pq y = byte_of p y).
  { intros y Hy. unfold pq. rewrite byte_of_extended
      by (unfold Patch.contains in Hy; lia).
    case_decide; [done|]. unfold Patch.contains in Hy. lia. }
  assert (Hbq : forall y, Patch.contains q y -> byte_of pq y = byte_of q y).
  { intros y Hy. unfold pq. rewrite byte_of_extended
      by (unfold Patch.contains, Patch.len in *; lia).
    case_decide; [unfold Patch.contains in Hy; lia|].
    unfold byte_of. by rewrite Hadj. }
  assert (Hwf1 : wf (remove_patch (Patch.addr q)
                       (update_in_place p
                          (Patch.new_bytes p ++ Patch.new_bytes q) pm))).
  { unfold update_in_place. fold pq.
    destruct (decide (Patch.addr p = Patch.addr q)) as [E|E].
    - unfold remove_patch. rewrite <- E, delete_insert_eq. by apply wf_remove_patch.
    - unfold remove_patch.
      rewrite delete_insert_ne by done.
      change (wf (add_patch_obj pq (remove_patch (Patch.addr q) pm))).
      apply wf_add_patch_obj; [by apply wf_remove_patch|].
      intros r x Hr Hne [Hx Hrx]. apply holds_remove_patch in Hr as [Hr Hrq].
      cbn in Hne. apply Hpq in Hx as [Hx|Hx].
      + apply Hne. f_equal. by eapply wf_contains_unique.
      + apply Hrq. f_equal. by eapply wf_contains_unique. }
  split; [exact Hwf1|].
  intros x v. split.
  - intros (r & Hr & Hrx & Hb). apply holds_remove_patch in Hr as [Hr Hrq].
    unfold holds, update_in_place in Hr. fold pq in Hr.
    apply lookup_insert_Some in Hr as [[_ <-]|[Hne Hr]].
    + apply Hpq in Hrx as [Hx|Hx].
      * exists p. rewrite <- (Hbp x Hx). done.
      * exists q. rewrite <- (Hbq x Hx). done.
    + by exists r.
  - intros (r & Hr & Hrx & Hb).
    destruct (decide (r = p)) as [->|Hrp];
      [|destruct (decide (r = q)) as [->|Hrq]].
    + exists pq. split; [|split; [apply Hpq; by left|by rewrite Hbp]].
      apply holds_remove_patch. split; [apply lookup_insert_eq|]. cbn.
      unfold Patch.contains in Hrx. lia.
    + exists pq. split; [|split; [apply Hpq; by right|by rewrite Hbq]].
      apply holds_remove_patch. split; [apply lookup_insert_eq|]. cbn.
      intros E. apply Hrp. symmetry. by apply (holds_inj pm p q).
    + exists r. split; [|done]. apply holds_remove_patch. split.
      * unfold holds, update_in_place. rewrite lookup_insert_ne; [done|].
        intros E. apply Hrp. by apply (holds_inj pm r p).
      * intros E. apply Hrq. by apply (holds_inj pm r q).
Qed.

(** Reverting a patch takes its bytes out and leaves all others. *)
Lemma revert_view p pm :
  wf pm -> holds pm p ->
  wf (PatchHighlight.revert p pm)
  /\ forall x v, covers (PatchHighlight.revert p pm) x v
                 <-> covers pm x v /\ ~ Patch.contains p x.
Proof.
  intros Hwf Hp. split; [by apply wf_remove_patch|].
  intros x v. by apply covers_remove_patch.
Qed.

End PatchEdits.

(** X4.  Splitting a patch of a well-formed collection at an address
    strictly inside it changes no byte of the patched view: at every
    address [project_memory_read_func] returns what it returned before, and
    the collection stays well formed. *)
Theorem X4_split_keeps_bytes (pm : PatchManager.t) (p : Patch.t) (c : Z)
    (m : gmap Z Z) (x : Z) :
  wf pm -> holds pm p -> Patch.addr p < c < Patch.addr p + Patch.len p ->
  wf (split c p pm)
  /\ HexView.project_memory_read_func x (HexView.mkProject (split c p pm) m)
     = HexView.project_memory_read_func x (HexView.mkProject pm m).
Proof.
  intros Hwf Hp Hc. destruct (split_view c p pm Hwf Hp Hc) as [Hwf' Hv].
  split; [done|]. apply read_ext; [done..|]. intros v. apply Hv.
Qed.

Lemma X4_split_keeps_bytes_witness :
  let p := Patch.init 0x1010 [1; 2; 3; 4; 5; 6; 7; 8] in
  let pm : PatchManager.t := {[0x1010 := p]} in
  wf (split 0x1014 p pm)
  /\ HexView.project_memory_read_func 0x1015
       (HexView.mkProject (split 0x1014 p pm) ∅)
     = HexView.project_memory_read_func 0x1015 (HexView.mkProject pm ∅).
Proof.
  intros p pm.
  apply (X4_split_keeps_bytes pm p 0x1014 ∅ 0x1015).
  - apply (wf_singleton p).
  - unfold holds. apply lookup_singleton_eq.
  - unfold Patch.len. simpl. lia.
Defined.

(** X5.  Merging two exactly adjacent patches of a well-formed collection
    changes no byte of the patched view and keeps the collection well
    formed. *)
Theorem X5_merge_keeps_bytes (pm : PatchManager.t) (p q : Patch.t)
    (m : gmap Z Z) (x : Z) :
  wf pm -> holds pm p -> holds pm q ->
  Patch.addr q = Patch.addr p + Patch.len p ->
  wf (merge_with p q pm)
  /\ HexView.project_memory_read_func x (HexView.mkProject (merge_with p q pm) m)
     = HexView.project_memory_read_func x (HexView.mkProject pm m).
Proof.
  intros Hwf Hp Hq Hadj.
  destruct (merge_with_view p q pm Hwf Hp Hq Hadj) as [Hwf' Hv].
  split; [done|]. apply read_ext; [done..|]. intros v. apply Hv.
Qed.

Lemma X5_merge_keeps_bytes_witness :
  let p := Patch.init 0x1010 [1; 2; 3; 4] in
  let q := Patch.init 0x1014 [5; 6; 7; 8] in
  let pm : PatchManager.t := <[0x1014 := q]> {[0x1010 := p]} in
  wf pm
  /\ wf (merge_with p q pm)
  /\ HexView.project_memory_read_func 0x1015
       (HexView.mkProject (merge_with p q pm) ∅)
     = HexView.project_memory_read_func 0x1015 (HexView.mkProject pm ∅).
Proof.
  intros p q pm.
  assert (Hwf : wf pm).
  { apply (wf_add_patch_obj {[0x1010 := p]} q); [apply (wf_singleton p)|].
    intros r y Hr _. unfold holds in Hr.
    apply lookup_singleton_Some in Hr as [_ <-].
    unfold Patch.contains, Patch.len. simpl. lia. }
  split; [exact Hwf|].
  apply (X5_merge_keeps_bytes pm p q ∅ 0x1015); [exact Hwf|done|done|].
  unfold Patch.len. simpl. lia.
Defined.

(** X6.  Reverting a patch of a well-formed collection makes every address
    of the patch read from the loaded binary again (its byte, or ['?'] where
    nothing is mapped), leaves every other address as it was, and keeps the
    collection well formed. *)
Theorem X6_revert_uncovers_patch (pm : PatchManager.t) (p : Patch.t)
    (m : gmap Z Z) (x : Z) :
  wf pm -> holds pm p ->
  wf (PatchHighlight.revert p pm)
  /\ (Patch.contains p x ->
        HexView.project_memory_read_func x
          (HexView.mkProject (PatchHighlight.revert p pm) m)
        = Some match m !! x with
               | Some v => IntValue v
               | None => StrValue "?"
               end)
  /\ (~ Patch.contains p x ->
        HexView.project_memory_read_func x
          (HexView.mkProject (PatchHighlight.revert p pm) m)
        = HexView.project_memory_read_func x (HexView.mkProject pm m)).
Proof.
  intros Hwf Hp. destruct (revert_view p pm Hwf Hp) as [Hwf' Hv].
  split; [done|]. split.
  - intros Hc. apply read_unpatched; [apply Hwf'|].
    intros v Hcv. apply Hv in Hcv as [_ Hn]. done.
  - intros Hn. apply read_ext; [done..|]. intros v. rewrite Hv. tauto.
Qed.

Lemma X6_revert_uncovers_patch_witness :
  let p := Patch.init 0x1010 [1; 2; 3; 4] in
  let pm : PatchManager.t := {[0x1010 := p]} in
  HexView.project_memory_read_func 0x1011
    (HexView.mkProject pm {[0x1011 := 0x90]}) = Some (IntValue 2)
  /\ HexView.project_memory_read_func 0x1011
       (HexView.mkProject (PatchHighlight.revert p pm) {[0x1011 := 0x90]})
     = Some (IntValue 0x90).
Proof.
  intros p pm. split; [by vm_compute|].
  destruct (X6_revert_uncovers_patch pm p {[0x1011 := 0x90]} 0x1011)
    as (_ & H & _).
  - apply (wf_singleton p).
  - unfold holds. apply lookup_singleton_eq.
  - rewrite H; [reflexivity|]. unfold Patch.contains, Patch.len. simpl. lia.
Defined.

Section FreshWrite.

Implicit Types pm : PatchManager.t.

Lemma get_all_patches_nil pm (addr size : Z) :
  keyed pm ->
  (forall q x, holds pm q -> Patch.contains q x -> ~ addr <= x < addr + size) ->
  get_all_patches pm addr size = [].
Proof.
  intros Hk Hnone.
  destruct (get_all_patches pm addr size) as [|q rest] eqn:E; [done|].
  assert (q ∈ get_all_patches pm addr size) as Hin by (rewrite E; left).
  apply elem_of_get_all_patches in Hin as [Hq Hov]; [|done].
  apply overlaps_spec in Hov as (x & Hx & Hx'). by destruct (Hnone q x).
Qed.

(** A write next to no patch files a new patch. *)
Lemma auto_patch_fresh pm (addr : Z) (new_bytes : list Z) :
  keyed pm ->
  (forall q x, holds pm q -> Patch.contains q x ->
     ~ addr - 1 <= x < addr + Z.of_nat (length new_bytes)) ->
  auto_patch addr new_bytes pm
  = Some (<[addr := Patch.init addr new_bytes]> pm).
Proof.
  intros Hk Hnone. unfold auto_patch. cbv zeta.
  rewrite get_all_patches_nil; [|done|].
  2:{ intros q x Hq Hc Hx. apply (Hnone q x Hq Hc). lia. }
  cbn [resolve_all]. unfold extend_adjacent.
  destruct (addr >? 0); [|done].
  rewrite get_all_patches_nil; [done|done|].
  intros q x Hq Hc Hx. apply (Hnone q x Hq Hc). lia.
Qed.

End FreshWrite.

(** X7.  A write that neither touches nor follows a patch (no patch covers
    an address from [addr - 1] to the end of the target range, and nothing
    is filed under [addr]) files exactly one new patch, [Patch(addr,
    new_bytes)]; reverting that patch gives the collection back as it
    was. *)
Theorem X7_write_then_revert (pm : PatchManager.t) (addr : Z)
    (new_bytes : list Z) :
  keyed pm -> pm !! addr = None ->
  (forall q x, holds pm q -> Patch.contains q x ->
     ~ addr - 1 <= x < addr + Z.of_nat (length new_bytes)) ->
  exists pm',
    auto_patch addr new_bytes pm = Some pm'
    /\ pm' = <[addr := Patch.init addr new_bytes]> pm
    /\ dom pm' = {[addr]} ∪ dom pm
    /\ PatchHighlight.revert (Patch.init addr new_bytes) pm' = pm.
Proof.
  intros Hk Hnone Hfree. eexists. split; [by apply auto_patch_fresh|].
  split; [done|]. split; [apply dom_insert_L|].
  unfold PatchHighlight.revert, remove_patch. cbn.
  rewrite delete_insert_eq. by apply delete_id.
Qed.

Lemma X7_write_then_revert_witness :
  let pm : PatchManager.t := {[0x1010 := Patch.init 0x1010 [1; 2; 3; 4]]} in
  exists pm',
    auto_patch 0x1020 [5; 6] pm = Some pm'
    /\ pm' = <[0x1020 := Patch.init 0x1020 [5; 6]]> pm
    /\ PatchHighlight.revert (Patch.init 0x1020 [5; 6]) pm' = pm.
Proof.
  intros pm.
  destruct (X7_write_then_revert pm 0x1020 [5; 6])
    as (pm' & H1 & H2 & _ & H4).
  - apply (wf_singleton (Patch.init 0x1010 [1; 2; 3; 4])).
  - apply lookup_singleton_ne. lia.
  - intros q x Hq. unfold holds in Hq.
    apply lookup_singleton_Some in Hq as [_ <-].
    unfold Patch.contains, Patch.len. simpl. lia.
  - exists pm'. exact (conj H1 (conj H2 H4)).
Defined.

Section PatchHighlights.

Implicit Types pm : PatchManager.t.

Lemma elem_of_values pm (q : Patch.t) :
  keyed pm -> q ∈ PatchHighlight.values pm <-> holds pm q.
Proof.
  intros Hk. unfold PatchHighlight.values, holds.
  rewrite merge_sort_Permutation, list_elem_of_fmap. split.
  - intros ([k p] & -> & Hin). apply elem_of_map_to_list in Hin.
    cbn. by rewrite (Hk _ _ Hin).
  - intros Hq. exists (Patch.addr q, q). split; [done|].
    by apply elem_of_map_to_list.
Qed.

Lemma NoDup_values pm : keyed pm -> NoDup (PatchHighlight.values pm).
Proof.
  intros Hk. unfold PatchHighlight.values. rewrite merge_sort_Permutation.
  apply (NoDup_fmap_1 Patch.addr).
  rewrite keyed_values_addr by done. apply NoDup_fst_map_to_list.
Qed.

Lemma under_cursor_patch_region (x : Z) (p : Patch.t) :
  under_cursor x (PatchHighlight.init p) = true <-> Patch.contains p x.
Proof. rewrite under_cursor_spec. reflexivity. Qed.

Lemma regions_under_patch_regions (x : Z) (l : list Patch.t) :
  regions_under x (PatchHighlight.init <$> l)
  = PatchHighlight.init <$> filter (fun p => Patch.contains p x) l.
Proof.
  induction l as [|p l IH]; [done|].
  rewrite fmap_cons. cbn [regions_under]. rewrite filter_cons.
  pose proof (under_cursor_patch_region x p) as Hu.
  destruct (under_cursor x (PatchHighlight.init p)); case_decide as Hd.
  - by rewrite fmap_cons, IH.
  - exfalso. apply Hd, Hu. reflexivity.
  - exfalso. apply Hu in Hd. discriminate Hd.
  - exact IH.
Qed.

Lemma regions_under_update (x lo hi : Z) (l : list Region.t) :
  regions_under x (map (update_region_active lo hi) l)
  = map (update_region_active lo hi) (regions_under x l).
Proof.
  induction l as [|r l IH]; [done|]. cbn [map regions_under].
  change (under_cursor x (update_region_active lo hi r))
    with (under_cursor x r).
  destruct (under_cursor x r); cbn [map]; by rewrite IH.
Qed.

(** After [_set_highlighted_regions] the cached lists carry the flags that
    the grid has computed, and the grid's list is the three of them one
    after the other. *)
Lemma _set_highlighted_regions_shared (v : HexView.t) :
  let v' := HexView._set_highlighted_regions v in
  let upd := map (update_region_active (active_range (HexView.hex v)).1
                    (active_range (HexView.hex v)).2) in
  HexView._cfb_highlights v' = upd (HexView._cfb_highlights v)
  /\ HexView._sync_view_highlights v' = upd (HexView._sync_view_highlights v)
  /\ HexView._patch_highlights v' = upd (HexView._patch_highlights v)
  /\ highlighted_regions (HexView.hex v')
     = HexView._cfb_highlights v' ++ HexView._sync_view_highlights v'
       ++ HexView._patch_highlights v'.
Proof.
  cbv zeta. unfold HexView._set_highlighted_regions. cbv zeta.
  cbn [HexView._cfb_highlights HexView._sync_view_highlights
       HexView._patch_highlights HexView.hex app].
  destruct (set_highlight_regions_regions (HexView.hex v)
              ((HexView._cfb_highlights v ++ HexView._sync_view_highlights v)
               ++ HexView._patch_highlights v)) as [-> _].
  rewrite <- app_assoc, !map_app.
  set (f := update_region_active _ _).
  assert (H1 : length (HexView._cfb_highlights v)
               = length (map f (HexView._cfb_highlights v)))
    by (by rewrite length_map).
  assert (H2 : length (HexView._sync_view_highlights v)
               = length (map f (HexView._sync_view_highlights v)))
    by (by rewrite length_map).
  set (a := map f (HexView._cfb_highlights v)) in *.
  set (b := map f (HexView._sync_view_highlights v)) in *.
  set (c := map f (HexView._patch_highlights v)) in *.
  assert (Ha : take (length (HexView._cfb_highlights v)) (a ++ b ++ c) = a)
    by (by apply take_app_length').
  assert (Hb : take (length (HexView._sync_view_highlights v))
                 (drop (length (HexView._cfb_highlights v)) (a ++ b ++ c))
               = b).
  { rewrite drop_app_length' by done. by apply take_app_length'. }
  assert (Hc : drop (length (HexView._cfb_highlights v)
                     + length (HexView._sync_view_highlights v))
                 (a ++ b ++ c) = c).
  { rewrite <- drop_drop, drop_app_length' by done.
    by apply drop_app_length'. }
  rewrite Ha, Hb, Hc. done.
Qed.

End PatchHighlights.

(** X8.  After [_update_highlight_regions_from_patches] on a well-formed
    collection the yellow patch regions mark exactly the patched
    addresses.  Under an address covered by a patch the cached list
    [_patch_highlights] has exactly one region: it spans that patch from
    its start address over its length, and it is flagged active exactly
    when the patch intersects the range from the cursor to the selection
    anchor (the closing [_set_highlighted_regions()] has the grid write the
    flag of the shared region object).  Under an address that no patch
    covers there is none.  There is one region per patch, and the grid's
    list ends with these regions, after those of the CFB and of the
    synchronized views. *)
Theorem X8_patch_regions_mark_patched_addresses (pm : PatchManager.t)
    (v : HexView.t) (x : Z) :
  wf pm ->
  let v' := HexView._update_highlight_regions_from_patches (Some pm) v in
  let minaddr := (active_range (HexView.hex v)).1 in
  let maxaddr := (active_range (HexView.hex v)).2 in
  (forall p, holds pm p -> Patch.contains p x ->
     regions_under x (HexView._patch_highlights v')
     = [Region.mk Qt_yellow (Patch.addr p) (Patch.len p)
          ((Patch.addr p <=? maxaddr)
           && (minaddr <=? Patch.addr p + Patch.len p - 1))])
  /\ ((forall p, holds pm p -> ~ Patch.contains p x) ->
        regions_under x (HexView._patch_highlights v') = [])
  /\ length (HexView._patch_highlights v') = size pm
  /\ highlighted_regions (HexView.hex v')
     = HexView._cfb_highlights v' ++ HexView._sync_view_highlights v'
       ++ HexView._patch_highlights v'.
Proof.
  intros Hwf. pose proof Hwf as [Hk _]. cbv zeta.
  unfold HexView._update_highlight_regions_from_patches. cbv zeta.
  set (v0 := HexView.set_patch_highlights _ v).
  destruct (_set_highlighted_regions_shared v0) as (_ & _ & Hp & Hgrid).
  cbv zeta in Hp, Hgrid. rewrite Hp.
  change (HexView.hex v0) with (HexView.hex v).
  change (HexView._patch_highlights v0)
    with (PatchHighlight.patch_highlights pm).
  split; [|split; [|split]].
  - intros p Hholds Hc. rewrite regions_under_update.
    unfold PatchHighlight.patch_highlights.
    rewrite regions_under_patch_regions.
    rewrite (singleton_list (filter _ _) p); [| | |].
    + cbn [fmap list_fmap map]. f_equal.
      unfold update_region_active, PatchHighlight.init, Region.init,
        Region.set_active. cbn [Region.addr Region.size Region.color].
      f_equal.
      destruct (Patch.addr p >? (active_range (HexView.hex v)).2) eqn:E1,
        (Patch.addr p <=? (active_range (HexView.hex v)).2) eqn:E2,
        ((active_range (HexView.hex v)).1
           >? Patch.addr p + Patch.len p - 1) eqn:E3,
        ((active_range (HexView.hex v)).1
           <=? Patch.addr p + Patch.len p - 1) eqn:E4;
        try reflexivity; lia.
    + apply NoDup_filter. by apply NoDup_values.
    + apply list_elem_of_filter. split; [done|]. by apply elem_of_values.
    + intros q Hq. apply list_elem_of_filter in Hq as [Hqc Hq].
      apply elem_of_values in Hq; [|done].
      by apply (wf_contains_unique pm q p x).
  - intros Hnone. rewrite regions_under_update.
    unfold PatchHighlight.patch_highlights.
    rewrite regions_under_patch_regions.
    destruct (filter _ _) as [|q rest] eqn:E; [done|].
    assert (q ∈ filter (fun p => Patch.contains p x) (PatchHighlight.values pm))
      as Hq by (rewrite E; left).
    apply list_elem_of_filter in Hq as [Hqc Hq].
    apply elem_of_values in Hq; [|done]. by destruct (Hnone q Hq).
  - rewrite length_map. unfold PatchHighlight.patch_highlights.
    rewrite length_fmap. unfold PatchHighlight.values.
    rewrite merge_sort_Permutation, length_fmap. apply length_map_to_list.
  - rewrite Hgrid. by rewrite Hp.
Qed.

Lemma X8_patch_regions_mark_patched_addresses_witness :
  let p := Patch.init 0x1010 [1; 2; 3; 4] in
  let pm : PatchManager.t := {[0x1010 := p]} in
  let h : HexGraphicsObject HexView.Project :=
    set_cursor 0x1012 None None
      (set_end_addr 0x1100
         (set_num_bytes 0x100 (set_start_addr 0x1000 (init true)))) in
  let v := HexView.mk h None [] [] [] in
  let v' := HexView._update_highlight_regions_from_patches (Some pm) v in
  regions_under 0x1012 (HexView._patch_highlights v')
  = [Region.mk Qt_yellow 0x1010 4 true]
  /\ regions_under 0x1014 (HexView._patch_highlights v') = []
  /\ highlighted_regions (HexView.hex v')
     = [Region.mk Qt_yellow 0x1010 4 true].
Proof.
  intros p pm h v v'.
  assert (Hwf : wf pm) by apply (wf_singleton p).
  destruct (X8_patch_regions_mark_patched_addresses pm v 0x1012 Hwf)
    as (H1 & _).
  destruct (X8_patch_regions_mark_patched_addresses pm v 0x1014 Hwf)
    as (_ & H2 & _).
  split; [|split; [|reflexivity]].
  - apply (H1 p); [unfold holds; apply lookup_singleton_eq|].
    unfold Patch.contains, Patch.len. simpl. lia.
  - apply H2. intros q Hq. unfold holds in Hq.
    apply lookup_singleton_Some in Hq as [_ <-].
    unfold Patch.contains, Patch.len. simpl. lia.
Defined.

(** X9.  The write callback that [HexView] installs never refuses a byte:
    for [0 <= value < 256] on a well-formed collection
    [project_memory_write_func(addr, value)] answers [True], leaves the
    memory of the binary alone, and afterwards the read callback returns
    [value] at [addr] and what it returned before at every other address.
    A value that is not a byte raises (the [ValueError] of
    [bytearray([value])]). *)
Theorem X9_write_callback (p : HexView.Project) (addr value : Z) :
  (~ 0 <= value < 256 -> HexView.project_memory_write_func addr value p = None)
  /\ (0 <= value < 256 -> wf (HexView.patches p) ->
        exists p',
          HexView.project_memory_write_func addr value p = Some (true, p')
          /\ HexView.memory p' = HexView.memory p
          /\ wf (HexView.patches p')
          /\ HexView.project_memory_read_func addr p' = Some (IntValue value)
          /\ (forall x, x <> addr ->
                HexView.project_memory_read_func x p'
                = HexView.project_memory_read_func x p)).
Proof.
  unfold HexView.project_memory_write_func. split.
  - intros Hv. destruct (0 <=? value) eqn:E1, (value <? 256) eqn:E2; cbn;
      try done; lia.
  - intros Hv Hwf. destruct (0 <=? value) eqn:E1; [|lia].
    destruct (value <? 256) eqn:E2; [|lia]. cbn [andb].
    unfold HexView.project_memory_write_bytearray.
    destruct (auto_patch_total addr [value] (HexView.patches p)) as [pm' E].
    rewrite E. cbn.
    destruct (auto_patch_view addr [value] (HexView.patches p) pm' Hwf
                ltac:(discriminate) E) as [Hwf' Hview].
    eexists. split; [reflexivity|]. cbn. split; [done|]. split; [done|].
    destruct p as [pm m]. cbn in *. split.
    + apply read_patched; [done|]. apply Hview.
      case_decide as Ht; [|unfold in_target in Ht; cbn in Ht; lia].
      by rewrite Z.sub_diag.
    + intros x Hx. apply read_ext; [done..|]. intros v. rewrite Hview.
      case_decide as Ht; [|done]. unfold in_target in Ht. cbn in Ht. lia.
Qed.

Lemma X9_write_callback_witness :
  let p := HexView.mkProject ∅ {[0x1000 := 0x90]} in
  HexView.project_memory_write_func 0x1000 256 p = None
  /\ exists p',
       HexView.project_memory_write_func 0x1000 0x41 p = Some (true, p')
       /\ HexView.project_memory_read_func 0x1000 p' = Some (IntValue 0x41).
Proof.
  intros p.
  destruct (X9_write_callback p 0x1000 256) as [H1 _].
  destruct (X9_write_callback p 0x1000 0x41) as [_ H2].
  split; [apply H1; lia|].
  destruct (H2 ltac:(lia) wf_empty) as (p' & Hw & _ & _ & Hr & _).
  exists p'. exact (conj Hw Hr).
Defined.

Section Clipboard.

Lemma get_selection_Some {World} (h : HexGraphicsObject World) (lo hi : Z) :
  get_selection h = Some (lo, hi) ->
  exists sel, selection_start h = Some sel
    /\ start_addr h <= cursor h < end_addr h
    /\ lo = Z.min (cursor h) sel /\ hi = Z.max (cursor h) sel.
Proof.
  unfold get_selection. destruct (selection_start h) as [sel|]; [|done].
  destruct (start_addr h <=? cursor h) eqn:E1; [|done].
  destruct (cursor h <? end_addr h) eqn:E2; [|done]. cbn.
  intros [= <- <-]. exists sel. repeat split; lia.
Qed.

Lemma copy_bytes_spec (lo : Z) (p : HexView.Project) (addrs : list Z) :
  forall clip,
    (forall a, a ∈ addrs -> lo <= a) ->
    (forall a, a ∈ addrs -> is_Some (HexView.project_memory_read_func a p)) ->
    (forall a b, a ∈ addrs ->
       HexView.project_memory_read_func a p = Some (IntValue b) ->
       0 <= b < 256) ->
    exists clip',
      HexView.copy_bytes lo p clip addrs = Some clip'
      /\ length clip' = length clip
      /\ (forall i, lo + Z.of_nat i ∉ addrs -> clip' !! i = clip !! i)
      /\ (forall i b, lo + Z.of_nat i ∈ addrs -> (i < length clip)%nat ->
            HexView.project_memory_read_func (lo + Z.of_nat i) p
            = Some (IntValue b) ->
            clip' !! i = Some b)
      /\ (forall i s,
            HexView.project_memory_read_func (lo + Z.of_nat i) p
            = Some (StrValue s) ->
            clip' !! i = clip !! i).
Proof.
  induction addrs as [|a rest IH]; intros clip Hlo Htot Hbyte.
  - exists clip. cbn. repeat split; try done.
    intros i b Hin. by apply elem_of_nil in Hin.
  - assert (Hlo' : forall a', a' ∈ rest -> lo <= a')
      by (intros; apply Hlo; by right).
    assert (Htot' : forall a', a' ∈ rest ->
              is_Some (HexView.project_memory_read_func a' p))
      by (intros; apply Htot; by right).
    assert (Hbyte' : forall a' b, a' ∈ rest ->
              HexView.project_memory_read_func a' p = Some (IntValue b) ->
              0 <= b < 256)
      by (intros a' b ?; apply Hbyte; by right).
    assert (Hidx : forall i : nat, Z.to_nat (a - lo) = i <-> a = lo + Z.of_nat i).
    { pose proof (Hlo a ltac:(left)). intros i. lia. }
    destruct (Htot a ltac:(left)) as [d Hd].
    cbn [HexView.copy_bytes]. unfold HexView.copy_byte at 1. rewrite Hd. cbn.
    destruct d as [d|s].
    + pose proof (Hbyte a d ltac:(left) Hd) as Hb.
      destruct (0 <=? d) eqn:E1; [|lia]. destruct (d <? 256) eqn:E2; [|lia].
      cbn.
      destruct (IH (<[Z.to_nat (a - lo) := d]> clip) Hlo' Htot' Hbyte')
        as (clip' & Hc & Hlen & Ha & Hb' & Hs).
      rewrite length_insert in Hlen, Hb'.
      exists clip'. split; [done|]. split; [done|]. split; [|split].
      * intros i Hni. rewrite not_elem_of_cons in Hni. destruct Hni as [Hne Hni].
        rewrite (Ha i Hni). apply list_lookup_insert_ne.
        intros Heq. apply Hidx in Heq. congruence.
      * intros i b Hin Hi Hr.
        destruct (decide (lo + Z.of_nat i ∈ rest)) as [Hin'|Hni].
        { by apply Hb'. }
        apply elem_of_cons in Hin as [Heq|Hin]; [|done].
        rewrite (Ha i Hni).
        assert (b = d) as -> by (rewrite Heq, Hd in Hr; congruence).
        symmetry in Heq. apply Hidx in Heq. rewrite Heq.
        by apply list_lookup_insert_eq.
      * intros i s Hr. rewrite (Hs i s Hr). apply list_lookup_insert_ne.
        intros Heq. apply Hidx in Heq. rewrite <- Heq, Hd in Hr. discriminate Hr.
    + destruct (IH clip Hlo' Htot' Hbyte')
        as (clip' & Hc & Hlen & Ha & Hb' & Hs).
      exists clip'. split; [done|]. split; [done|]. split; [|split].
      * intros i Hni. rewrite not_elem_of_cons in Hni. destruct Hni as [_ Hni].
        by apply Ha.
      * intros i b Hin Hi Hr.
        apply elem_of_cons in Hin as [Heq|Hin]; [|by apply Hb'].
        rewrite Heq, Hd in Hr. discriminate Hr.
      * done.
Qed.

Lemma elem_of_seqZ_range (lo hi x : Z) :
  x ∈ seqZ lo (hi + 1 - lo) <-> lo <= x <= hi.
Proof. rewrite elem_of_seqZ. lia. Qed.

(** The clipboard after a copy of the addresses [lo] to [hi]. *)
Lemma copy_range (p : HexView.Project) (lo hi : Z) :
  wf (HexView.patches p) -> lo <= hi -> reads_bytes p lo hi ->
  exists clip,
    HexView.copy_bytes lo p (replicate (Z.to_nat (hi - lo + 1)) 0)
      (seqZ lo (hi + 1 - lo)) = Some clip
    /\ Z.of_nat (length clip) = hi - lo + 1
    /\ forall i : nat, (i < length clip)%nat ->
         clip !! i = Some (copied_byte p (lo + Z.of_nat i)).
Proof.
  intros Hwf Hle Hbytes.
  destruct (copy_bytes_spec lo p (seqZ lo (hi + 1 - lo))
              (replicate (Z.to_nat (hi - lo + 1)) 0))
    as (clip & Hc & Hlen & _ & Hb & Hs).
  - intros a Ha. apply elem_of_seqZ_range in Ha. lia.
  - intros a _. destruct p as [pm m]. by apply read_total.
  - intros a b Ha. apply elem_of_seqZ_range in Ha. by apply Hbytes.
  - rewrite length_replicate in Hlen, Hb. exists clip. split; [done|].
    split; [lia|]. intros i Hi. unfold copied_byte.
    assert (Hin : lo + Z.of_nat i ∈ seqZ lo (hi + 1 - lo))
      by (apply elem_of_seqZ_range; lia).
    destruct p as [pm m].
    destruct (read_total pm m (lo + Z.of_nat i) Hwf) as [d Hd].
    rewrite Hd. destruct d as [b|s].
    + apply Hb; [done|lia|done].
    + rewrite (Hs i s Hd). apply lookup_replicate_2. lia.
Qed.

End Clipboard.

(** X10.  [_copy_selected_bytes] on a selection [(lo, hi)] fills the
    clipboard with exactly [_get_num_selected_bytes()] = [hi - lo + 1]
    bytes, at least one; entry [i] is the number that the read callback
    returns at [lo + i], and zero where it returns the placeholder string
    of an address without data.  The rest of the view is untouched. *)
Theorem X10_copy_selected_bytes (p : HexView.Project) (v : HexView.t)
    (lo hi : Z) :
  wf (HexView.patches p) ->
  get_selection (HexView.hex v) = Some (lo, hi) ->
  reads_bytes p lo hi ->
  exists clip,
    HexView._copy_selected_bytes p v
    = Some (HexView.set_clipboard (Some clip) v)
    /\ Z.of_nat (length clip) = HexView._get_num_selected_bytes v
    /\ 0 < HexView._get_num_selected_bytes v
    /\ forall i : nat, (i < length clip)%nat ->
         clip !! i = Some (copied_byte p (lo + Z.of_nat i)).
Proof.
  intros Hwf Hsel Hbytes.
  destruct (get_selection_Some _ lo hi Hsel) as (sel & _ & _ & -> & ->).
  set (lo := Z.min _ _) in *. set (hi := Z.max _ _) in *.
  assert (Hle : lo <= hi) by (subst lo hi; lia).
  destruct (copy_range p lo hi Hwf Hle Hbytes) as (clip & Hc & Hlen & Hget).
  unfold HexView._copy_selected_bytes, HexView._get_num_selected_bytes.
  rewrite Hsel. rewrite Hc. cbn. exists clip.
  split; [done|]. split; [done|]. split; [lia|done].
Qed.

Lemma X10_copy_selected_bytes_witness :
  let p := HexView.mkProject {[2 := Patch.init 2 [0xAA; 0xBB]]}
             {[1 := 0x11; 2 := 0x22]} in
  let h : HexGraphicsObject HexView.Project :=
    set_cursor 4 None None
      (begin_selection
         (set_cursor 1 None None
            (set_end_addr 16 (set_num_bytes 16 (init true))))) in
  let v := HexView.mk h None [] [] [] in
  exists clip,
    HexView._copy_selected_bytes p v
    = Some (HexView.set_clipboard (Some clip) v)
    /\ Z.of_nat (length clip) = 4
    /\ clip !! 0%nat = Some 0x11
    /\ clip !! 1%nat = Some 0xAA
    /\ clip !! 3%nat = Some 0.
Proof.
  intros p h v.
  assert (Hwf : wf (HexView.patches p))
    by apply (wf_singleton (Patch.init 2 [0xAA; 0xBB])).
  assert (Hsel : get_selection (HexView.hex v) = Some (1, 4)) by reflexivity.
  assert (Hbytes : reads_bytes p 1 4).
  { intros x b Hx.
    assert (x = 1 \/ x = 2 \/ x = 3 \/ x = 4) as [-> | [-> | [-> | ->]]]
      by lia; intros H; vm_compute in H;
      first [discriminate H | injection H as <-; lia]. }
  destruct (X10_copy_selected_bytes p v 1 4 Hwf Hsel Hbytes)
    as (clip & Hc & Hlen & _ & Hget).
  exists clip.
  assert (Hn : length clip = 4%nat) by (change (HexView._get_num_selected_bytes v) with 4 in Hlen; lia).
  exact (conj Hc (conj Hlen
    (conj (Hget 0%nat ltac:(lia))
      (conj (Hget 1%nat ltac:(lia)) (Hget 3%nat ltac:(lia)))))).
Defined.

(** X11.  Copy, then paste.  After [_copy_selected_bytes] on a selection
    [(lo, hi)], [_paste_copied_bytes_at_cursor] does not raise and leaves
    the memory of the binary alone; afterwards the [hi - lo + 1] addresses
    from the cursor on read as the copied bytes and every other address
    reads as before.  With the cursor at the low end of the selection and a
    number at every selected address, nothing that the view reads has
    changed. *)
Theorem X11_copy_then_paste (p : HexView.Project) (v v' : HexView.t)
    (lo hi : Z) :
  wf (HexView.patches p) ->
  get_selection (HexView.hex v) = Some (lo, hi) ->
  reads_bytes p lo hi ->
  HexView._copy_selected_bytes p v = Some v' ->
  exists p',
    HexView._paste_copied_bytes_at_cursor p v' = Some p'
    /\ wf (HexView.patches p')
    /\ HexView.memory p' = HexView.memory p
    /\ (forall x,
          HexView.project_memory_read_func x p'
          = if decide (in_target (cursor (HexView.hex v)) (hi - lo + 1) x)
            then Some (IntValue
                         (copied_byte p (lo + (x - cursor (HexView.hex v)))))
            else HexView.project_memory_read_func x p)
    /\ (cursor (HexView.hex v) = lo ->
        (forall x, lo <= x <= hi ->
           exists b, HexView.project_memory_read_func x p
                     = Some (IntValue b)) ->
        forall x,
          HexView.project_memory_read_func x p'
          = HexView.project_memory_read_func x p).
Proof.
  intros Hwf Hsel Hbytes Hcopy.
  destruct (get_selection_Some _ lo hi Hsel) as (sel & _ & _ & Hlo & Hhi).
  assert (Hle : lo <= hi) by lia.
  destruct (copy_range p lo hi Hwf Hle Hbytes) as (clip & Hc & Hlen & Hget).
  unfold HexView._copy_selected_bytes in Hcopy. rewrite Hsel in Hcopy.
  rewrite Hc in Hcopy. cbn in Hcopy. injection Hcopy as <-.
  unfold HexView._paste_copied_bytes_at_cursor. cbn.
  set (c := cursor (HexView.hex v)).
  unfold HexView.project_memory_write_bytearray.
  destruct (auto_patch_total c clip (HexView.patches p)) as [pm' E].
  rewrite E. cbn.
  assert (Hne : clip <> []) by (intros ->; cbn in Hlen; lia).
  destruct (auto_patch_view c clip (HexView.patches p) pm' Hwf Hne E)
    as [Hwf' Hview].
  rewrite Hlen in Hview.
  assert (Hread : forall x,
            HexView.project_memory_read_func x
              (HexView.mkProject pm' (HexView.memory p))
            = if decide (in_target c (hi - lo + 1) x)
              then Some (IntValue (copied_byte p (lo + (x - c))))
              else HexView.project_memory_read_func x p).
  { intros x. destruct p as [pm m]. cbn in *.
    destruct (decide (in_target c (hi - lo + 1) x)) as [Ht|Ht].
    - apply read_patched; [done|]. apply Hview.
      rewrite decide_True by done. unfold in_target in Ht.
      rewrite (Hget (Z.to_nat (x - c))) by lia.
      do 3 f_equal. lia.
    - apply read_ext; [done..|]. intros b. rewrite Hview.
      by rewrite decide_False. }
  eexists. split; [reflexivity|]. cbn. split; [done|]. split; [done|].
  split; [done|].
  intros Hcur Hknown x. rewrite Hread. case_decide as Ht; [|done].
  unfold in_target in Ht. rewrite Hcur in Ht |- *.
  replace (lo + (x - lo)) with x by lia.
  destruct (Hknown x ltac:(lia)) as [b Hb].
  unfold copied_byte. by rewrite Hb.
Qed.

Lemma X11_copy_then_paste_witness :
  let p := HexView.mkProject {[2 := Patch.init 2 [0xAA; 0xBB]]}
             {[1 := 0x11; 2 := 0x22]} in
  let h : HexGraphicsObject HexView.Project :=
    set_cursor 1 None None
      (begin_selection
         (set_cursor 3 None None
            (set_end_addr 16 (set_num_bytes 16 (init true))))) in
  let v := HexView.mk h None [] [] [] in
  exists v' p',
    HexView._copy_selected_bytes p v = Some v'
    /\ HexView._paste_copied_bytes_at_cursor p v' = Some p'
    /\ forall x, HexView.project_memory_read_func x p'
                 = HexView.project_memory_read_func x p.
Proof.
  intros p h v.
  assert (Hwf : wf (HexView.patches p))
    by apply (wf_singleton (Patch.init 2 [0xAA; 0xBB])).
  assert (Hsel : get_selection (HexView.hex v) = Some (1, 3)) by reflexivity.
  assert (Hbytes : reads_bytes p 1 3).
  { intros x b Hx.
    assert (x = 1 \/ x = 2 \/ x = 3) as [-> | [-> | ->]]
      by lia; intros H; vm_compute in H;
      first [discriminate H | injection H as <-; lia]. }
  destruct (HexView._copy_selected_bytes p v) as [v'|] eqn:Hcopy;
    [|by vm_compute in Hcopy].
  destruct (X11_copy_then_paste p v v' 1 3 Hwf Hsel Hbytes Hcopy)
    as (p' & Hpaste & _ & _ & _ & Hsame).
  exists v', p'. split; [reflexivity|]. split; [exact Hpaste|].
  apply Hsame; [reflexivity|].
  intros x Hx.
  assert (x = 1 \/ x = 2 \/ x = 3) as [-> | [-> | ->]] by lia;
    eexists; by vm_compute.
Defined.

Section GridRows.
Import Geometry.

Lemma land_0xf_mod (s : Z) : Z.land s 0xf = s mod 16.
Proof. apply land15_mod. Qed.

(** Below [2^53] the float division of [_update_layout] is exact. *)
Lemma nearest_double_small (a : Z) : 0 <= a < 2 ^ 53 -> nearest_double a = a.
Proof.
  intros Ha. unfold nearest_double. cbv zeta.
  destruct (Z.log2 a - 52 <=? 0) eqn:E; [done|].
  apply Z.leb_gt in E.
  assert (Z.log2 a < 53) by (apply Z.log2_lt_pow2; lia || (destruct (decide (a = 0)) as [->|]; [cbn in E; lia|lia])).
  lia.
Qed.

Lemma int_div16_small (a : Z) : 0 <= a < 2 ^ 53 -> int_div16 a = Some (a / 16).
Proof.
  intros Ha. unfold int_div16. cbv zeta. rewrite nearest_double_small by done.
  destruct (a <? 2 ^ 1028) eqn:E; [done|].
  apply Z.ltb_ge in E.
  assert (2 ^ 53 <= 2 ^ 1028) by (apply Z.pow_le_mono_r; lia). lia.
Qed.

Lemma addr_to_row_col_inverse (s row col : Z) :
  0 <= col < 16 ->
  addr_to_row_col s (row_col_to_addr s row col) = (row, col).
Proof.
  intros Hc. rewrite row_col_of_addr. unfold row_col_to_addr.
  replace (row_base s + row * 16 + col - row_base s) with (col + row * 16)
    by lia.
  rewrite Z.div_add, Z.mod_add by lia.
  rewrite Z.div_small, Z.mod_small by lia. f_equal; lia.
Qed.

Lemma addr_to_row_col_step (s a k : Z) :
  addr_to_row_col s (a + 16 * k)
  = ((addr_to_row_col s a).1 + k, (addr_to_row_col s a).2).
Proof.
  rewrite !row_col_of_addr. cbn [fst snd].
  replace (a + 16 * k - row_base s) with (a - row_base s + k * 16) by lia.
  by rewrite Z.div_add, Z.mod_add by lia.
Qed.

End GridRows.

(** X12.  The grid coordinates are a bijection.  For every row and every
    column [0 <= col < 16], [addr_to_row_col(row_col_to_addr(row, col))] is
    [(row, col)] again; the first address of a row is [row_to_addr(row)];
    and an address [16 * k] further on is [k] rows further down in the same
    column, which is what the Up, Down, PageUp and PageDown keys rely on. *)
Theorem X12_grid_coordinates (s row col : Z) :
  0 <= col < 16 ->
  Geometry.addr_to_row_col s (Geometry.row_col_to_addr s row col) = (row, col)
  /\ Geometry.row_col_to_addr s row 0 = Geometry.row_to_addr s row
  /\ (forall a k,
        Geometry.addr_to_row_col s (a + 16 * k)
        = ((Geometry.addr_to_row_col s a).1 + k,
           (Geometry.addr_to_row_col s a).2))
  /\ (forall k : MovementKey,
        k <> Key_Left -> k <> Key_Right ->
        forall a,
          (Geometry.addr_to_row_col s (a + movement_keys k)).2
          = (Geometry.addr_to_row_col s a).2).
Proof.
  intros Hc. split; [by apply addr_to_row_col_inverse|].
  split; [unfold Geometry.row_col_to_addr, Geometry.row_to_addr; lia|].
  split; [intros; apply addr_to_row_col_step|].
  intros k Hl Hr a.
  assert (exists j, movement_keys k = 16 * j) as [j ->].
  { destruct k; try done; cbn;
      [exists (-1)|exists 1|exists (-8)|exists 8]; lia. }
  by rewrite addr_to_row_col_step.
Qed.

Lemma X12_grid_coordinates_witness :
  Geometry.addr_to_row_col 0x1005 (Geometry.row_col_to_addr 0x1005 3 7)
  = (3, 7)
  /\ Geometry.row_col_to_addr 0x1005 3 0 = Geometry.row_to_addr 0x1005 3.
Proof.
  destruct (X12_grid_coordinates 0x1005 3 7 ltac:(lia)) as (H1 & _).
  destruct (X12_grid_coordinates 0x1005 3 0 ltac:(lia)) as (_ & H2 & _).
  exact (conj H1 H2).
Defined.

(** X13.  The row count of [_update_layout] is the number of grid rows
    that the region occupies.  For a region of [0 < num_bytes] bytes, small
    enough for the float division to be exact, [num_rows] is defined, every
    address of the region lies on a row [0 <= row < num_rows], the first
    address on row 0 and the last one on row [num_rows - 1].  An empty
    region has no rows. *)
Theorem X13_num_rows (s n : Z) :
  (0 < n -> n + 30 < 2 ^ 53 ->
   exists rows,
     Geometry.num_rows s n = Some rows
     /\ (Geometry.addr_to_row_col s s).1 = 0
     /\ (Geometry.addr_to_row_col s (s + n - 1)).1 = rows - 1
     /\ forall a, s <= a < s + n ->
          0 <= (Geometry.addr_to_row_col s a).1 < rows)
  /\ (n <= 0 -> Geometry.num_rows s n = Some 0).
Proof.
  split.
  - intros Hn Hsmall. unfold Geometry.num_rows.
    destruct (n >? 0) eqn:E; [|lia]. rewrite land_0xf_mod.
    pose proof (Z.mod_pos_bound s 16 ltac:(lia)) as Hm.
    rewrite int_div16_small by lia.
    eexists. split; [reflexivity|].
    assert (Hrow : forall a, (Geometry.addr_to_row_col s a).1
                             = (a - s + s mod 16) / 16).
    { intros a. rewrite row_col_of_addr, row_base_round_down. cbn [fst].
      f_equal. pose proof (Z.div_mod s 16 ltac:(lia)). lia. }
    split; [|split].
    + rewrite Hrow. replace (s - s + s mod 16) with (s mod 16) by lia.
      by apply Z.div_small.
    + rewrite Hrow.
      replace (n + s mod 16 + 15) with (s + n - 1 - s + s mod 16 + 1 * 16)
        by lia.
      rewrite Z.div_add by lia. lia.
    + intros a Ha. rewrite Hrow. split.
      * apply Z.div_pos; lia.
      * apply Z.div_lt_upper_bound; [lia|].
        pose proof (Z.mul_div_le (n + s mod 16 + 15) 16 ltac:(lia)).
        pose proof (Z.mod_pos_bound (n + s mod 16 + 15) 16 ltac:(lia)).
        pose proof (Z.div_mod (n + s mod 16 + 15) 16 ltac:(lia)). lia.
  - intros Hn. unfold Geometry.num_rows. destruct (n >? 0) eqn:E; [lia|done].
Qed.

Lemma X13_num_rows_witness :
  Geometry.num_rows 0x1005 0x20 = Some 3
  /\ (Geometry.addr_to_row_col 0x1005 (0x1005 + 0x20 - 1)).1 = 2
  /\ Geometry.num_rows 0x1005 0 = Some 0.
Proof.
  destruct (X13_num_rows 0x1005 0x20) as [H1 _].
  destruct (X13_num_rows 0x1005 0) as [_ H2].
  destruct (H1 ltac:(lia) ltac:(lia)) as (rows & Hr & _ & Hlast & _).
  assert (rows = 3) as -> by (vm_compute in Hr; congruence).
  exact (conj Hr (conj Hlast (H2 ltac:(lia)))).
Defined.

Section DoubleClick.

Context {World : Type}.
Implicit Types self : HexGraphicsObject World.

#[local] Instance key_le_trans key : Transitive (key_le key).
Proof. intros x y z. unfold key_le. lia. Qed.

(** The region that a double click picks lies under the cursor, and no
    region under the cursor starts later. *)
Lemma double_click_first self (r : Region.t) (rest : list Region.t) :
  double_click_candidates self = r :: rest ->
  r ∈ highlighted_regions self
  /\ Region.addr r <= cursor self < Region.addr r + Region.size r
  /\ forall r', r' ∈ highlighted_regions self ->
       Region.addr r' <= cursor self < Region.addr r' + Region.size r' ->
       Region.addr r' <= Region.addr r.
Proof.
  intros Hc. unfold double_click_candidates in Hc.
  set (key := fun r0 : Region.t => cursor self - Region.addr r0) in *.
  assert (Hin : forall r', r' ∈ r :: rest <->
            r' ∈ highlighted_regions self
            /\ Region.addr r' <= cursor self
               < Region.addr r' + Region.size r').
  { intros r'. rewrite <- Hc, sorted_Permutation.
    unfold get_highlight_regions_under_cursor.
    rewrite regions_under_filter, list_elem_of_filter. tauto. }
  destruct (proj1 (Hin r) ltac:(left)) as [Hr Hu].
  split; [done|]. split; [done|]. intros r' Hr' Hu'.
  assert (Hr2 : r' ∈ r :: rest) by (by apply Hin).
  pose proof (sorted_Sorted key (get_highlight_regions_under_cursor self))
    as Hs.
  rewrite Hc in Hs. apply Sorted_StronglySorted in Hs; [|apply _].
  apply StronglySorted_inv in Hs as [_ Hall].
  apply elem_of_cons in Hr2 as [->|Hr2]; [lia|].
  rewrite Forall_forall in Hall. specialize (Hall r' Hr2).
  unfold key_le, key in Hall. lia.
Qed.

Lemma mouseDoubleClickEvent_selects self (r : Region.t)
    (rest : list Region.t) :
  double_click_candidates self = r :: rest ->
  _processing_cursor_update self = false ->
  start_addr self <= Region.addr r ->
  Region.addr r + Region.size r <= end_addr self ->
  let s' := mouseDoubleClickEvent self in
  cursor s' = Region.addr r
  /\ selection_start s' = Some (Region.addr r + Region.size r - 1)
  /\ get_selection s' = Some (Region.addr r, Region.addr r + Region.size r - 1).
Proof.
  intros Hc Hp Hlo Hhi.
  destruct (double_click_first self r rest Hc) as (_ & Hu & _).
  unfold mouseDoubleClickEvent. rewrite Hc. cbv zeta.
  set (e := Region.addr r + Region.size r - 1).
  assert (Ha1 : accepted self e) by (split; [lia|done]).
  destruct (set_cursor_accepted self e None None Ha1)
    as (Hc1 & _ & Hs1 & He1 & _ & Hp1 & _).
  set (s1 := set_cursor e None None self) in *.
  assert (Ha2 : accepted (begin_selection s1) (Region.addr r)).
  { split; cbn; [rewrite Hs1, He1; lia|done]. }
  destruct (set_cursor_accepted (begin_selection s1) (Region.addr r)
              None None Ha2) as (Hc2 & _ & Hs2 & He2 & Hsel2 & _).
  cbn in Hs2, He2, Hsel2. rewrite Hc1 in Hsel2.
  split; [done|]. split; [done|].
  unfold get_selection. rewrite Hsel2, Hc2, Hs2, He2, Hs1, He1.
  destruct (start_addr self <=? Region.addr r) eqn:E1; [|lia].
  destruct (Region.addr r <? end_addr self) eqn:E2; [|lia]. cbn.
  f_equal. f_equal; lia.
Qed.

End DoubleClick.

(** X14.  A double click selects the innermost region under the cursor.
    The region [r] that [mouseDoubleClickEvent] picks is one of the
    highlighted regions, lies under the cursor, and starts no earlier than
    any other region under the cursor.  When [r] lies inside the displayed
    range and no cursor move is in progress, the handler leaves the cursor
    on the first byte of [r] with the selection anchored at its last byte,
    so [get_selection()] is [(r.addr, r.addr + r.size - 1)]. *)
Theorem X14_double_click_selects_region {World : Type}
    (self : HexGraphicsObject World) (r : Region.t) (rest : list Region.t) :
  double_click_candidates self = r :: rest ->
  (r ∈ highlighted_regions self
   /\ Region.addr r <= cursor self < Region.addr r + Region.size r
   /\ forall r', r' ∈ highlighted_regions self ->
        Region.addr r' <= cursor self < Region.addr r' + Region.size r' ->
        Region.addr r' <= Region.addr r)
  /\ (_processing_cursor_update self = false ->
      start_addr self <= Region.addr r ->
      Region.addr r + Region.size r <= end_addr self ->
      cursor (mouseDoubleClickEvent self) = Region.addr r
      /\ selection_start (mouseDoubleClickEvent self)
         = Some (Region.addr r + Region.size r - 1)
      /\ get_selection (mouseDoubleClickEvent self)
         = Some (Region.addr r, Region.addr r + Region.size r - 1)).
Proof.
  intros Hc. split; [by eapply double_click_first|].
  intros Hp Hlo Hhi. by eapply mouseDoubleClickEvent_selects.
Qed.

Lemma X14_double_click_selects_region_witness :
  double_click_candidates Demo.idle
  = [Region.mk hex_view_instruction_color 4 4 true]
  /\ cursor (mouseDoubleClickEvent Demo.idle) = 4
  /\ get_selection (mouseDoubleClickEvent Demo.idle) = Some (4, 7).
Proof.
  assert (Hc : double_click_candidates Demo.idle
               = [Region.mk hex_view_instruction_color 4 4 true])
    by reflexivity.
  destruct (X14_double_click_selects_region Demo.idle _ _ Hc) as [_ H].
  destruct (H eq_refl ltac:(simpl; lia) ltac:(simpl; lia)) as (H1 & _ & H3).
  exact (conj Hc (conj H1 H3)).
Defined.

Section KeyboardSelection.

Context {World : Type}.
Implicit Types self : HexGraphicsObject World.

(** [set_cursor] never touches the selection anchor. *)
Lemma set_cursor_selection_frame self addr ascii_column nibble :
  selection_start (set_cursor addr ascii_column nibble self)
  = selection_start self.
Proof.
  destruct (set_cursor_cases self addr ascii_column nibble) as [Ha | ->];
    [|done].
  by destruct (set_cursor_accepted self addr ascii_column nibble Ha)
    as (_ & _ & _ & _ & Hsel & _).
Qed.

Lemma keyPressEvent_movement_anchor self k shift :
  selection_start (keyPressEvent_movement k shift self)
  = if shift then Some (default (cursor self) (selection_start self))
    else None.
Proof.
  unfold keyPressEvent_movement. rewrite set_cursor_selection_frame.
  destruct shift; [|done].
  destruct (selection_start self) as [sel|] eqn:E; [|done].
  cbn. by rewrite E.
Qed.

Lemma get_selection_in_bounds self (anchor : Z) :
  in_bounds self -> selection_start self = Some anchor ->
  get_selection self
  = Some (Z.min (cursor self) anchor, Z.max (cursor self) anchor).
Proof.
  unfold in_bounds, get_selection. intros Hin ->.
  destruct (start_addr self <=? cursor self) eqn:E1; [|lia].
  destruct (cursor self <? end_addr self) eqn:E2; [|lia]. done.
Qed.

Lemma shift_movement_run self (k : MovementKey) (ks : list MovementKey) :
  in_bounds self ->
  let s' := foldl (fun s k0 => keyPressEvent_movement k0 true s) self
              (k :: ks) in
  selection_start s'
  = Some (default (cursor self) (selection_start self))
  /\ in_bounds s'.
Proof.
  revert self k. induction ks as [|k2 ks IH]; intros self k Hin.
  - cbn. split; [apply keyPressEvent_movement_anchor|].
    by apply keyPressEvent_movement_in_bounds.
  - cbn [foldl].
    pose proof (keyPressEvent_movement_in_bounds self k true Hin) as Hin1.
    destruct (IH (keyPressEvent_movement k true self) k2 Hin1) as [Hs Hb].
    cbn [foldl] in Hs, Hb. split; [|done].
    rewrite Hs, keyPressEvent_movement_anchor. done.
Qed.

End KeyboardSelection.

(** X15.  Holding Shift while moving keeps the selection anchored.  After
    any non-empty run of movement keys pressed with Shift, on a grid whose
    cursor is in bounds, the anchor is where it was before the run (the old
    anchor, or the old cursor when nothing was selected), whether or not
    the moves were accepted; [get_selection()] is the range between that
    anchor and the cursor, both included.  The next movement key pressed
    without Shift drops the selection. *)
Theorem X15_shift_movement_keeps_anchor {World : Type}
    (self : HexGraphicsObject World) (k : MovementKey)
    (ks : list MovementKey) :
  in_bounds self ->
  let anchor := default (cursor self) (selection_start self) in
  let s' := foldl (fun s k0 => keyPressEvent_movement k0 true s) self
              (k :: ks) in
  selection_start s' = Some anchor
  /\ in_bounds s'
  /\ get_selection s'
     = Some (Z.min (cursor s') anchor, Z.max (cursor s') anchor)
  /\ forall k', get_selection (keyPressEvent_movement k' false s') = None.
Proof.
  intros Hin anchor s'.
  destruct (shift_movement_run self k ks Hin) as [Hs Hb].
  fold s' in Hs, Hb. fold anchor in Hs.
  split; [done|]. split; [done|].
  split; [by apply get_selection_in_bounds|].
  intros k'. unfold get_selection.
  by rewrite keyPressEvent_movement_anchor.
Qed.

Lemma X15_shift_movement_keeps_anchor_witness :
  let s' := foldl (fun s k0 => keyPressEvent_movement k0 true s) Demo.idle
              [Key_Right; Key_Down; Key_Down; Key_Left] in
  in_bounds Demo.idle
  /\ cursor s' = 5
  /\ get_selection s' = Some (5, 5)
  /\ get_selection (keyPressEvent_movement Key_Left false s') = None.
Proof.
  intros s'.
  assert (Hin : in_bounds Demo.idle) by (unfold in_bounds; simpl; lia).
  destruct (X15_shift_movement_keeps_anchor Demo.idle Key_Right
              [Key_Down; Key_Down; Key_Left] Hin) as (_ & _ & Hsel & Hclr).
  exact (conj Hin (conj eq_refl (conj Hsel (Hclr Key_Left)))).
Defined.

Section NibbleArithmetic.

Lemma merged_nibble_table :
  forallb (fun v =>
    forallb (fun x =>
      (merged_nibble (IntValue v) 1 x =? 16 * x + v mod 16)
      && (merged_nibble (IntValue v) 0 x =? 16 * (v / 16) + x))
      (seqZ 0 16))
    (seqZ 0 256) = true.
Proof. vm_compute. reflexivity. Qed.

(** On a byte [v] and a hex digit [x] the bit operations of
    [_set_nibble_value] replace one hex digit of [v]. *)
Lemma merged_nibble_byte (v x : Z) :
  0 <= v < 256 -> 0 <= x < 16 ->
  merged_nibble (IntValue v) 1 x = 16 * x + v mod 16
  /\ merged_nibble (IntValue v) 0 x = 16 * (v / 16) + x.
Proof.
  intros Hv Hx. pose proof merged_nibble_table as H.
  rewrite forallb_forall in H.
  specialize (H v). rewrite forallb_forall in H.
  assert (Hvin : In v (seqZ 0 256))
    by (apply list_elem_of_In, elem_of_seqZ; lia).
  assert (Hxin : In x (seqZ 0 16))
    by (apply list_elem_of_In, elem_of_seqZ; lia).
  specialize (H Hvin x Hxin). apply andb_true_iff in H as [H1 H2].
  split; lia.
Qed.

Lemma merged_nibble_unknown (s : string) (n x : Z) :
  0 <= n -> merged_nibble (StrValue s) n x = x * 2 ^ (n * 4).
Proof.
  intros Hn. unfold merged_nibble. rewrite Z.lor_0_l.
  apply Z.shiftl_mul_pow2. lia.
Qed.

End NibbleArithmetic.

(** X16.  The byte that [_set_nibble_value] writes.  For a byte [v] read
    at the cursor and a hex digit [x], writing the high nibble gives
    [16 * x + v mod 16] and writing the low nibble gives
    [16 * (v / 16) + x]: the other digit is kept and the result is a byte
    again.  Where the read gives no number the old value counts as 0. *)
Theorem X16_nibble_replaces_one_digit (v x : Z) (s : string) :
  0 <= v < 256 -> 0 <= x < 16 ->
  merged_nibble (IntValue v) 1 x = 16 * x + v mod 16
  /\ merged_nibble (IntValue v) 0 x = 16 * (v / 16) + x
  /\ merged_nibble (StrValue s) 1 x = 16 * x
  /\ merged_nibble (StrValue s) 0 x = x
  /\ (forall n, n = 0 \/ n = 1 ->
        0 <= merged_nibble (IntValue v) n x < 256
        /\ 0 <= merged_nibble (StrValue s) n x < 256).
Proof.
  intros Hv Hx. destruct (merged_nibble_byte v x Hv Hx) as [H1 H0].
  pose proof (Z.mod_pos_bound v 16 ltac:(lia)) as Hm.
  assert (Hd : 0 <= v / 16 < 16)
    by (split; [apply Z.div_pos; lia|apply Z.div_lt_upper_bound; lia]).
  assert (Hs1 : merged_nibble (StrValue s) 1 x = 16 * x)
    by (rewrite merged_nibble_unknown by lia; change (2 ^ (1 * 4)) with 16; lia).
  assert (Hs0 : merged_nibble (StrValue s) 0 x = x)
    by (rewrite merged_nibble_unknown by lia; change (2 ^ (0 * 4)) with 1; lia).
  split; [done|]. split; [done|]. split; [done|]. split; [done|].
  intros n [-> | ->]; rewrite ?H1, ?H0, ?Hs1, ?Hs0; lia.
Qed.

Lemma X16_nibble_replaces_one_digit_witness :
  merged_nibble (IntValue 0xAB) 1 0xC = 0xCB
  /\ merged_nibble (IntValue 0xAB) 0 0xC = 0xAC
  /\ merged_nibble (StrValue "?") 1 0xC = 0xC0.
Proof.
  destruct (X16_nibble_replaces_one_digit 0xAB 0xC "?"
              ltac:(lia) ltac:(lia)) as (H1 & H0 & Hs & _).
  exact (conj H1 (conj H0 Hs)).
Defined.

Section TypingDigits.

Context {World : Type}.
Implicit Types self : HexGraphicsObject World.

(** A successful high-nibble write keeps everything that the next key
    press depends on. *)
Lemma _set_nibble_value_high_frame self value w rf wf w' :
  read_func self = Some rf -> write_func self = Some wf ->
  accepted self (cursor self) ->
  default 1 (cursor_nibble self) = 1 ->
  wf (cursor self) (merged_nibble (rf (cursor self) w) 1 value) w
    = (true, w') ->
  exists s', _set_nibble_value value self w = Some (s', w')
    /\ cursor s' = cursor self /\ cursor_nibble s' = Some 0
    /\ read_func s' = Some rf /\ write_func s' = Some wf
    /\ start_addr s' = start_addr self /\ end_addr s' = end_addr self
    /\ _processing_cursor_update s' = false.
Proof.
  intros Hr Hw Ha Hn Hwr.
  rewrite (_set_nibble_value_eq _ _ _ _ _ Hr Hw) by lia.
  rewrite Hn. cbv zeta. rewrite Hwr. cbn [fst snd].
  change (1 - 1) with 0. rewrite Z.add_0_r.
  eexists. split; [reflexivity|].
  destruct (set_cursor_accepted self (cursor self) None (Some 0) Ha)
    as (Hc & Hnib & Hs & He & _ & Hp & _ & Hwf & Hrf).
  rewrite Hc, Hnib, Hs, He, Hp, Hwf, Hrf. done.
Qed.

End TypingDigits.

(** X17.  Typing two hex digits [h], [l] in the hex column writes the byte
    [16 * h + l].  On a grid whose cursor is in bounds with the high nibble
    pending, over a store that accepts every write and reads it back, the
    two calls of [_set_nibble_value] succeed and the store then holds
    [16 * h + l] at the cursor address, whatever was there before (a byte
    or no data).  The cursor ends on the high nibble of the next byte, or,
    on the last byte of the region, stays where it is with the low nibble
    pending. *)
Theorem X17_two_hex_digits_write_a_byte {World : Type}
    (self : HexGraphicsObject World) (rf : Z -> World -> HexByteValue)
    (wf : Z -> Z -> World -> bool * World) (h l : Z) (w : World) :
  read_func self = Some rf -> write_func self = Some wf ->
  (forall a b w0, (wf a b w0).1 = true /\ rf a (wf a b w0).2 = IntValue b) ->
  in_bounds self -> _processing_cursor_update self = false ->
  default 1 (cursor_nibble self) = 1 ->
  0 <= h < 16 -> 0 <= l < 16 ->
  (forall v, rf (cursor self) w = IntValue v -> 0 <= v < 256) ->
  exists s1 w1 s2 w2,
    _set_nibble_value h self w = Some (s1, w1)
    /\ _set_nibble_value l s1 w1 = Some (s2, w2)
    /\ rf (cursor self) w2 = IntValue (16 * h + l)
    /\ (cursor self + 1 < end_addr self ->
        cursor s2 = cursor self + 1 /\ cursor_nibble s2 = Some 1)
    /\ (cursor self + 1 = end_addr self ->
        cursor s2 = cursor self /\ cursor_nibble s2 = Some 0).
Proof.
  intros Hr Hw Hstore Hin Hp Hn Hh Hl Hold. unfold in_bounds in Hin.
  set (c := cursor self) in *.
  set (b1 := merged_nibble (rf c w) 1 h).
  destruct (wf c b1 w) as [ok1 w1] eqn:E1.
  destruct (Hstore c b1 w) as [Hok1 Hrd1]. rewrite E1 in Hok1, Hrd1.
  cbn in Hok1, Hrd1. subst ok1.
  destruct (_set_nibble_value_high_frame self h w rf wf w1 Hr Hw
              ltac:(split; [exact Hin|exact Hp]) Hn E1)
    as (s1 & Hs1 & Hc1 & Hn1 & Hr1 & Hw1 & Hst1 & Hen1 & Hp1).
  fold c in Hc1.
  assert (Hb1 : exists d, 0 <= d < 16 /\ b1 = 16 * h + d).
  { subst b1. destruct (rf c w) as [v|s] eqn:Ev.
    - destruct (merged_nibble_byte v h (Hold v eq_refl) Hh) as [-> _].
      exists (v mod 16). split; [apply Z.mod_pos_bound|]; lia.
    - exists 0. split; [lia|]. rewrite merged_nibble_unknown by lia.
      change (2 ^ (1 * 4)) with 16. lia. }
  destruct Hb1 as (d & Hd & Hb1).
  set (b2 := merged_nibble (rf c w1) 0 l).
  assert (Hb2 : b2 = 16 * h + l).
  { subst b2. rewrite Hrd1, Hb1.
    destruct (merged_nibble_byte (16 * h + d) l ltac:(lia) Hl) as [_ ->].
    replace (16 * h + d) with (d + h * 16) by lia.
    rewrite Z.div_add, Z.div_small by lia. lia. }
  destruct (wf c b2 w1) as [ok2 w2] eqn:E2.
  destruct (Hstore c b2 w1) as [Hok2 Hrd2]. rewrite E2 in Hok2, Hrd2.
  cbn in Hok2, Hrd2. subst ok2.
  assert (E2' : wf (cursor s1) (merged_nibble (rf (cursor s1) w1) 0 l) w1
                = (true, w2)) by (rewrite Hc1; exact E2).
  destruct (_set_nibble_value_low s1 l w1 rf wf w2 Hr1 Hw1 Hn1 E2')
    as [Hmove Hstay].
  destruct (decide (c + 1 < end_addr self)) as [Hlt|Hge].
  - destruct Hmove as (s2 & Hs2 & Hc2 & Hn2 & _).
    { split; [rewrite Hst1, Hen1, Hc1; lia|done]. }
    exists s1, w1, s2, w2. rewrite Hc1 in Hc2.
    split; [done|]. split; [done|]. split; [by rewrite Hrd2, Hb2|].
    split; [done|]. intros; lia.
  - exists s1, w1, s1, w2.
    split; [done|]. split.
    { apply Hstay. intros [Hacc _]. rewrite Hen1, Hc1 in Hacc. lia. }
    split; [by rewrite Hrd2, Hb2|]. split; [intros; lia|done].
Qed.

Lemma X17_two_hex_digits_write_a_byte_witness :
  exists s1 w1 s2 w2,
    _set_nibble_value 0xC (DemoEdit.editor DemoEdit.write 5 None) [(5, 0xAB)]
    = Some (s1, w1)
    /\ _set_nibble_value 0xD s1 w1 = Some (s2, w2)
    /\ DemoEdit.read 5 w2 = IntValue 0xCD
    /\ cursor s2 = 6 /\ cursor_nibble s2 = Some 1.
Proof.
  assert (Hstore : forall a b w0,
            (DemoEdit.write a b w0).1 = true
            /\ DemoEdit.read a (DemoEdit.write a b w0).2 = IntValue b).
  { intros a b w0. split; [done|]. cbn. by rewrite Z.eqb_refl. }
  destruct (X17_two_hex_digits_write_a_byte
              (DemoEdit.editor DemoEdit.write 5 None)
              DemoEdit.read DemoEdit.write 0xC 0xD [(5, 0xAB)]
              eq_refl eq_refl Hstore)
    as (s1 & w1 & s2 & w2 & H1 & H2 & H3 & H4 & _).
  - unfold in_bounds. simpl. lia.
  - reflexivity.
  - reflexivity.
  - lia.
  - lia.
  - intros v [= <-]. lia.
  - exists s1, w1, s2, w2.
    destruct (H4 ltac:(simpl; lia)) as [Hc Hn].
    exact (conj H1 (conj H2 (conj H3 (conj Hc Hn)))).
Defined.

Section ActiveRegions.

Context {World : Type}.
Implicit Types self : HexGraphicsObject World.

Lemma active_after_update (lo hi : Z) (regions : list Region.t) :
  filter (fun rgn => Region.active rgn = true)
    (map (update_region_active lo hi) regions)
  = Region.set_active true
      <$> filter (fun r => overlap_test lo hi r = true) regions.
Proof.
  induction regions as [|r rs IH]; [done|].
  cbn [map]. rewrite !filter_cons, IH.
  destruct (update_region_active_spec lo hi r) as (Ha & _).
  cbv zeta in Ha.
  destruct (overlap_test lo hi r) eqn:E.
  - rewrite decide_True by done. rewrite decide_True by done.
    rewrite fmap_cons. f_equal.
    unfold update_region_active. f_equal.
    unfold update_region_active in Ha. cbn in Ha. exact Ha.
  - rewrite decide_False by (rewrite Ha; done).
    by rewrite decide_False by done.
Qed.

Lemma regions_after_update (lo hi : Z) (regions : list Region.t) :
  Region.set_active false <$> map (update_region_active lo hi) regions
  = Region.set_active false <$> regions.
Proof.
  induction regions as [|r rs IH]; [done|].
  cbn [map]. rewrite !fmap_cons, IH. done.
Qed.

End ActiveRegions.

(** X18.  What [get_active_highlight_regions] returns after
    [set_highlight_regions(regions)]: the regions of the list that
    intersect the range from the cursor to the selection anchor (the
    cursor alone when nothing is selected), in list order, each marked
    active.  The grid holds the given regions in the given order, only the
    flags differ; and the list that [HexView] hands over is the cached CFB
    regions, then those of the synchronized views, then the patch
    regions. *)
Theorem X18_active_regions_after_set {World : Type}
    (self : HexGraphicsObject World) (regions : list Region.t)
    (v : HexView.t) :
  get_active_highlight_regions (set_highlight_regions regions self)
  = Region.set_active true
      <$> filter (fun r => overlap_test (active_range self).1
                             (active_range self).2 r = true) regions
  /\ Region.set_active false
       <$> highlighted_regions (set_highlight_regions regions self)
     = Region.set_active false <$> regions
  /\ Region.set_active false
       <$> highlighted_regions (HexView.hex (HexView._set_highlighted_regions v))
     = Region.set_active false
         <$> (HexView._cfb_highlights v ++ HexView._sync_view_highlights v
              ++ HexView._patch_highlights v).
Proof.
  assert (Hset : forall {W} (s : HexGraphicsObject W) rs,
            highlighted_regions (set_highlight_regions rs s)
            = map (update_region_active (active_range s).1
                     (active_range s).2) rs).
  { intros W s rs. unfold set_highlight_regions.
    by rewrite update_active_eq. }
  split; [|split].
  - unfold get_active_highlight_regions. rewrite Hset.
    apply active_after_update.
  - rewrite Hset. apply regions_after_update.
  - unfold HexView._set_highlighted_regions. cbn [HexView.hex HexView.set_hex].
    rewrite Hset, regions_after_update. cbn [app]. by rewrite <- app_assoc.
Qed.

(** X19.  [jump_to] always answers [True] and always drops the selection.
    When the address lies in the displayed range and no cursor move is in
    progress the cursor is on it afterwards; for an address outside the
    range the cursor stays where it was, and the answer is [True] all the
    same. *)
Theorem X19_jump_to (addr : Z) (v : HexView.t) :
  (HexView.jump_to addr v).1 = true
  /\ selection_start (HexView.hex (HexView.jump_to addr v).2) = None
  /\ get_selection (HexView.hex (HexView.jump_to addr v).2) = None
  /\ (accepted (HexView.hex v) addr ->
      cursor (HexView.hex (HexView.jump_to addr v).2) = addr)
  /\ (~ (start_addr (HexView.hex v) <= addr < end_addr (HexView.hex v)) ->
      cursor (HexView.hex (HexView.jump_to addr v).2)
      = cursor (HexView.hex v)).
Proof.
  unfold HexView.jump_to, HexView.set_cursor. cbn.
  set (h := clear_selection (HexView.hex v)).
  assert (Hsel : selection_start (set_cursor addr None None h) = None)
    by (by rewrite set_cursor_selection_frame).
  split; [done|]. split; [done|].
  split; [unfold get_selection; by rewrite Hsel|]. split.
  - intros Ha.
    by destruct (set_cursor_accepted h addr None None Ha) as (Hc & _).
  - intros Hout. by rewrite (set_cursor_out_of_bounds h addr None None Hout).
Qed.

Lemma X19_jump_to_witness :
  let v := HexView.mk
             (set_cursor 4 None None
                (begin_selection
                   (set_cursor 1 None None
                      (set_end_addr 16 (set_num_bytes 16 (init true))))))
             None [] [] [] in
  cursor (HexView.hex (HexView.jump_to 9 v).2) = 9
  /\ cursor (HexView.hex (HexView.jump_to 16 v).2) = 4
  /\ (HexView.jump_to 16 v).1 = true
  /\ get_selection (HexView.hex (HexView.jump_to 16 v).2) = None.
Proof.
  intros v.
  destruct (X19_jump_to 9 v) as (_ & _ & _ & H9 & _).
  destruct (X19_jump_to 16 v) as (Ht & _ & Hs & _ & H16).
  refine (conj (H9 _) (conj (H16 _) (conj Ht Hs))).
  - split; [simpl; lia|reflexivity].
  - simpl. lia.
Defined.



Section ColumnLookup.

Context {T : Type} (le lt : T -> T -> bool).

(** The test of the loop of [point_to_column] for the column [k]. *)
Lemma point_to_column_from_Some (x : T) (columns : list T) :
  forall i0 i,
    point_to_column_from le lt i0 x columns = Some i ->
    exists (k : nat) c0 c1,
      i = i0 + Z.of_nat k
      /\ columns !! k = Some c0 /\ columns !! S k = Some c1
      /\ le c0 x = true /\ lt x c1 = true
      /\ forall (j : nat) c c', (j < k)%nat ->
           columns !! j = Some c -> columns !! S j = Some c' ->
           le c x && lt x c' = false.
Proof.
  induction columns as [|c0 rest IH]; intros i0 i H; [done|].
  destruct rest as [|c1 rest]; [done|].
  cbn [point_to_column_from] in H.
  destruct (le c0 x && lt x c1) eqn:E.
  - injection H as <-. apply andb_true_iff in E as [E1 E2].
    exists 0%nat, c0, c1. repeat split; try done; [lia|]. intros; lia.
  - destruct (IH _ _ H) as (k & d0 & d1 & -> & Hk0 & Hk1 & Hle & Hlt & Hfirst).
    exists (S k), d0, d1. repeat split; try done; [lia|].
    intros [|j] c c' Hj Hc Hc'.
    + cbn in Hc, Hc'. by injection Hc as <-; injection Hc' as <-.
    + apply (Hfirst j); [lia|done..].
Qed.

Lemma point_to_column_from_None (x : T) (columns : list T) :
  forall i0,
    point_to_column_from le lt i0 x columns = None ->
    forall (j : nat) c c',
      columns !! j = Some c -> columns !! S j = Some c' ->
      le c x && lt x c' = false.
Proof.
  induction columns as [|c0 rest IH]; intros i0 H j c c' Hc Hc'; [done|].
  destruct rest as [|c1 rest]; [by destruct j|].
  cbn [point_to_column_from] in H.
  destruct (le c0 x && lt x c1) eqn:E; [done|].
  destruct j as [|j].
  - cbn in Hc, Hc'. by injection Hc as <-; injection Hc' as <-.
  - by apply (IH _ H j).
Qed.

End ColumnLookup.

(** X21.  [point_to_column] returns the first column that holds the point.
    If it returns [i], then [0 <= i < len(columns) - 1],
    [columns[i] <= x < columns[i + 1]], and no earlier column passes that
    test; with the 17 offsets of the byte or the ASCII section, [i] is a
    column of the 16-column grid.  If it returns [None], no column passes
    the test. *)
Theorem X21_point_to_column {T : Type} (le lt : T -> T -> bool) (x : T)
    (columns : list T) (i : Z) :
  (point_to_column le lt x columns = Some i ->
   0 <= i < Z.of_nat (length columns) - 1
   /\ (length columns = 17%nat -> 0 <= i < 16)
   /\ exists c0 c1,
        columns !! Z.to_nat i = Some c0
        /\ columns !! S (Z.to_nat i) = Some c1
        /\ le c0 x = true /\ lt x c1 = true
        /\ forall (j : nat) c c', Z.of_nat j < i ->
             columns !! j = Some c -> columns !! S j = Some c' ->
             le c x && lt x c' = false)
  /\ (point_to_column le lt x columns = None ->
      forall (j : nat) c c',
        columns !! j = Some c -> columns !! S j = Some c' ->
        le c x && lt x c' = false).
Proof.
  unfold point_to_column. split.
  - intros H.
    destruct (point_to_column_from_Some le lt x columns 0 i H)
      as (k & c0 & c1 & -> & Hk0 & Hk1 & Hle & Hlt & Hfirst).
    pose proof (lookup_lt_Some _ _ _ Hk1) as Hlen.
    rewrite Z.add_0_l, Nat2Z.id.
    split; [lia|]. split; [lia|].
    exists c0, c1. repeat split; try done.
    intros j c c' Hj. apply Hfirst. lia.
  - apply point_to_column_from_None.
Qed.

Lemma X21_point_to_column_witness :
  point_to_column Z.leb Z.ltb 25 [10; 20; 30] = Some 1
  /\ 0 <= 1 < 2
  /\ point_to_column Z.leb Z.ltb 30 [10; 20; 30] = None
  /\ Z.leb 20 30 && Z.ltb 30 30 = false.
Proof.
  destruct (X21_point_to_column Z.leb Z.ltb 25 [10; 20; 30] 1) as [H1 _].
  destruct (X21_point_to_column Z.leb Z.ltb 30 [10; 20; 30] 0) as [_ H2].
  destruct (H1 eq_refl) as (Hb & _).
  exact (conj eq_refl (conj Hb (conj eq_refl
           (H2 eq_refl 1%nat 20 30 eq_refl eq_refl)))).
Defined.

Section BufferReads.

Context {World : Type}.
Implicit Types self : HexGraphicsObject World.

Lemma set_cursor_data_frame self addr ascii_column nibble :
  data (set_cursor addr ascii_column nibble self) = data self.
Proof.
  destruct (set_cursor_cases self addr ascii_column nibble) as [Ha | ->];
    [|done].
  rewrite (set_cursor_accepted_eq _ _ _ _ Ha). cbv zeta.
  rewrite update_active_eq.
  destruct (negb (cursor self =? addr)), ascii_column;
    cbn [has_focus set_ascii_column_active set_processing_cursor_update];
    destruct (has_focus self); reflexivity.
Qed.

(** The state after [set_data(data, start_addr)]. *)
Lemma set_data_loaded self (bytes : list Z) (start : Z) :
  Z.of_nat (length bytes) < 2 ^ 63 ->
  exists s',
    set_data bytes start None self = Some s'
    /\ start_addr s' = start
    /\ end_addr s' = start + Z.of_nat (length bytes)
    /\ data s' = bytes /\ read_func s' = None.
Proof.
  intros Hlen.
  assert (Hlen' : Z.of_nat (length bytes) < 2 ^ 1024).
  { eapply Z.lt_trans; [exact Hlen|]. apply Z.pow_lt_mono_r; lia. }
  unfold set_data, _set_data_common. cbv zeta.
  cbn [num_bytes set_num_bytes set_data_attr set_read_func set_start_addr
       start_addr].
  destruct (Z.of_nat (length bytes) >=? 0) eqn:E;
    [|rewrite Z.geb_leb in E; apply Z.leb_gt in E; lia].
  match goal with
  | |- context [set_cursor ?a None None ?s] =>
      destruct (set_cursor_bounds_frame s a None None)
        as (Hs & He & _ & Hr);
      pose proof (set_cursor_data_frame s a None None) as Hd;
      pose proof (set_cursor_num_bytes s a None None) as Hnb
  end.
  rewrite _update_layout_ok by (rewrite Hnb; exact Hlen').
  eexists. split; [reflexivity|].
  rewrite Hs, He, Hd, Hr. done.
Qed.

End BufferReads.

(** X22.  Loading a buffer and reading it back.  For a buffer of fewer
    than [2^63] bytes, which is every buffer that Python can hold,
    [set_data(data, start_addr)] never raises; afterwards the displayed
    range is
    [[start_addr, start_addr + len(data))] and [get_value_for_addr] returns
    [data[i]] at [start_addr + i].  At or beyond the end of the range the
    read raises ([IndexError]); up to [len(data)] addresses below
    [start_addr] it does not raise but returns the bytes of the buffer
    counted from its end, since the index [addr - start_addr] is negative
    there. *)
Theorem X22_buffer_round_trip {World : Type} (self : HexGraphicsObject World)
    (bytes : list Z) (start : Z) (w : World) :
  Z.of_nat (length bytes) < 2 ^ 63 ->
  exists s',
    set_data bytes start None self = Some s'
    /\ start_addr s' = start
    /\ end_addr s' = start + Z.of_nat (length bytes)
    /\ (forall (i : nat) v, bytes !! i = Some v ->
          get_value_for_addr (start + Z.of_nat i) s' w = Some (IntValue v))
    /\ (forall addr, start + Z.of_nat (length bytes) <= addr ->
          get_value_for_addr addr s' w = None)
    /\ (forall (i : nat) v, bytes !! i = Some v ->
          get_value_for_addr (start - Z.of_nat (length bytes) + Z.of_nat i)
            s' w = Some (IntValue v))
    /\ (forall addr, addr < start - Z.of_nat (length bytes) ->
          get_value_for_addr addr s' w = None).
Proof.
  intros Hlen.
  destruct (set_data_loaded self bytes start Hlen)
    as (s' & Hs & Hst & Hen & Hd & Hr).
  exists s'. split; [done|]. split; [done|]. split; [done|].
  unfold get_value_for_addr. rewrite Hr, Hd, Hst. cbv zeta.
  set (n := Z.of_nat (length bytes)).
  split; [|split; [|split]].
  - intros i v Hi. pose proof (lookup_lt_Some _ _ _ Hi) as Hlt.
    replace (start + Z.of_nat i - start) with (Z.of_nat i) by lia.
    destruct (Z.of_nat i <? 0) eqn:E1; [lia|].
    destruct (0 <=? Z.of_nat i) eqn:E2; [|lia].
    destruct (Z.of_nat i <? n) eqn:E3; [|subst n; lia]. cbn.
    by rewrite Nat2Z.id, Hi.
  - intros addr Ha.
    destruct (addr - start <? 0) eqn:E1; [lia|].
    destruct (0 <=? addr - start) eqn:E2; [|lia].
    destruct (addr - start <? n) eqn:E3; [subst n; lia|]. done.
  - intros i v Hi. pose proof (lookup_lt_Some _ _ _ Hi) as Hlt.
    replace (start - n + Z.of_nat i - start) with (Z.of_nat i - n) by lia.
    destruct (Z.of_nat i - n <? 0) eqn:E1; [|subst n; lia].
    replace (Z.of_nat i - n + n) with (Z.of_nat i) by lia.
    destruct (0 <=? Z.of_nat i) eqn:E2; [|lia].
    destruct (Z.of_nat i <? n) eqn:E3; [|subst n; lia]. cbn.
    by rewrite Nat2Z.id, Hi.
  - intros addr Ha.
    destruct (addr - start <? 0) eqn:E1; [|lia].
    destruct (0 <=? addr - start + n) eqn:E2; [lia|]. done.
Qed.

Lemma X22_buffer_round_trip_witness :
  exists s',
    set_data [0x10; 0x20; 0x30] 0x40 None Demo.idle = Some s'
    /\ end_addr s' = 0x43
    /\ get_value_for_addr 0x41 s' () = Some (IntValue 0x20)
    /\ get_value_for_addr 0x43 s' () = None
    /\ get_value_for_addr 0x3F s' () = Some (IntValue 0x30).
Proof.
  assert (Hlen : Z.of_nat (length [0x10; 0x20; 0x30]) < 2 ^ 63)
    by (apply Z.ltb_lt; reflexivity).
  destruct (X22_buffer_round_trip Demo.idle [0x10; 0x20; 0x30] 0x40 () Hlen)
    as (s' & Hs & _ & He & Hget & Hend & Hwrap & _).
  exists s'.
  exact (conj Hs (conj He (conj (Hget 1%nat 0x20 eq_refl)
           (conj (Hend 0x43 ltac:(simpl; lia))
              (Hwrap 2%nat 0x30 eq_refl))))).
Defined.

Section TextKeys.

Context {World : Type}.
Implicit Types self : HexGraphicsObject World.

Lemma hex_digit_range (c d : Z) :
  hex_digit c = Some d -> 0 <= d < 16.
Proof.
  unfold hex_digit.
  destruct (48 <=? c) eqn:E1, (c <=? 57) eqn:E2; cbn [andb];
    try (intros [= <-]; lia);
    destruct (97 <=? c) eqn:E3, (c <=? 102) eqn:E4; cbn [andb];
    try (intros [= <-]; lia);
    destruct (65 <=? c) eqn:E5, (c <=? 70) eqn:E6; cbn [andb];
    try (intros [= <-]; lia); done.
Qed.

Lemma printable_ascii_range (c : Z) :
  isascii c && isprintable c = true -> 32 <= c <= 126.
Proof.
  unfold isascii, isprintable. intros H.
  apply andb_true_iff in H as [_ H2].
  apply andb_true_iff in H2 as [H2 H3]. apply Z.leb_le in H2, H3. lia.
Qed.

(** Each edit calls the write callback once and returns what is left of
    the world after that call. *)
Lemma _set_byte_value_world self value w wf :
  write_func self = Some wf ->
  exists s', _set_byte_value value self w
             = Some (s', (wf (cursor self) value w).2).
Proof.
  intros Hw. rewrite (_set_byte_value_eq _ _ _ _ Hw). cbv zeta.
  destruct (wf _ _ _) as [[] w']; by eexists.
Qed.

Lemma _set_nibble_value_world self value w rf wf :
  read_func self = Some rf -> write_func self = Some wf ->
  0 <= default 1 (cursor_nibble self) ->
  exists s', _set_nibble_value value self w
             = Some (s', (wf (cursor self)
                            (merged_nibble (rf (cursor self) w)
                               (default 1 (cursor_nibble self)) value) w).2).
Proof.
  intros Hr Hw Hn. rewrite (_set_nibble_value_eq _ _ _ _ _ Hr Hw Hn).
  cbv zeta. destruct (wf _ _ _) as [[] w']; by eexists.
Qed.

End TextKeys.

(** X23.  Whatever text is typed, the value handed to the write callback
    is a byte.  With both callbacks installed, a byte or no data at the
    cursor, and the nibble position unset, 0 or 1, a key press with any
    text (any number of characters, any code points) is either passed on
    without any write, or it makes exactly one write at the cursor address
    with a value [0 <= value < 256]: in the ASCII column the code of a
    printable ASCII character (32 to 126), in the hex column the old byte
    with one hex digit replaced.  So no typed text can make the byte
    conversion of [project_memory_write_func] raise.  A text that is not
    one character, and a character from code 128 on, is always passed
    on. *)
Theorem X23_typed_values_are_bytes {World : Type}
    (self : HexGraphicsObject World) (rf : Z -> World -> HexByteValue)
    (wf : Z -> Z -> World -> bool * World) (t : list Z) (w : World) :
  read_func self = Some rf -> write_func self = Some wf ->
  (forall v, rf (cursor self) w = IntValue v -> 0 <= v < 256) ->
  default 1 (cursor_nibble self) = 0 \/ default 1 (cursor_nibble self) = 1 ->
  (keyPressEvent_text t self w = Some PassedOn
   \/ exists c value s',
        t = [c] /\ 0 <= c < 128 /\ 0 <= value < 256
        /\ keyPressEvent_text t self w
           = Some (Accepted (s', (wf (cursor self) value w).2))
        /\ (ascii_column_active self = true ->
            value = c /\ 32 <= value <= 126)
        /\ (ascii_column_active self = false ->
            exists d, hex_digit c = Some d /\ 0 <= d < 16
              /\ value = merged_nibble (rf (cursor self) w)
                           (default 1 (cursor_nibble self)) d))
  /\ (length t <> 1%nat -> keyPressEvent_text t self w = Some PassedOn)
  /\ (forall c, t = [c] -> 128 <= c ->
        keyPressEvent_text t self w = Some PassedOn).
Proof.
  intros Hr Hw Hold Hn. split; [|split].
  - destruct t as [|c [|c2 t]]; [by left| |by left].
    unfold keyPressEvent_text.
    destruct (ascii_column_active self) eqn:Hcol.
    + destruct (isascii c && isprintable c) eqn:Hp; [|by left].
      right. pose proof (printable_ascii_range c Hp) as Hrange.
      destruct (_set_byte_value_world self c w wf Hw) as [s' Hs'].
      exists c, c, s'. rewrite Hs'.
      change (Accepted <$> Some ?r) with (Some (Accepted r)).
      split; [done|]. split; [lia|]. split; [lia|]. split; [done|].
      split; [done|]. intros [=].
    + destruct (hex_digit c) as [d|] eqn:Hd; [|by left].
      right. pose proof (hex_digit_range c d Hd) as Hrange.
      assert (Hc : 0 <= c < 128).
      { unfold hex_digit in Hd.
        destruct (48 <=? c) eqn:E1, (c <=? 57) eqn:E2; cbn [andb] in Hd;
          try lia;
          destruct (97 <=? c) eqn:E3, (c <=? 102) eqn:E4; cbn [andb] in Hd;
          try lia;
          destruct (65 <=? c) eqn:E5, (c <=? 70) eqn:E6; cbn [andb] in Hd;
          try lia; done. }
      destruct (_set_nibble_value_world self d w rf wf Hr Hw ltac:(lia))
        as [s' Hs'].
      set (n := default 1 (cursor_nibble self)) in *.
      exists c, (merged_nibble (rf (cursor self) w) n d), s'. rewrite Hs'.
      change (Accepted <$> Some ?r) with (Some (Accepted r)).
      split; [done|]. split; [done|].
      split; [|split; [done|]; split; [intros [=]|]].
      * destruct (rf (cursor self) w) as [v|s] eqn:Ev.
        -- pose proof (Hold v eq_refl) as Hv.
           destruct (merged_nibble_byte v d Hv Hrange) as [H1 H0].
           pose proof (Z.mod_pos_bound v 16 ltac:(lia)).
           assert (0 <= v / 16 < 16)
             by (split; [apply Z.div_pos; lia
                        |apply Z.div_lt_upper_bound; lia]).
           destruct Hn as [Hn | Hn]; rewrite Hn, ?H1, ?H0; lia.
        -- destruct Hn as [Hn | Hn];
             rewrite Hn, merged_nibble_unknown by lia;
             [change (2 ^ (0 * 4)) with 1|change (2 ^ (1 * 4)) with 16];
             lia.
      * intros _. by exists d.
  - intros Hlen. by destruct t as [|c [|c2 t]].
  - intros c -> Hc. unfold keyPressEvent_text.
    destruct (ascii_column_active self).
    + unfold isascii. destruct (c <? 128) eqn:E; [lia|].
      by rewrite andb_false_r.
    + unfold hex_digit.
      destruct (c <=? 57) eqn:E2; [lia|]. rewrite andb_false_r.
      destruct (c <=? 102) eqn:E4; [lia|]. rewrite andb_false_r.
      destruct (c <=? 70) eqn:E6; [lia|]. by rewrite andb_false_r.
Qed.

Lemma X23_typed_values_are_bytes_witness :
  let hexcol := DemoEdit.editor DemoEdit.write 5 None in
  let asciicol := set_ascii_column_active true hexcol in
  (exists s', keyPressEvent_text [65] asciicol [(5, 0xAB)]
              = Some (Accepted (s', [(5, 0x41); (5, 0xAB)])))
  /\ (exists s', keyPressEvent_text [99] hexcol [(5, 0xAB)]
                 = Some (Accepted (s', [(5, 0xCB); (5, 0xAB)])))
  /\ keyPressEvent_text [103] hexcol [(5, 0xAB)] = Some PassedOn
  /\ keyPressEvent_text [0x20AC] asciicol [(5, 0xAB)] = Some PassedOn
  /\ keyPressEvent_text [52; 49] hexcol [(5, 0xAB)] = Some PassedOn.
Proof.
  intros hexcol asciicol.
  assert (Hold : forall v, DemoEdit.read 5 [(5, 0xAB)] = IntValue v ->
                   0 <= v < 256) by (intros v [= <-]; lia).
  destruct (X23_typed_values_are_bytes asciicol DemoEdit.read DemoEdit.write
              [65] [(5, 0xAB)] eq_refl eq_refl Hold (or_intror eq_refl))
    as [[Hp | (c & value & s' & Hc & _ & _ & Hk & Ha & _)] _];
    [discriminate Hp|].
  injection Hc as <-. destruct (Ha eq_refl) as [-> _].
  destruct (X23_typed_values_are_bytes hexcol DemoEdit.read DemoEdit.write
              [99] [(5, 0xAB)] eq_refl eq_refl Hold (or_intror eq_refl))
    as [[Hp | (c2 & value2 & s2 & Hc2 & _ & _ & Hk2 & _ & Hh)] _];
    [discriminate Hp|].
  injection Hc2 as <-. destruct (Hh eq_refl) as (d & Hd & _ & ->).
  injection Hd as <-.
  destruct (X23_typed_values_are_bytes asciicol DemoEdit.read DemoEdit.write
              [0x20AC] [(5, 0xAB)] eq_refl eq_refl Hold (or_intror eq_refl))
    as (_ & _ & Hbig).
  destruct (X23_typed_values_are_bytes hexcol DemoEdit.read DemoEdit.write
              [52; 49] [(5, 0xAB)] eq_refl eq_refl Hold (or_intror eq_refl))
    as (_ & Hlen & _).
  split; [exists s'; exact Hk|]. split; [exists s2; exact Hk2|].
  split; [reflexivity|].
  split; [apply (Hbig 0x20AC eq_refl); lia|apply Hlen; simpl; lia].
Defined.
